(** * Verification of the nonogram solver (src/nonogram_solver.py)

    A shallow embedding of class [NonogramSolver]: the line-domain generator
    ([generateDomainHelper], [generateDomain]), the domain queries and
    reductions ([reduceDomain], [getDomainIntersects],
    [reduceNeighborDomains], [reduceDomains]) and the driving loop of
    [solve], followed by the properties of each.

    Conventions of the embedding:
    - a candidate (a numpy boolean array) is a [list bool]; a domain (a
      Python list of candidates) is a [list (list bool)];
    - block lengths and list indices produced by [enumerate]/[range] over a
      length are [nat]; positions computed by integer arithmetic
      ([start], [end], [sum], [last_start], [last_num]) are [Z];
    - the Python sets [known_rows], [known_cols], [known_intersects] are
      stdpp [gset]s;
    - a call either returns a value, raises [IndexError], or is still
      running when the fuel of the model is used up. *)

From Stdlib Require Import ZArith Lia List Bool.
From stdpp Require Import base gmap sets list.

Local Open Scope Z_scope.

(** ** Outcomes of a call *)

Inductive outcome (A : Type) : Type :=
| Ok (a : A)          (* the call returned *)
| IndexError          (* the call raised IndexError *)
| OutOfFuel.          (* the model ran out of fuel: the call is still running *)

Arguments Ok {A} a.
Arguments IndexError {A}.
Arguments OutOfFuel {A}.

Definition bind {A B : Type} (m : outcome A) (f : A -> outcome B) : outcome B :=
  match m with
  | Ok a => f a
  | IndexError => IndexError
  | OutOfFuel => OutOfFuel
  end.

Notation "'let*' x ':=' m 'in' k" := (bind m (fun x => k))
  (at level 10, x name, m at level 100, k at level 200).

(** A [for] loop whose body may raise: the state is threaded through the
    iterations and the first exception ends the loop. *)
Fixpoint for_each {S X : Type} (xs : list X) (body : S -> X -> outcome S) (s : S)
  : outcome S :=
  match xs with
  | [] => Ok s
  | x :: xs' => let* s' := body s x in for_each xs' body s'
  end.

(** Python's [range(start, stop)] over integers, and [range(n)]. *)
Definition range (start stop : Z) : list Z :=
  map (fun k => start + Z.of_nat k) (seq 0 (Z.to_nat (stop - start))).

Definition range0 (n : nat) : list Z := range 0 (Z.of_nat n).

(** ** Arrays *)

(** Index normalisation of a numpy array of length [len]: a negative index
    counts from the end, anything outside [-len, len) raises. *)
Definition norm_index (len : nat) (idx : Z) : option nat :=
  if (0 <=? idx) && (idx <? Z.of_nat len) then Some (Z.to_nat idx)
  else if (- Z.of_nat len <=? idx) && (idx <? 0) then Some (Z.to_nat (idx + Z.of_nat len))
  else None.

(** [row[idx] = v] *)
Definition setitem (row : list bool) (idx : Z) (v : bool) : outcome (list bool) :=
  match norm_index (length row) idx with
  | Some n => Ok (<[n := v]> row)
  | None => IndexError
  end.

(** [c[i]] for an index [i] that comes from [enumerate] or [range]. *)
Definition getitem {A : Type} (l : list A) (i : nat) : outcome A :=
  match l !! i with
  | Some a => Ok a
  | None => IndexError
  end.

Definition sum_nums (nums : list nat) : nat := fold_right Nat.add 0%nat nums.

(** ** LineDomainGenerator *)

Section Generator.

(** [self.size] *)
Variable size : nat.

(** [generateDomainHelper(nums, domain, row, last_start, last_num, index,
    sum)]: the list [domain] is mutated in place by the source and is
    returned here. Each level of the recursion uses one unit of fuel.

    The source receives [sum] from [np.sum], a 64-bit numpy integer, and
    computes [sum -= nums[index]] and [end] in that type, where an
    overflow wraps around. Here [sum], [start] and [end] are unbounded
    integers: the same computation as long as no value leaves the 64-bit
    range. On a line spec that fits, every value is bounded by the length
    of the line, the length of an array that the source allocates; in
    general the values stay in range under [int64_safe] below, and the
    statements about blocks that overshoot the line by more than one cell
    carry that bound. *)
Fixpoint generateDomainHelper (fuel : nat) (nums : list nat)
    (domain : list (list bool)) (row : list bool)
    (last_start last_num : Z) (index : nat) (sum : Z)
  : outcome (list (list bool)) :=
  match fuel with
  | O => OutOfFuel
  | S fuel' =>
    if sum =? 0 then Ok (domain ++ [row])
    else
      match nums !! index with
      | None => IndexError
      | Some n =>
        let sum := sum - Z.of_nat n in
        let start := if last_start =? -1 then 0 else last_start + last_num + 1 in
        let end_ := Z.of_nat size - sum - Z.of_nat (length nums)
                    + Z.of_nat index - Z.of_nat n + 2 in
        let end_ := if start =? end_ then end_ + 1 else end_ in
        for_each (range start end_)
          (fun domain i =>
             let* row_copy :=
               for_each (range0 n)
                 (fun row_copy j => setitem row_copy (i + j) true) row in
             generateDomainHelper fuel' nums domain row_copy
               i (Z.of_nat n) (S index) sum)
          domain
      end
  end.

(** [generateDomain(nums)]; the recursion is at most [len(nums) + 1] deep.
    [np.sum(nums)] is the exact sum as long as it is below [2 ^ 63]. *)
Definition generateDomain (nums : list nat) : outcome (list (list bool)) :=
  generateDomainHelper (S (length nums)) nums [] (replicate size false)
    (-1) (-1) 0%nat (Z.of_nat (sum_nums nums)).

End Generator.

(** ** DomainStore *)

(** The two domain lists of a solver, and the two known-sets: an argument
    of [reduceDomains] is a reference to one of them. *)
Inductive side : Type := Rows | Cols.

#[global] Instance side_eq_dec : EqDecision side.
Proof. solve_decision. Defined.

(** The mutable attributes of a [NonogramSolver]. *)
Record solver : Type := Solver {
  row_domains : list (list (list bool));
  col_domains : list (list (list bool));
  known_rows : gset nat;
  known_cols : gset nat;
  known_intersects : gset (bool * nat * nat);
  is_searching_rows : bool
}.

Definition domains_of (s : side) (st : solver) : list (list (list bool)) :=
  match s with Rows => row_domains st | Cols => col_domains st end.

Definition known_of (s : side) (st : solver) : gset nat :=
  match s with Rows => known_rows st | Cols => known_cols st end.

Definition set_domains (s : side) (ds : list (list (list bool))) (st : solver) : solver :=
  match s with
  | Rows => Solver ds (col_domains st) (known_rows st) (known_cols st)
              (known_intersects st) (is_searching_rows st)
  | Cols => Solver (row_domains st) ds (known_rows st) (known_cols st)
              (known_intersects st) (is_searching_rows st)
  end.

(** [known.add(i)] *)
Definition add_known (s : side) (i : nat) (st : solver) : solver :=
  match s with
  | Rows => Solver (row_domains st) (col_domains st) ({[i]} ∪ known_rows st)
              (known_cols st) (known_intersects st) (is_searching_rows st)
  | Cols => Solver (row_domains st) (col_domains st) (known_rows st)
              ({[i]} ∪ known_cols st) (known_intersects st) (is_searching_rows st)
  end.

(** [self.known_intersects.add(t)] *)
Definition add_intersect (t : bool * nat * nat) (st : solver) : solver :=
  Solver (row_domains st) (col_domains st) (known_rows st) (known_cols st)
    ({[t]} ∪ known_intersects st) (is_searching_rows st).

(** [self.is_searching_rows = not self.is_searching_rows] *)
Definition flip (st : solver) : solver :=
  Solver (row_domains st) (col_domains st) (known_rows st) (known_cols st)
    (known_intersects st) (negb (is_searching_rows st)).

(** [len(s)] of a known-set *)
Definition set_len (s : gset nat) : nat := stdpp.base.size s.

(** [list(enumerate(l))] *)
Definition enumerate {A : Type} (l : list A) : list (nat * A) :=
  zip (seq 0 (length l)) l.

(** [reduceDomain(domain, index, value)]: the list is mutated in place by
    the source and is returned here. *)
Definition reduceDomain (domain : list (list bool)) (index : nat) (value : bool)
  : outcome (list (list bool)) :=
  if (length domain =? 1)%nat then Ok domain
  else
    for_each (rev (seq 0 (length domain)))
      (fun (domain : list (list bool)) (i : nat) =>
         let* c := getitem domain i in
         let* x := getitem c index in
         if negb (eqb x value) then Ok (delete i domain) else Ok domain)
      domain.

(** The inner loop of [getDomainIntersects] over the candidates, with its
    [break]. *)
Fixpoint scan (cands : list (list bool)) (i : nat) (all_true all_false : bool)
  : outcome (bool * bool) :=
  match cands with
  | [] => Ok (all_true, all_false)
  | j :: cands' =>
    if negb all_true && negb all_false then Ok (all_true, all_false)
    else
      let* x := getitem j i in
      if negb x then scan cands' i false all_false
      else scan cands' i all_true false
  end.

(** [getDomainIntersects(domain, index)] *)
Definition getDomainIntersects (st : solver) (domain : list (list bool)) (index : nat)
  : outcome (list (nat * bool)) :=
  let* first := getitem domain 0 in
  for_each (seq 0 (length first))
    (fun (intersects : list (nat * bool)) (i : nat) =>
       if bool_decide ((is_searching_rows st, index, i) ∉ known_intersects st) then
         let* flags := scan domain i true true in
         let intersects :=
           if fst flags then intersects ++ [(i, true)] else intersects in
         let intersects :=
           if snd flags then intersects ++ [(i, false)] else intersects in
         Ok intersects
       else Ok intersects)
    [].

(** [reduceNeighborDomains(known_domain, unknown_domains, index)]: the list
    [unknown_domains] is mutated in place by the source and is returned
    here. *)
Definition reduceNeighborDomains (st : solver) (known_domain : list bool)
    (unknown_domains : list (list (list bool))) (index : nat)
  : outcome (list (list (list bool))) :=
  for_each (enumerate known_domain)
    (fun (unknown_domains : list (list (list bool))) (iv : nat * bool) =>
       if snd iv then Ok unknown_domains
       else
         let* d := getitem unknown_domains (fst iv) in
         if (1 <? length d)%nat
            && bool_decide ((is_searching_rows st, index, fst iv) ∉ known_intersects st)
         then
           let* d' :=
             for_each (rev (enumerate d))
               (fun (live : list (list bool)) (jc : nat * list bool) =>
                  let* x := getitem (snd jc) index in
                  if x then Ok (delete (fst jc) live) else Ok live)
               d in
           Ok (<[fst iv := d']> unknown_domains)
         else Ok unknown_domains)
    unknown_domains.

(** ** PropagationEngine *)

(** The body of the inner loop of [reduceDomains] for line [i] and one
    record [intersect]: the call of [reduceDomain] on
    [domains_b[intersect[0]]] and the update of [known_intersects]. *)
Definition propagate_intersect (b : side) (i : nat) (st : solver)
    (intersect : nat * bool) : outcome solver :=
  let* d := getitem (domains_of b st) (fst intersect) in
  let* d' := reduceDomain d i (snd intersect) in
  Ok (add_intersect (is_searching_rows st, i, fst intersect)
        (set_domains b (<[fst intersect := d']> (domains_of b st)) st)).

(** The body of the outer loop of [reduceDomains] for line [i]. The three
    arguments of [reduceDomains] are references into the solver; [domain]
    is a reference too, so it is read again after the solver was updated. *)
Definition reduce_line (a ka b : side) (st : solver) (i : nat) : outcome solver :=
  if bool_decide (i ∈ known_of ka st) then Ok st
  else
    let* domain := getitem (domains_of a st) i in
    let* st :=
      (if (length domain =? 1)%nat then
         let* known_domain := getitem domain 0 in
         let* ds := reduceNeighborDomains st known_domain (domains_of b st) i in
         Ok (add_known ka i (set_domains b ds st))
       else Ok st) in
    let* domain := getitem (domains_of a st) i in
    let* intersects := getDomainIntersects st domain i in
    for_each intersects (propagate_intersect b i) st.

(** [reduceDomains(domains_a, known_domains_a, domains_b)] *)
Definition reduceDomains (a ka b : side) (st : solver) : outcome solver :=
  for_each (seq 0 (length (domains_of a st))) (reduce_line a ka b) st.

Section Solve.

Variable size : nat.

(** The condition of the [while] loop of [solve]. *)
Definition searching (st : solver) : bool :=
  negb (set_len (known_rows st) =? size)%nat
  && negb (set_len (known_cols st) =? size)%nat.

(** One iteration of the [while] loop of [solve]. *)
Definition solve_round (st : solver) : outcome solver :=
  let* st := reduceDomains Rows Rows Cols st in
  let st := flip st in
  if negb (set_len (known_rows st) =? size)%nat then
    let* st := reduceDomains Cols Cols Rows st in
    Ok (flip st)
  else Ok st.

(** The [while] loop of [solve]; [fuel] bounds the number of iterations
    the model runs. *)
Fixpoint solve_loop (fuel : nat) (st : solver) : outcome solver :=
  match fuel with
  | O => OutOfFuel
  | S fuel' =>
    if searching st then
      let* st := solve_round st in solve_loop fuel' st
    else Ok st
  end.

(** The two generation loops of [solve]. *)
Definition generate_all (specs : list (list nat)) (domains : list (list (list bool)))
  : outcome (list (list (list bool))) :=
  for_each specs
    (fun (domains : list (list (list bool))) (nums : list nat) =>
       let* d := generateDomain size nums in Ok (domains ++ [d]))
    domains.

(** The solver as [__init__] leaves it: no domain, nothing known. *)
Definition init : solver := Solver [] [] ∅ ∅ ∅ true.

(** [solve()] on a solver built from [(size, rows, cols)]. *)
Definition solve (fuel : nat) (rows cols : list (list nat)) : outcome solver :=
  let* rds := generate_all rows (row_domains init) in
  let* cds := generate_all cols (col_domains init) in
  solve_loop fuel
    (Solver rds cds (known_rows init) (known_cols init)
       (known_intersects init) (is_searching_rows init)).

End Solve.

(** ** Specification side *)

(** The lengths of the maximal runs of [true] of a line, left to right;
    [cur] is the length of the run that is open at the head of [l]. *)
Fixpoint runs_from (cur : nat) (l : list bool) : list nat :=
  match l with
  | [] => match cur with O => [] | S _ => [cur] end
  | true :: l' => runs_from (S cur) l'
  | false :: l' =>
    match cur with
    | O => runs_from 0 l'
    | S _ => cur :: runs_from 0 l'
    end
  end.

Definition runs (l : list bool) : list nat := runs_from 0 l.

(** The fit constraint [sum(nums) + len(nums) - 1 <= N]. *)
Definition fits (N : nat) (nums : list nat) : Prop :=
  Z.of_nat (sum_nums nums) + Z.of_nat (length nums) - 1 <= Z.of_nat N.

(** The block lengths of a line of [size] cells are small enough for the
    64-bit integers of the source: [np.sum(nums)] is exact, and so is
    every intermediate value of [size - sum - len(nums) + index -
    nums[index] + 2], whose absolute value is at most
    [size + sum(nums) + len(nums) + 2]. *)
Definition int64_safe (size : nat) (nums : list nat) : Prop :=
  Z.of_nat (sum_nums nums) + Z.of_nat (length nums) + Z.of_nat size < 2 ^ 62.

(** The binomial coefficient [C(n, k)], by Pascal's rule. *)
Fixpoint binomial (n k : nat) : nat :=
  match n with
  | O => match k with O => 1 | S _ => 0 end
  | S n' => match k with O => 1 | S k' => binomial n' k' + binomial n' k end
  end%nat.

(** A line does not start with a filled cell. *)
Definition no_lead (l : list bool) : Prop :=
  match l with true :: _ => False | _ => True end.

(** The fillings of a line segment of length [n] by the blocks [rest], the
    first block preceded by at least [gap] empty cells, in the order in
    which the recursion of [generateDomainHelper] appends them. *)
Fixpoint fills (gap n : nat) (rest : list nat) : list (list bool) :=
  match rest with
  | [] => [replicate n false]
  | k :: rest' =>
    flat_map
      (fun g => map (fun t => replicate g false ++ replicate k true ++ t)
                    (fills 1 (n - g - k) rest'))
      (seq gap (S n - (sum_nums rest + length rest') - gap))
  end%nat.

(** A domain after a reduction: candidates were only removed, and a domain
    of one candidate is left as it is. *)
Definition reduced (d' d : list (list bool)) : Prop :=
  sublist d' d /\ (length d = 1%nat -> d' = d).

(** A list of domains after a reduction: the same lines, each reduced. *)
Definition shrinks (ds' ds : list (list (list bool))) : Prop :=
  Forall2 reduced ds' ds.

(** The solver after some propagation: domains only reduced, knowledge only
    added. *)
Definition evolves (st st' : solver) : Prop :=
  shrinks (row_domains st') (row_domains st)
  /\ shrinks (col_domains st') (col_domains st)
  /\ known_rows st ⊆ known_rows st'
  /\ known_cols st ⊆ known_cols st'
  /\ known_intersects st ⊆ known_intersects st'.

(** What a pass with known-set [ka] and second domain list [b] leaves
    alone: the orientation flag, the other domain list, the other
    known-set. *)
Definition frame (ka b : side) (st st' : solver) : Prop :=
  is_searching_rows st' = is_searching_rows st
  /\ (forall s, s <> b -> domains_of s st' = domains_of s st)
  /\ (forall s, s <> ka -> known_of s st' = known_of s st).

(** Every candidate of [cands] has the value [v] at position [i]. *)
Definition agree_on (i : nat) (v : bool) (cands : list (list bool)) : bool :=
  forallb (fun c => bool_decide (c !! i = Some v)) cands.

(** The records that position [i] contributes to the result of
    [getDomainIntersects]. *)
Definition forced_at (st : solver) (domain : list (list bool)) (index i : nat)
  : list (nat * bool) :=
  if bool_decide ((is_searching_rows st, index, i) ∉ known_intersects st) then
    (if agree_on i true domain then [(i, true)] else [])
    ++ (if agree_on i false domain then [(i, false)] else [])
  else [].

(** Two lists of domains with the same lines, each domain of the first a
    sublist of the domain of the second, hence no longer. *)
Definition only_removed (ds' ds : list (list (list bool))) : Prop :=
  Forall2 (fun d' d => sublist d' d /\ (length d' <= length d)%nat) ds' ds.

(** Every known line of orientation [s] has a domain of one candidate. *)
Definition collapsed (s : side) (st : solver) : Prop :=
  forall i, i ∈ known_of s st -> exists c, domains_of s st !! i = Some [c].

(** ** Two puzzles *)

(** The solver when [solve] returns on the puzzle [size = 1],
    [rows = [[1]]], [cols = [[1]]]. *)
Definition single_cell : solver :=
  Solver [[[true]]] [[[true]]] {[0%nat]} ∅ {[(true, 0%nat, 0%nat)]} false.

(** The solver after the generation phase on the puzzle [size = 2],
    [rows = [[1], [1]]], [cols = [[1], [1]]], which has two solutions. *)
Definition ambiguous : solver :=
  Solver [[[true; false]; [false; true]]; [[true; false]; [false; true]]]
         [[[true; false]; [false; true]]; [[true; false]; [false; true]]]
         ∅ ∅ ∅ true.

(** [single_cell] after one more pass from columns to rows. *)
Definition single_cell_again : solver :=
  Solver [[[true]]] [[[true]]] {[0%nat]} {[0%nat]}
         ({[(false, 0%nat, 0%nat)]} ∪ {[(true, 0%nat, 0%nat)]}) false.

(** The solver after the generation phase on the puzzle [size = 3],
    [rows = [[3], [1], [1]]], [cols = [[1], [3], [1]]], and after the first
    pass from rows to columns. *)
Definition cross : solver :=
  Solver [[[true; true; true]];
          [[true; false; false]; [false; true; false]; [false; false; true]];
          [[true; false; false]; [false; true; false]; [false; false; true]]]
         [[[true; false; false]; [false; true; false]; [false; false; true]];
          [[true; true; true]];
          [[true; false; false]; [false; true; false]; [false; false; true]]]
         ∅ ∅ ∅ true.

Definition cross_after : solver :=
  Solver [[[true; true; true]];
          [[true; false; false]; [false; true; false]; [false; false; true]];
          [[true; false; false]; [false; true; false]; [false; false; true]]]
         [[[true; false; false]]; [[true; true; true]]; [[true; false; false]]]
         {[0%nat]} ∅
         ({[(true, 0%nat, 0%nat)]} ∪ {[(true, 0%nat, 1%nat)]}
          ∪ {[(true, 0%nat, 2%nat)]})
         true.

(** ** Printing the board *)

(** The two characters that [print_board] writes for a cell. *)
Inductive glyph : Type :=
| Hollow   (* the white vertical rectangle, written for a [True] cell *)
| Solid.   (* the black vertical rectangle, written for a [False] cell *)

(** What [print_board] writes: the line [Solve the puzzle first!], or the
    lines of the board. *)
Inductive output : Type :=
| Unsolved
| Grid (lines : list (list glyph)).

(** The condition of the [if] in the inner loop of [print_board], with the
    short-circuit of [and] and [or]: only one of the two cells is read. *)
Definition print_cell (rows : bool) (solved_domains : list (list (list bool)))
    (i j : nat) : outcome glyph :=
  let* filled :=
    (if rows then
       let* d := getitem solved_domains i in
       let* c := getitem d 0 in
       getitem c j
     else
       let* d := getitem solved_domains j in
       let* c := getitem d 0 in
       getitem c i) in
  Ok (if filled then Hollow else Solid).

(** The two nested loops of [print_board]. *)
Definition print_lines (rows : bool) (solved_domains : list (list (list bool)))
  : outcome (list (list glyph)) :=
  for_each (seq 0 (length solved_domains))
    (fun (lines : list (list glyph)) (i : nat) =>
       let* line :=
         for_each (seq 0 (length solved_domains))
           (fun (line : list glyph) (j : nat) =>
              let* g := print_cell rows solved_domains i j in
              Ok (line ++ [g]))
           [] in
       Ok (lines ++ [line]))
    [].

(** [print_board()], for a solver of size [size]. *)
Definition print_board (size : nat) (st : solver) : outcome output :=
  if (set_len (known_rows st) =? size)%nat then
    let* lines := print_lines true (row_domains st) in Ok (Grid lines)
  else if (set_len (known_cols st) =? size)%nat then
    let* lines := print_lines false (col_domains st) in Ok (Grid lines)
  else Ok Unsolved.

(** ** Solutions of a puzzle *)

(** The rows [R] and the columns [C] describe one board: cell [j] of row
    [i] is cell [i] of column [j]. *)
Definition crossing (R C : list (list bool)) : Prop :=
  forall i j r c, R !! i = Some r -> C !! j = Some c -> r !! j = c !! i.

(** Every line of [L] is a candidate of the domain of its line. *)
Definition holds (ds : list (list (list bool))) (L : list (list bool)) : Prop :=
  Forall2 (fun d l => l ∈ d) ds L.

(** The lines [L] have [size] cells each and the runs that [specs] give. *)
Definition satisfies (size : nat) (L : list (list bool)) (specs : list (list nat)) : Prop :=
  Forall2 (fun l nums => length l = size /\ runs l = nums) L specs.

(** The lines of a board in orientation [s]. *)
Definition lines_of (s : side) (R C : list (list bool)) : list (list bool) :=
  match s with Rows => R | Cols => C end.

(** The other orientation. *)
Definition other (s : side) : side :=
  match s with Rows => Cols | Cols => Rows end.

(** The board as [print_board] writes it. *)
Definition render (R : list (list bool)) : list (list glyph) :=
  map (map (fun filled : bool => if filled then Hollow else Solid)) R.

(** The condition under which [reduceNeighborDomains] prunes the domain
    [d] at position [p]. *)
Definition prunes (st : solver) (known_domain : list bool) (index p : nat)
    (d : list (list bool)) : bool :=
  bool_decide (known_domain !! p = Some false)
  && (1 <? length d)%nat
  && bool_decide ((is_searching_rows st, index, p) ∉ known_intersects st).

(** The rows and the columns of the solution of the puzzle of [cross]. *)
Definition cross_rows : list (list bool) :=
  [[true; true; true]; [false; true; false]; [false; true; false]].

Definition cross_cols : list (list bool) :=
  [[true; false; false]; [true; true; true]; [true; false; false]].

(** Every candidate of every domain has [size] cells. *)
Definition well_sized (size : nat) (ds : list (list (list bool))) : Prop :=
  Forall (Forall (fun c => length c = size)) ds.

(** The solver of a puzzle of size [n] during propagation: [n] row domains
    and [n] column domains of candidates of [n] cells, known lines
    collapsed, recorded triples within the board. *)
Definition wf (n : nat) (st : solver) : Prop :=
  length (row_domains st) = n
  /\ length (col_domains st) = n
  /\ well_sized n (row_domains st)
  /\ well_sized n (col_domains st)
  /\ collapsed Rows st
  /\ collapsed Cols st
  /\ (forall t, t ∈ known_intersects st -> (snd (fst t) < n)%nat /\ (snd t < n)%nat).

(** The number of facts the solver has recorded. *)
Definition recorded (st : solver) : nat :=
  (set_len (known_rows st) + set_len (known_cols st)
   + stdpp.base.size (known_intersects st))%nat.

(** All the triples that [known_intersects] can hold on a board of size
    [n]. *)
Definition all_triples (n : nat) : list (bool * nat * nat) :=
  flat_map (fun f => flat_map (fun i => map (fun p => (f, i, p)) (seq 0 n)) (seq 0 n))
    [true; false].

(** * Properties *)

(** ** Loops *)

Lemma for_each_app {S X : Type} (xs ys : list X) (body : S -> X -> outcome S) (s : S) :
  for_each (xs ++ ys) body s = let* s' := for_each xs body s in for_each ys body s'.
Proof.
  revert s. induction xs as [|x xs IH]; intros s; simpl; [reflexivity|].
  destruct (body s x); simpl; auto.
Qed.

Lemma for_each_map {S X Y : Type} (f : X -> Y) (xs : list X)
    (body : S -> Y -> outcome S) (s : S) :
  for_each (map f xs) body s = for_each xs (fun s x => body s (f x)) s.
Proof.
  revert s. induction xs as [|x xs IH]; intros s; simpl; [reflexivity|].
  destruct (body s (f x)); simpl; auto.
Qed.

Lemma for_each_ext {S X : Type} (xs : list X) (body body' : S -> X -> outcome S) (s : S) :
  (forall s x, In x xs -> body s x = body' s x) ->
  for_each xs body s = for_each xs body' s.
Proof.
  revert s. induction xs as [|x xs IH]; intros s H; simpl; [reflexivity|].
  rewrite (H s x) by (left; reflexivity).
  destruct (body' s x); simpl; auto.
  apply IH. intros; apply H; right; assumption.
Qed.

(** A loop whose every iteration appends to the accumulator. *)
Lemma for_each_append {X A : Type} (xs : list X)
    (body : list A -> X -> outcome (list A)) (F : X -> list A) :
  (forall x d, In x xs -> body d x = Ok (d ++ F x)) ->
  forall d, for_each xs body d = Ok (d ++ flat_map F xs).
Proof.
  induction xs as [|x xs IH]; intros H d; simpl.
  - now rewrite app_nil_r.
  - rewrite H by (left; reflexivity). simpl.
    rewrite IH by (intros; apply H; right; assumption).
    now rewrite app_assoc.
Qed.

(** A loop of bodies that do not run out of fuel does not either. *)
Lemma for_each_fuel {S X : Type} (xs : list X) (body : S -> X -> outcome S) :
  (forall s x, In x xs -> body s x <> OutOfFuel) ->
  forall s, for_each xs body s <> OutOfFuel.
Proof.
  induction xs as [|x xs IH]; intros H s; simpl; [discriminate|].
  pose proof (H s x (or_introl eq_refl)) as Hx.
  destruct (body s x) as [s'| |]; simpl; [|discriminate|congruence].
  apply IH. intros; apply H; now right.
Qed.

(** A loop invariant, for the iterations that return. *)
Lemma for_each_inv {S X : Type} (P : S -> Prop) (xs : list X)
    (body : S -> X -> outcome S) :
  (forall s x s', In x xs -> P s -> body s x = Ok s' -> P s') ->
  forall s s', P s -> for_each xs body s = Ok s' -> P s'.
Proof.
  induction xs as [|x xs IH]; intros H s s' Hs E; simpl in E.
  - congruence.
  - destruct (body s x) as [s1| |] eqn:E1; simpl in E; try discriminate.
    eapply IH; [| |exact E].
    + intros; eapply H; eauto. now right.
    + eapply H; eauto. now left.
Qed.

Lemma range_seq (start stop : Z) (a : nat) :
  start = Z.of_nat a -> 
  range start stop = map Z.of_nat (seq a (Z.to_nat (stop - start))).
Proof.
  intros ->. unfold range. generalize (Z.to_nat (stop - Z.of_nat a)) as n.
  intros n.
  assert (G : forall s, map (fun k => Z.of_nat a + Z.of_nat k) (seq s n)
                        = map Z.of_nat (seq (a + s) n)).
  { induction n as [|n IH]; intros s; simpl; [reflexivity|].
    f_equal; [lia|]. rewrite IH. f_equal. f_equal. lia. }
  rewrite G. now rewrite Nat.add_0_r.
Qed.

(** ** Writing a block into a row *)

Lemma norm_index_in (len : nat) (i : nat) :
  (i < len)%nat -> norm_index len (Z.of_nat i) = Some i.
Proof.
  intros H. unfold norm_index.
  destruct (Z.leb_spec 0 (Z.of_nat i)); [|lia].
  destruct (Z.ltb_spec (Z.of_nat i) (Z.of_nat len)); [|lia].
  simpl. now rewrite Nat2Z.id.
Qed.

Lemma norm_index_out (len : nat) (i : nat) :
  (len <= i)%nat -> norm_index len (Z.of_nat i) = None.
Proof.
  intros H. unfold norm_index.
  destruct (Z.ltb_spec (Z.of_nat i) (Z.of_nat len)); [lia|].
  rewrite andb_false_r.
  destruct (Z.ltb_spec (Z.of_nat i) 0); [lia|].
  now rewrite andb_false_r.
Qed.

(** Painting [k] cells from the end of [pre] on, on a row that is empty
    from there on. *)
Lemma paint_seq_ok (k : nat) : forall (pre : list bool) (m s : nat) (i : Z),
  i + Z.of_nat s = Z.of_nat (length pre) -> (k <= m)%nat ->
  for_each (map Z.of_nat (seq s k))
    (fun row_copy j => setitem row_copy (i + j) true) (pre ++ replicate m false)
  = Ok (pre ++ replicate k true ++ replicate (m - k) false).
Proof.
  induction k as [|k IH]; intros pre m s i Hi Hk; simpl.
  - now rewrite Nat.sub_0_r.
  - destruct m as [|m]; [lia|].
    unfold setitem at 1. rewrite Hi, norm_index_in
      by (rewrite length_app, length_replicate; lia).
    simpl bind.
    rewrite insert_app_r_alt by lia. rewrite Nat.sub_diag. simpl.
    rewrite (cons_middle true pre), app_assoc.
    rewrite (IH (pre ++ [true]) m (S s) i).
    + now rewrite <- app_assoc.
    + rewrite length_app. simpl. lia.
    + lia.
Qed.

Lemma paint_ok (pre : list bool) (m g k : nat) :
  (g + k <= m)%nat ->
  for_each (range0 k)
    (fun row_copy j => setitem row_copy (Z.of_nat (length pre + g) + j) true)
    (pre ++ replicate m false)
  = Ok ((pre ++ replicate g false ++ replicate k true)
          ++ replicate (m - g - k) false).
Proof.
  intros H. unfold range0. rewrite (range_seq 0 _ 0) by reflexivity.
  rewrite Z.sub_0_r, Nat2Z.id.
  replace m with (g + (m - g))%nat at 1 by lia.
  rewrite replicate_add, app_assoc.
  rewrite paint_seq_ok.
  - now rewrite <- !app_assoc.
  - rewrite length_app, length_replicate. lia.
  - lia.
Qed.

(** Painting inside any row of the right length returns a row of that
    length. *)
Lemma paint_seq_length (k : nat) : forall (row : list bool) (s i : nat),
  (i + s + k <= length row)%nat ->
  exists row', for_each (map Z.of_nat (seq s k))
                 (fun row_copy j => setitem row_copy (Z.of_nat i + j) true) row
               = Ok row' /\ length row' = length row.
Proof.
  induction k as [|k IH]; intros row s i H; simpl.
  - eauto.
  - unfold setitem at 1. rewrite <- Nat2Z.inj_add, norm_index_in by lia.
    simpl bind.
    destruct (IH (<[(i + s)%nat := true]> row) (S s) i) as (row' & E & L).
    + rewrite length_insert. lia.
    + exists row'. split; [exact E|]. now rewrite L, length_insert.
Qed.

(** Painting a block that ends one or more cells after the end of the row
    raises. *)
Lemma paint_seq_overflow (k : nat) : forall (row : list bool) (s i : nat),
  (i + s <= length row < i + s + k)%nat ->
  for_each (map Z.of_nat (seq s k))
    (fun row_copy j => setitem row_copy (Z.of_nat i + j) true) row
  = IndexError.
Proof.
  induction k as [|k IH]; intros row s i H; simpl; [lia|].
  unfold setitem at 1. rewrite <- Nat2Z.inj_add.
  destruct (Nat.eq_dec (i + s)%nat (length row)) as [E|E].
  - rewrite norm_index_out by lia. reflexivity.
  - rewrite norm_index_in by lia. simpl bind.
    apply IH. rewrite length_insert. lia.
Qed.

(** ** The generator and the enumeration [fills] *)

Lemma range_seq_shift (start stop : Z) (p g : nat) :
  start = Z.of_nat (p + g) ->
  range start stop
  = map (fun g' => Z.of_nat (p + g')) (seq g (Z.to_nat (stop - start))).
Proof.
  intros E. rewrite (range_seq start stop (p + g)) by exact E.
  generalize (Z.to_nat (stop - start)) as n. clear E. intros n. revert g.
  induction n as [|n IH]; intros g; simpl; [reflexivity|].
  f_equal. rewrite <- IH. f_equal. f_equal. lia.
Qed.

Lemma map_flat_map {A B C : Type} (f : B -> C) (h : A -> list B) (l : list A) :
  map f (flat_map h l) = flat_map (fun x => map f (h x)) l.
Proof.
  induction l as [|x l IH]; simpl; [reflexivity|].
  now rewrite map_app, IH.
Qed.

Lemma sum_nums_cons (k : nat) (rest : list nat) :
  sum_nums (k :: rest) = (k + sum_nums rest)%nat.
Proof. reflexivity. Qed.

Lemma sum_nums_pos (rest : list nat) :
  Forall (fun k => (0 < k)%nat) rest -> rest <> [] -> (0 < sum_nums rest)%nat.
Proof.
  intros H Hne. destruct H as [|k rest Hk _]; [congruence|].
  rewrite sum_nums_cons. lia.
Qed.

Lemma sum_nums_length (rest : list nat) :
  Forall (fun k => (0 < k)%nat) rest -> (length rest <= sum_nums rest)%nat.
Proof.
  induction 1 as [|k rest Hk _ IH]; simpl; [lia|].
  fold (sum_nums rest). lia.
Qed.

Section GeneratorFacts.

Variable size : nat.

Lemma generateDomainHelper_eq (fuel : nat) (nums : list nat)
    (domain : list (list bool)) (row : list bool)
    (last_start last_num : Z) (index : nat) (sum : Z) :
  generateDomainHelper size (S fuel) nums domain row last_start last_num index sum
  = if sum =? 0 then Ok (domain ++ [row])
    else
      match nums !! index with
      | None => IndexError
      | Some n =>
        let sum := sum - Z.of_nat n in
        let start := if last_start =? -1 then 0 else last_start + last_num + 1 in
        let end_ := Z.of_nat size - sum - Z.of_nat (length nums)
                    + Z.of_nat index - Z.of_nat n + 2 in
        let end_ := if start =? end_ then end_ + 1 else end_ in
        for_each (range start end_)
          (fun domain i =>
             let* row_copy :=
               for_each (range0 n)
                 (fun row_copy j => setitem row_copy (i + j) true) row in
             generateDomainHelper size fuel nums domain row_copy
               i (Z.of_nat n) (S index) sum)
          domain
      end.
Proof. reflexivity. Qed.

(** The fuel that [generateDomain] gives the helper is never used up: the
    recursion stops, at the latest, at the [nums[index]] past the end. *)
Lemma generateDomainHelper_fuel (fuel : nat) :
  forall (nums : list nat) (domain : list (list bool)) (row : list bool)
         (ls ln : Z) (index : nat) (sum : Z),
    (length nums - index < fuel)%nat ->
    generateDomainHelper size fuel nums domain row ls ln index sum <> OutOfFuel.
Proof.
  induction fuel as [|fuel IH]; intros nums domain row ls ln index sum Hfuel;
    [lia|].
  rewrite generateDomainHelper_eq.
  destruct (sum =? 0); [discriminate|].
  destruct (nums !! index) as [n|] eqn:En; [|discriminate].
  apply lookup_lt_Some in En. cbv zeta.
  apply for_each_fuel. intros d i _.
  destruct (for_each (range0 n)
              (fun row_copy j => setitem row_copy (i + j) true) row)
    as [row_copy| |] eqn:Ep; cbn [bind]; [|discriminate|].
  - apply IH. lia.
  - exfalso. revert Ep. apply for_each_fuel. intros r j _.
    unfold setitem. destruct (norm_index (length r) (i + j)); discriminate.
Qed.

Lemma generateDomain_total (nums : list nat) :
  generateDomain size nums <> OutOfFuel.
Proof. unfold generateDomain. apply generateDomainHelper_fuel. lia. Qed.

(** On a feasible suffix [rest] of the blocks, the helper appends exactly
    the enumeration [fills], each filling prefixed by the part of the row
    that is already painted. *)
Lemma helper_fills (rest : list nat) :
  forall (fuel : nat) (done : list nat) (pre : list bool) (g : nat)
         (domain : list (list bool)) (ls ln : Z),
    Forall (fun k => (0 < k)%nat) rest ->
    (length rest < fuel)%nat ->
    (if ls =? -1 then 0 else ls + ln + 1) = Z.of_nat (length pre + g) ->
    (length pre <= size)%nat ->
    (rest <> [] -> (length pre + g + sum_nums rest + length rest <= S size)%nat) ->
    generateDomainHelper size fuel (done ++ rest) domain
      (pre ++ replicate (size - length pre) false) ls ln (length done)
      (Z.of_nat (sum_nums rest))
    = Ok (domain ++ map (app pre) (fills g (size - length pre) rest)).
Proof.
  induction rest as [|k rest IH];
    intros fuel done pre g domain ls ln Hpos Hfuel Hstart Hpre Hfit.
  - destruct fuel as [|fuel]; [simpl in Hfuel; lia|]. reflexivity.
  - destruct fuel as [|fuel]; [simpl in Hfuel; lia|].
    simpl in Hfuel.
    inversion Hpos as [|k' rest' Hk Hrest]; subst k' rest'.
    specialize (Hfit ltac:(discriminate)).
    rewrite sum_nums_cons in Hfit. simpl length in Hfit.
    rewrite generateDomainHelper_eq.
    destruct (Z.eqb_spec (Z.of_nat (sum_nums (k :: rest))) 0) as [E|_];
      [rewrite sum_nums_cons in E; lia|].
    rewrite list_lookup_middle by reflexivity.
    cbv zeta. rewrite Hstart.
    set (cnt := (S (size - length pre) - (sum_nums (k :: rest) + length rest) - g)%nat).
    assert (Hend : Z.of_nat size - (Z.of_nat (sum_nums (k :: rest)) - Z.of_nat k)
                   - Z.of_nat (length (done ++ k :: rest))
                   + Z.of_nat (length done) - Z.of_nat k + 2
                   = Z.of_nat (length pre + g) + Z.of_nat cnt).
    { subst cnt. rewrite length_app, sum_nums_cons. simpl length. lia. }
    rewrite Hend.
    assert (Hcnt : (1 <= cnt)%nat) by (subst cnt; rewrite sum_nums_cons; lia).
    destruct (Z.eqb_spec (Z.of_nat (length pre + g))
                (Z.of_nat (length pre + g) + Z.of_nat cnt)) as [E|_]; [lia|].
    rewrite (range_seq_shift _ _ (length pre) g) by reflexivity.
    replace (Z.to_nat (Z.of_nat (length pre + g) + Z.of_nat cnt
                       - Z.of_nat (length pre + g))) with cnt by lia.
    rewrite for_each_map.
    rewrite (for_each_append _ _
      (fun g' => map (app pre)
         (map (fun t => replicate g' false ++ replicate k true ++ t)
            (fills 1 (size - length pre - g' - k) rest)))).
    + simpl fills. fold (sum_nums rest). fold cnt.
      now rewrite <- map_flat_map.
    + intros g' d Hg'. apply in_seq in Hg'.
      assert (Hg'k : (g' + k + sum_nums rest + length rest <= size - length pre)%nat)
        by (subst cnt; rewrite sum_nums_cons in Hg'; lia).
      rewrite paint_ok by lia. simpl bind.
      set (pre' := pre ++ replicate g' false ++ replicate k true).
      assert (Hlen : length pre' = (length pre + g' + k)%nat).
      { subst pre'. rewrite !length_app, !length_replicate. lia. }
      replace (size - length pre - g' - k)%nat with (size - length pre')%nat by lia.
      replace (done ++ k :: rest) with ((done ++ [k]) ++ rest)
        by (now rewrite <- app_assoc).
      replace (S (length done)) with (length (done ++ [k]))
        by (rewrite length_app; simpl; lia).
      replace (Z.of_nat (k + sum_nums rest) - Z.of_nat k)
        with (Z.of_nat (sum_nums rest)) by lia.
      rewrite (IH fuel (done ++ [k]) pre' 1%nat d); try assumption; try lia.
      * f_equal. f_equal. rewrite map_map. apply map_ext. intros t.
        subst pre'. now rewrite <- !app_assoc.
      * destruct (Z.eqb_spec (Z.of_nat (length pre + g')) (-1)); lia.
Qed.

Lemma range0_seq (k : nat) : range0 k = map Z.of_nat (seq 0 k).
Proof.
  unfold range0. rewrite (range_seq 0 _ 0) by reflexivity.
  now rewrite Z.sub_0_r, Nat2Z.id.
Qed.

(** When the blocks still to place overshoot the row by exactly one cell,
    the bounds [start] and [end] coincide, the correction [end += 1]
    admits the start [start], and the last block is written past the end
    of the row. *)
Lemma helper_overflow (rest : list nat) :
  forall (fuel : nat) (done : list nat) (domain : list (list bool))
         (row : list bool) (ls ln : Z) (start : nat),
    Forall (fun k => (0 < k)%nat) rest ->
    rest <> [] ->
    (length rest < fuel)%nat ->
    length row = size ->
    (if ls =? -1 then 0 else ls + ln + 1) = Z.of_nat start ->
    (start + sum_nums rest + length rest = size + 2)%nat ->
    generateDomainHelper size fuel (done ++ rest) domain row ls ln
      (length done) (Z.of_nat (sum_nums rest))
    = IndexError.
Proof.
  induction rest as [|k rest IH];
    intros fuel done domain row ls ln start Hpos Hne Hfuel Hrow Hstart Hsum;
    [congruence|].
  destruct fuel as [|fuel]; [simpl in Hfuel; lia|].
  simpl in Hfuel.
  inversion Hpos as [|k' rest' Hk Hrest]; subst k' rest'.
  rewrite sum_nums_cons in Hsum. simpl length in Hsum.
  rewrite generateDomainHelper_eq.
  destruct (Z.eqb_spec (Z.of_nat (sum_nums (k :: rest))) 0) as [E|_];
    [rewrite sum_nums_cons in E; lia|].
  rewrite list_lookup_middle by reflexivity.
  cbv zeta. rewrite Hstart.
  replace (Z.of_nat size - (Z.of_nat (sum_nums (k :: rest)) - Z.of_nat k)
           - Z.of_nat (length (done ++ k :: rest))
           + Z.of_nat (length done) - Z.of_nat k + 2)
    with (Z.of_nat start)
    by (rewrite length_app, sum_nums_cons; simpl length; lia).
  rewrite Z.eqb_refl.
  rewrite (range_seq _ _ start) by reflexivity.
  replace (Z.to_nat (Z.of_nat start + 1 - Z.of_nat start)) with 1%nat by lia.
  simpl map. simpl for_each. rewrite range0_seq.
  destruct rest as [|k2 rest].
  - simpl in Hsum.
    rewrite (paint_seq_overflow k row 0 start) by lia. reflexivity.
  - assert (Hlen2 : (2 <= sum_nums (k2 :: rest) + length (k2 :: rest))%nat).
    { pose proof (sum_nums_length _ Hrest). simpl length in *. lia. }
    destruct (paint_seq_length k row 0 start) as (row' & -> & Hrow'); [lia|].
    simpl bind.
    replace (done ++ k :: k2 :: rest) with ((done ++ [k]) ++ k2 :: rest)
      by (now rewrite <- app_assoc).
    replace (S (length done)) with (length (done ++ [k]))
      by (rewrite length_app; simpl; lia).
    replace (Z.of_nat (k + (k2 + sum_nums rest)) - Z.of_nat k)
      with (Z.of_nat (sum_nums (k2 :: rest)))
      by (rewrite sum_nums_cons; lia).
    rewrite (IH fuel (done ++ [k]) domain row' _ _ (start + k + 1)%nat);
      try assumption; try lia; try discriminate.
    + reflexivity.
    + destruct (Z.eqb_spec (Z.of_nat start) (-1)); lia.
Qed.

Lemma generateDomain_fits (nums : list nat) :
  Forall (fun k => (0 < k)%nat) nums -> fits size nums ->
  generateDomain size nums = Ok (fills 0 size nums).
Proof.
  intros Hpos Hfit. unfold generateDomain.
  pose proof (helper_fills nums (S (length nums)) [] [] 0 [] (-1) (-1) Hpos) as H.
  cbn [app length] in H. rewrite Nat.sub_0_r in H. rewrite H; clear H.
  - f_equal. rewrite <- (map_id (fills 0 size nums)) at 2.
    apply map_ext. reflexivity.
  - lia.
  - reflexivity.
  - lia.
  - intros _. unfold fits in Hfit. lia.
Qed.

(** Overshoot by exactly one cell: [IndexError]. *)
Lemma generateDomain_overflow (nums : list nat) :
  Forall (fun k => (0 < k)%nat) nums ->
  Z.of_nat (sum_nums nums) + Z.of_nat (length nums) - 1 = Z.of_nat size + 1 ->
  generateDomain size nums = IndexError.
Proof.
  intros Hpos H. unfold generateDomain.
  apply (helper_overflow nums (S (length nums)) [] [] _ (-1) (-1) 0%nat);
    try assumption; try reflexivity; try lia.
  - intros ->. simpl in H. lia.
  - apply length_replicate.
Qed.

(** Overshoot by two cells or more, with block lengths within the 64-bit
    range: no candidate. *)
Lemma generateDomain_far (nums : list nat) :
  Forall (fun k => (0 < k)%nat) nums ->
  int64_safe size nums ->
  Z.of_nat (sum_nums nums) + Z.of_nat (length nums) - 1 > Z.of_nat size + 1 ->
  generateDomain size nums = Ok [].
Proof.
  intros Hpos _ H. unfold generateDomain.
  destruct nums as [|k rest]; [simpl in H; lia|].
  rewrite generateDomainHelper_eq.
  inversion Hpos as [|k' rest' Hk Hrest]; subst k' rest'.
  destruct (Z.eqb_spec (Z.of_nat (sum_nums (k :: rest))) 0) as [E|_];
    [rewrite sum_nums_cons in E; lia|].
  simpl lookup. cbv zeta iota. simpl (-1 =? -1). cbv iota.
  set (e := Z.of_nat size - (Z.of_nat (sum_nums (k :: rest)) - Z.of_nat k)
            - Z.of_nat (length (k :: rest)) + Z.of_nat 0 - Z.of_nat k + 2).
  assert (He : e < 0) by (subst e; simpl length in *; lia).
  destruct (Z.eqb_spec 0 e) as [E|_]; [lia|].
  unfold range. replace (Z.to_nat (e - 0)) with 0%nat by lia. reflexivity.
Qed.

End GeneratorFacts.

(** ** Runs of filled cells *)

Lemma runs_from_false_prefix (g : nat) (t : list bool) :
  runs_from 0 (replicate g false ++ t) = runs_from 0 t.
Proof. induction g as [|g IH]; simpl; auto. Qed.

Lemma runs_from_true_prefix (k : nat) : forall (c : nat) (t : list bool),
  runs_from c (replicate k true ++ t) = runs_from (c + k) t.
Proof.
  induction k as [|k IH]; intros c t; simpl.
  - now rewrite Nat.add_0_r.
  - rewrite IH. f_equal. lia.
Qed.

Lemma runs_from_close (c : nat) (t : list bool) :
  no_lead t -> runs_from (S c) t = S c :: runs_from 0 t.
Proof. destruct t as [|[] t]; simpl; intros H; [reflexivity|contradiction|reflexivity]. Qed.

Lemma runs_replicate_false (n : nat) : runs (replicate n false) = [].
Proof.
  unfold runs. rewrite <- (app_nil_r (replicate n false)).
  now rewrite runs_from_false_prefix.
Qed.

Lemma runs_from_open (l : list bool) : forall c, runs_from (S c) l <> [].
Proof.
  induction l as [|[] l IH]; intros c; simpl; [discriminate|apply IH|discriminate].
Qed.

Lemma runs_nil (l : list bool) : runs l = [] -> l = replicate (length l) false.
Proof.
  unfold runs. induction l as [|[] l IH]; simpl; intros H.
  - reflexivity.
  - now apply runs_from_open in H.
  - f_equal. auto.
Qed.

(** A line is at least as long as its runs and the gaps between them. *)
Lemma runs_from_bound (l : list bool) : forall c,
  (sum_nums (runs_from c l) + length (runs_from c l) <= c + length l + 1)%nat.
Proof.
  induction l as [|[] l IH]; intros c; simpl.
  - destruct c; simpl; lia.
  - specialize (IH (S c)). lia.
  - destruct c; simpl.
    + specialize (IH 0%nat). lia.
    + specialize (IH 0%nat). fold (sum_nums (runs_from 0 l)). lia.
Qed.

Lemma runs_bound_no_lead (l : list bool) :
  no_lead l -> (sum_nums (runs l) + length (runs l) <= length l)%nat.
Proof.
  unfold runs. destruct l as [|[] l]; simpl; intros H; [lia|contradiction|].
  pose proof (runs_from_bound l 0). lia.
Qed.

Lemma split_gap (l : list bool) :
  exists g l1, l = replicate g false ++ l1
               /\ (l1 = [] \/ exists l2, l1 = true :: l2).
Proof.
  induction l as [|[] l IH].
  - exists 0%nat, []. auto.
  - exists 0%nat, (true :: l). eauto.
  - destruct IH as (g & l1 & -> & H). exists (S g), l1. auto.
Qed.

Lemma split_run (l : list bool) :
  exists k t, l = replicate k true ++ t /\ no_lead t.
Proof.
  induction l as [|[] l IH].
  - exists 0%nat, []. simpl. auto.
  - destruct IH as (k & t & -> & H). exists (S k), t. auto.
  - exists 0%nat, (false :: l). simpl. auto.
Qed.

(** ** The enumeration [fills] is the set of lines with the given runs *)

Lemma fills_sound (rest : list nat) : forall (gap n : nat) (c : list bool),
  Forall (fun k => (0 < k)%nat) rest ->
  In c (fills gap n rest) ->
  length c = n /\ runs c = rest /\ ((1 <= gap)%nat -> no_lead c).
Proof.
  induction rest as [|k rest IH]; intros gap n c Hpos Hin.
  - simpl in Hin. destruct Hin as [<-|[]].
    rewrite length_replicate, runs_replicate_false.
    repeat split. intros _. destruct n; simpl; auto.
  - inversion Hpos as [|k' rest' Hk Hrest]; subst k' rest'.
    simpl in Hin. apply in_flat_map in Hin. destruct Hin as (g & Hg & Hin).
    apply in_seq in Hg. apply in_map_iff in Hin. destruct Hin as (t & <- & Ht).
    destruct (IH _ _ _ Hrest Ht) as (Hlen & Hruns & Hlead).
    fold (sum_nums rest) in Hg.
    repeat split.
    + rewrite !length_app, !length_replicate, Hlen. lia.
    + unfold runs. rewrite runs_from_false_prefix, runs_from_true_prefix.
      simpl. destruct k as [|k]; [lia|].
      rewrite runs_from_close by (apply Hlead; lia).
      f_equal. exact Hruns.
    + intros Hgap. destruct g as [|g]; [lia|]. simpl. auto.
Qed.

Lemma fills_complete (rest : list nat) : forall (gap n : nat) (c : list bool),
  Forall (fun k => (0 < k)%nat) rest ->
  length c = n -> runs c = rest ->
  (gap <= 1)%nat -> ((1 <= gap)%nat -> no_lead c) ->
  In c (fills gap n rest).
Proof.
  induction rest as [|k rest IH]; intros gap n c Hpos Hlen Hruns Hgap Hlead.
  - simpl. left. apply runs_nil in Hruns. subst n. now symmetry.
  - inversion Hpos as [|k' rest' Hk Hrest]; subst k' rest'.
    destruct (split_gap c) as (g & c1 & -> & Hc1).
    unfold runs in Hruns. rewrite runs_from_false_prefix in Hruns.
    destruct Hc1 as [->|(c2 & ->)]; [discriminate|].
    destruct (split_run (true :: c2)) as (k' & t & E & Ht).
    rewrite E in Hruns, Hlen, Hlead |- *.
    rewrite runs_from_true_prefix in Hruns. simpl in Hruns.
    destruct k' as [|k'].
    { simpl in E. subst t. simpl in Ht. contradiction. }
    rewrite runs_from_close in Hruns by exact Ht.
    injection Hruns as Hk' Hruns. subst k.
    rewrite !length_app, !length_replicate in Hlen.
    pose proof (runs_bound_no_lead t Ht) as Hb. unfold runs in Hb.
    rewrite Hruns in Hb.
    simpl. apply in_flat_map. exists g. split.
    + apply in_seq. fold (sum_nums rest).
      assert ((gap <= g)%nat); [|lia].
      destruct gap as [|gap]; [lia|].
      destruct g as [|g]; [|lia].
      specialize (Hlead ltac:(lia)). simpl in Hlead. contradiction.
    + apply in_map_iff. exists t. split; [reflexivity|].
      apply IH; auto. lia.
Qed.

(** ** Counting *)

Lemma binomial_above (n : nat) : forall k, (n < k)%nat -> binomial n k = 0%nat.
Proof.
  induction n as [|n IH]; intros k H; destruct k as [|k]; simpl; try lia.
  rewrite !IH by lia. reflexivity.
Qed.

Lemma binomial_pos (n : nat) : forall k, (k <= n)%nat -> (0 < binomial n k)%nat.
Proof.
  induction n as [|n IH]; intros k Hk; destruct k as [|k]; simpl; try lia.
  specialize (IH k ltac:(lia)). lia.
Qed.

Lemma binomial_0_r (n : nat) : binomial n 0 = 1%nat.
Proof. destruct n; reflexivity. Qed.

(** The hockey-stick identity, in the order in which the generator walks
    the start positions of a block. *)
Lemma hockey_stick (L : nat) : forall (cnt M : nat),
  (cnt <= S M)%nat ->
  (sum_nums (map (fun j => binomial (M - j) L) (seq 0 cnt))
   + binomial (S M - cnt) (S L) = binomial (S M) (S L))%nat.
Proof.
  induction cnt as [|cnt IH]; intros M H.
  - simpl sum_nums. now rewrite Nat.sub_0_r.
  - rewrite <- cons_seq, <- seq_shift, map_cons, map_map, sum_nums_cons.
    rewrite Nat.sub_0_r.
    destruct M as [|M].
    + assert (cnt = 0%nat) as -> by lia. simpl. lia.
    + specialize (IH M ltac:(lia)).
      replace (S (S M) - S cnt)%nat with (S M - cnt)%nat by lia.
      rewrite (map_ext (fun j => binomial (S M - S j) L)
                       (fun j => binomial (M - j) L)) by reflexivity.
      change (binomial (S (S M)) (S L))
        with (binomial (S M) L + binomial (S M) (S L))%nat.
      lia.
Qed.

Lemma length_flat_map_sum {A B : Type} (h : A -> list B) (l : list A) :
  length (flat_map h l) = sum_nums (map (fun x => length (h x)) l).
Proof.
  induction l as [|x l IH]; simpl; [reflexivity|].
  rewrite length_app, IH. reflexivity.
Qed.

Lemma sum_nums_map_ext {A : Type} (f g : A -> nat) (l : list A) :
  (forall x, In x l -> f x = g x) ->
  sum_nums (map f l) = sum_nums (map g l).
Proof.
  induction l as [|x l IH]; intros H; simpl; [reflexivity|].
  fold (sum_nums (map f l)). fold (sum_nums (map g l)).
  rewrite H by (now left). rewrite IH; [reflexivity|].
  intros; apply H; now right.
Qed.

Lemma seq_from (a n : nat) : seq a n = map (fun j => (a + j)%nat) (seq 0 n).
Proof.
  assert (G : forall s, seq (a + s) n = map (fun j => (a + j)%nat) (seq s n)).
  { induction n as [|n IH]; intros s; simpl; [reflexivity|].
    f_equal. rewrite <- IH. f_equal. lia. }
  rewrite <- G. f_equal. lia.
Qed.

Lemma fills_count (rest : list nat) : forall (gap n : nat),
  (rest = [] \/ gap + sum_nums rest + length rest <= S n)%nat ->
  length (fills gap n rest) = binomial (S n - gap - sum_nums rest) (length rest).
Proof.
  induction rest as [|k rest IH]; intros gap n H.
  - simpl. now rewrite binomial_0_r.
  - destruct H as [H|H]; [discriminate|].
    rewrite sum_nums_cons in H. simpl length in H.
    simpl fills. fold (sum_nums rest). rewrite length_flat_map_sum.
    set (M := (n - gap - (k + sum_nums rest))%nat).
    set (L := length rest).
    replace (S n - (k + sum_nums rest + L) - gap)%nat with (S M - L)%nat
      by (subst M L; lia).
    rewrite (sum_nums_map_ext _ (fun g => binomial (M - (g - gap)) L)).
    + rewrite (seq_from gap), map_map.
      rewrite (map_ext (fun j => binomial (M - (gap + j - gap)) L)
                       (fun j => binomial (M - j) L))
        by (intros j; f_equal; lia).
      pose proof (hockey_stick L (S M - L) M ltac:(lia)) as HS.
      rewrite binomial_above in HS by lia.
      rewrite sum_nums_cons. simpl length. fold L.
      replace (S n - gap - (k + sum_nums rest))%nat with (S M) by (subst M L; lia).
      lia.
    + intros g Hg. apply in_seq in Hg.
      rewrite length_map. rewrite IH.
      * f_equal. subst M L. lia.
      * destruct rest as [|k2 rest2]; [now left|right].
        subst M L. simpl length in *. lia.
Qed.

(** ** The generator: run structure, count, and the spec that does not fit *)

(** C1. For a line length [N] and a sequence [nums] of (positive) block
    lengths that fits ([sum(nums) + len(nums) - 1 <= N]),
    [generateDomain(nums)] returns a list [domain] such that a candidate is
    in [domain] exactly when it is a boolean sequence of length [N] whose
    maximal runs of [True], left to right, have the lengths [nums]; for
    [nums] empty the list is the single all-[False] candidate. *)
Theorem generateDomain_run_structure (N : nat) (nums : list nat) :
  Forall (fun k => (0 < k)%nat) nums ->
  fits N nums ->
  exists domain,
    generateDomain N nums = Ok domain
    /\ (forall c, In c domain <-> length c = N /\ runs c = nums)
    /\ (nums = [] -> domain = [replicate N false]).
Proof.
  intros Hpos Hfit. exists (fills 0 N nums). split; [|split].
  - now apply generateDomain_fits.
  - intros c. split.
    + intros Hin. destruct (fills_sound nums 0 N c Hpos Hin) as (H1 & H2 & _).
      auto.
    + intros [H1 H2]. apply fills_complete; auto; lia.
  - intros ->. reflexivity.
Qed.

Lemma generateDomain_run_structure_witness :
  exists domain,
    generateDomain 5 [1; 2]%nat = Ok domain
    /\ (forall c, In c domain <-> length c = 5%nat /\ runs c = [1; 2]%nat)
    /\ ([1; 2]%nat = [] -> domain = [replicate 5 false]).
Proof.
  apply (generateDomain_run_structure 5 [1; 2]%nat).
  - repeat constructor.
  - unfold fits. simpl. lia.
Defined.

(** C2. For positive block lengths [nums] that fit the line length [N],
    [generateDomain(nums)] returns [C(N - sum(nums) + 1, len(nums))]
    candidates, which is at least one. The second half of the claim fails
    on the code: for [N = 2] and [nums = [1, 1]] the fit constraint fails
    and the call raises [IndexError] instead of returning an empty list. *)
Theorem generateDomain_count (N : nat) (nums : list nat) :
  Forall (fun k => (0 < k)%nat) nums ->
  fits N nums ->
  (exists domain,
     generateDomain N nums = Ok domain
     /\ length domain = binomial (S N - sum_nums nums) (length nums)
     /\ domain <> [])
  /\ (~ fits 2 [1; 1]%nat /\ generateDomain 2 [1; 1]%nat = IndexError).
Proof.
  intros Hpos Hfit. split.
  - exists (fills 0 N nums).
    assert (Hlen : length (fills 0 N nums)
                   = binomial (S N - sum_nums nums) (length nums)).
    { rewrite fills_count.
      - now rewrite Nat.sub_0_r.
      - right. unfold fits in Hfit. lia. }
    split; [now apply generateDomain_fits|]. split; [exact Hlen|].
    intros E. rewrite E in Hlen. simpl in Hlen.
    assert (Hpos' : (0 < binomial (S N - sum_nums nums) (length nums))%nat).
    { apply binomial_pos. unfold fits in Hfit. lia. }
    lia.
  - split; [unfold fits; simpl; lia|reflexivity].
Qed.

Lemma generateDomain_count_witness :
  (exists domain,
     generateDomain 5 [1; 2]%nat = Ok domain
     /\ length domain = binomial (6 - sum_nums [1; 2]%nat) (length [1; 2]%nat)
     /\ domain <> [])
  /\ (~ fits 2 [1; 1]%nat /\ generateDomain 2 [1; 1]%nat = IndexError).
Proof.
  apply (generateDomain_count 5 [1; 2]%nat).
  - repeat constructor.
  - unfold fits. simpl. lia.
Defined.

(** C3. The claim fails on the code. When the blocks overshoot the line by
    exactly one cell ([sum(nums) + len(nums) - 1 = N + 1]) the bounds
    [start] and [end] coincide, the correction [end += 1] admits one start
    position, and the last block is written at index [N]: the call raises
    [IndexError]. When the overshoot is of two cells or more, and the
    block lengths are within the 64-bit range of the source's integers,
    the call returns an empty domain. *)
Theorem generateDomain_unfit (N : nat) (nums : list nat) :
  Forall (fun k => (0 < k)%nat) nums ->
  (Z.of_nat (sum_nums nums) + Z.of_nat (length nums) - 1 = Z.of_nat N + 1 ->
   generateDomain N nums = IndexError)
  /\ (int64_safe N nums ->
      Z.of_nat (sum_nums nums) + Z.of_nat (length nums) - 1 > Z.of_nat N + 1 ->
      generateDomain N nums = Ok []).
Proof.
  intros Hpos. split.
  - intros H. now apply generateDomain_overflow.
  - intros Hsafe H. now apply generateDomain_far.
Qed.

Lemma generateDomain_unfit_witness :
  generateDomain 1 [2%nat] = IndexError /\ generateDomain 1 [3%nat] = Ok [].
Proof.
  split.
  - apply (proj1 (generateDomain_unfit 1 [2%nat] ltac:(repeat constructor))).
    reflexivity.
  - apply (proj2 (generateDomain_unfit 1 [3%nat] ltac:(repeat constructor))).
    + unfold int64_safe. vm_compute. reflexivity.
    + simpl. lia.
Defined.

(** ** Reductions only remove candidates *)

Lemma bind_Ok {A B : Type} (m : outcome A) (f : A -> outcome B) (b : B) :
  (let* x := m in f x) = Ok b -> exists a, m = Ok a /\ f a = Ok b.
Proof. destruct m; simpl; intros H; try discriminate. eauto. Qed.

Lemma getitem_Ok {A : Type} (l : list A) (i : nat) (a : A) :
  getitem l i = Ok a -> l !! i = Some a.
Proof. unfold getitem. destruct (l !! i); intros H; congruence. Qed.

Ltac inv_bind H :=
  let x := fresh "x" in
  let E := fresh "E" in
  apply bind_Ok in H; destruct H as (x & E & H).

Ltac inv_ok :=
  repeat match goal with
  | H : Ok _ = Ok _ |- _ => injection H as H; try subst
  | H : getitem _ _ = Ok _ |- _ => apply getitem_Ok in H
  end.

Lemma reduced_refl (d : list (list bool)) : reduced d d.
Proof. split; [reflexivity|auto]. Qed.

Lemma reduced_trans (d1 d2 d3 : list (list bool)) :
  reduced d1 d2 -> reduced d2 d3 -> reduced d1 d3.
Proof.
  intros [S1 F1] [S2 F2]. split.
  - etransitivity; eauto.
  - intros H. specialize (F2 H). subst d2. auto.
Qed.

Lemma reduced_length (d' d : list (list bool)) :
  reduced d' d -> (length d' <= length d)%nat.
Proof. intros [H _]. now apply sublist_length. Qed.

Lemma shrinks_refl (ds : list (list (list bool))) : shrinks ds ds.
Proof. unfold shrinks. induction ds; constructor; auto using reduced_refl. Qed.

Lemma shrinks_trans (ds1 ds2 ds3 : list (list (list bool))) :
  shrinks ds1 ds2 -> shrinks ds2 ds3 -> shrinks ds1 ds3.
Proof. unfold shrinks. apply Forall2_trans. exact reduced_trans. Qed.

Lemma shrinks_insert (ds : list (list (list bool))) (i : nat) (d d' : list (list bool)) :
  ds !! i = Some d -> reduced d' d -> shrinks (<[i := d']> ds) ds.
Proof.
  intros Hi Hr. rewrite <- (list_insert_id ds i d Hi) at 2.
  apply Forall2_insert; [apply shrinks_refl|exact Hr].
Qed.

Lemma shrinks_singleton (ds' ds : list (list (list bool))) (i : nat) (c : list bool) :
  shrinks ds' ds -> ds !! i = Some [c] -> ds' !! i = Some [c].
Proof.
  intros H Hi. destruct (Forall2_lookup_r _ _ _ _ _ H Hi) as (d' & Hd' & [_ F]).
  rewrite Hd'. f_equal. now apply F.
Qed.

Lemma reduceDomain_reduced (domain domain' : list (list bool)) (index : nat) (value : bool) :
  reduceDomain domain index value = Ok domain' -> reduced domain' domain.
Proof.
  unfold reduceDomain. destruct (Nat.eqb_spec (length domain) 1) as [E|E]; intros H.
  - inv_ok. apply reduced_refl.
  - split; [|intros; contradiction].
    revert H. apply (for_each_inv (fun s => sublist s domain)); [|reflexivity].
    intros s i s' _ Hs Hb. inv_bind Hb. inv_bind Hb.
    destruct (negb (eqb x0 value)); inv_ok; [|exact Hs].
    etransitivity; [apply sublist_delete|exact Hs].
Qed.

Lemma reduceNeighborDomains_shrinks (st : solver) (known_domain : list bool)
    (unknown_domains uds' : list (list (list bool))) (index : nat) :
  reduceNeighborDomains st known_domain unknown_domains index = Ok uds' ->
  shrinks uds' unknown_domains.
Proof.
  unfold reduceNeighborDomains.
  apply (for_each_inv (fun s => shrinks s unknown_domains)); [|apply shrinks_refl].
  intros s iv s' _ Hs Hb. destruct (snd iv); [inv_ok; exact Hs|].
  inv_bind Hb. inv_ok.
  destruct (Nat.ltb_spec 1 (length x)) as [Hlen|Hlen]; simpl in Hb;
    [|inv_ok; exact Hs].
  destruct (bool_decide _); simpl in Hb; [|inv_ok; exact Hs].
  inv_bind Hb. inv_ok.
  eapply shrinks_trans; [|exact Hs].
  eapply shrinks_insert; [exact E|].
  split; [|intros; lia].
  revert E0. apply (for_each_inv (fun s => sublist s x)); [|reflexivity].
  intros live jc live' _ Hl Hb. inv_bind Hb.
  destruct x1; inv_ok; [|exact Hl].
  etransitivity; [apply sublist_delete|exact Hl].
Qed.

(** ** One pass: what changes and what does not *)

Lemma evolves_refl (st : solver) : evolves st st.
Proof. unfold evolves. auto using shrinks_refl. Qed.

Lemma evolves_trans (st1 st2 st3 : solver) :
  evolves st1 st2 -> evolves st2 st3 -> evolves st1 st3.
Proof.
  intros (R1 & C1 & KR1 & KC1 & KI1) (R2 & C2 & KR2 & KC2 & KI2).
  unfold evolves. repeat split; try (eapply shrinks_trans; eassumption);
    set_solver.
Qed.

Lemma evolves_set_domains (b : side) (ds : list (list (list bool))) (st : solver) :
  shrinks ds (domains_of b st) -> evolves st (set_domains b ds st).
Proof.
  intros H. destruct b; unfold evolves; simpl in *;
    repeat split; auto using shrinks_refl.
Qed.

Lemma evolves_add_known (ka : side) (i : nat) (st : solver) :
  evolves st (add_known ka i st).
Proof.
  destruct ka; unfold evolves; simpl;
    repeat split; auto using shrinks_refl; set_solver.
Qed.

Lemma evolves_add_intersect (t : bool * nat * nat) (st : solver) :
  evolves st (add_intersect t st).
Proof.
  unfold evolves; simpl; repeat split; auto using shrinks_refl; set_solver.
Qed.

Lemma evolves_flip (st : solver) : evolves st (flip st).
Proof. unfold evolves; simpl; repeat split; auto using shrinks_refl. Qed.

Lemma frame_refl (ka b : side) (st : solver) : frame ka b st st.
Proof. unfold frame. auto. Qed.

Lemma frame_trans (ka b : side) (st1 st2 st3 : solver) :
  frame ka b st1 st2 -> frame ka b st2 st3 -> frame ka b st1 st3.
Proof.
  intros (F1 & D1 & K1) (F2 & D2 & K2). unfold frame. repeat split.
  - congruence.
  - intros s Hs. rewrite D2, D1; auto.
  - intros s Hs. rewrite K2, K1; auto.
Qed.

Lemma frame_set_domains (ka b : side) (ds : list (list (list bool))) (st : solver) :
  frame ka b st (set_domains b ds st).
Proof.
  unfold frame. destruct b; simpl; repeat split; auto;
    intros []; simpl; congruence.
Qed.

Lemma frame_add_known (ka b : side) (i : nat) (st : solver) :
  frame ka b st (add_known ka i st).
Proof.
  unfold frame. destruct ka; simpl; repeat split; auto;
    intros []; simpl; congruence.
Qed.

Lemma frame_add_intersect (ka b : side) (t : bool * nat * nat) (st : solver) :
  frame ka b st (add_intersect t st).
Proof. unfold frame. simpl. repeat split; auto; intros []; reflexivity. Qed.

Lemma propagate_intersect_pass (ka b : side) (st st' : solver) (i : nat)
    (intersect : nat * bool) :
  propagate_intersect b i st intersect = Ok st' ->
  evolves st st' /\ frame ka b st st'.
Proof.
  unfold propagate_intersect. intros H. inv_bind H. inv_bind H. inv_ok.
  apply reduceDomain_reduced in E0. split.
  - eapply evolves_trans; [|apply evolves_add_intersect].
    apply evolves_set_domains. eapply shrinks_insert; eassumption.
  - eapply frame_trans; [|apply frame_add_intersect].
    apply frame_set_domains.
Qed.

Lemma propagate_intersects_pass (ka b : side) (i : nat) (intersects : list (nat * bool))
    (st st' : solver) :
  for_each intersects (propagate_intersect b i) st = Ok st' ->
  evolves st st' /\ frame ka b st st'.
Proof.
  apply (for_each_inv (fun s => evolves st s /\ frame ka b st s));
    [|split; [apply evolves_refl|apply frame_refl]].
  intros s1 it s2 _ [He1 Hf1] Hstep.
  apply (propagate_intersect_pass ka b) in Hstep. destruct Hstep as [He2 Hf2].
  split; [eapply evolves_trans|eapply frame_trans]; eassumption.
Qed.

Lemma collapse_step (ka b : side) (st st' : solver) (i : nat) (domain : list (list bool)) :
  (if (length domain =? 1)%nat then
     let* known_domain := getitem domain 0 in
     let* ds := reduceNeighborDomains st known_domain (domains_of b st) i in
     Ok (add_known ka i (set_domains b ds st))
   else Ok st) = Ok st' ->
  evolves st st' /\ frame ka b st st'.
Proof.
  destruct (length domain =? 1)%nat; intros H.
  - inv_bind H. inv_bind H. inv_ok.
    apply reduceNeighborDomains_shrinks in E0. split.
    + eapply evolves_trans; [|apply evolves_add_known].
      now apply evolves_set_domains.
    + eapply frame_trans; [|apply frame_add_known].
      apply frame_set_domains.
  - inv_ok. split; [apply evolves_refl|apply frame_refl].
Qed.

Lemma reduce_line_pass (a ka b : side) (st st' : solver) (i : nat) :
  reduce_line a ka b st i = Ok st' -> evolves st st' /\ frame ka b st st'.
Proof.
  unfold reduce_line. intros Hb.
  destruct (bool_decide (i ∈ known_of ka st));
    [inv_ok; split; [apply evolves_refl|apply frame_refl]|].
  inv_bind Hb. inv_bind Hb. inv_bind Hb. inv_bind Hb.
  apply (collapse_step ka b) in E0. destruct E0 as [He0 Hf0].
  apply (propagate_intersects_pass ka b) in Hb. destruct Hb as [He1 Hf1].
  split; [eapply evolves_trans|eapply frame_trans]; eassumption.
Qed.

Lemma reduceDomains_pass (a ka b : side) (st st' : solver) :
  reduceDomains a ka b st = Ok st' -> evolves st st' /\ frame ka b st st'.
Proof.
  unfold reduceDomains.
  apply (for_each_inv (fun s => evolves st s /\ frame ka b st s));
    [|split; [apply evolves_refl|apply frame_refl]].
  intros s i s' _ [He Hf] Hb.
  apply reduce_line_pass in Hb. destruct Hb as [He1 Hf1].
  split; [eapply evolves_trans|eapply frame_trans]; eassumption.
Qed.

(** ** Forced cells *)

Lemma scan_spec (i : nat) (cands : list (list bool)) :
  Forall (fun c => (i < length c)%nat) cands ->
  forall all_true all_false,
    scan cands i all_true all_false
    = Ok (all_true && agree_on i true cands, all_false && agree_on i false cands).
Proof.
  unfold agree_on.
  induction 1 as [|j cands Hj _ IH]; intros all_true all_false; simpl.
  - now rewrite !andb_true_r.
  - destruct all_true, all_false; simpl; try reflexivity.
    all: destruct (lookup_lt_is_Some_2 j i Hj) as [x Hx];
      unfold getitem; rewrite Hx; simpl bind;
      destruct x; simpl; rewrite IH; simpl; reflexivity.
Qed.

Lemma agree_on_Forall (i : nat) (v : bool) (cands : list (list bool)) :
  agree_on i v cands = true <-> Forall (fun c => c !! i = Some v) cands.
Proof.
  unfold agree_on. induction cands as [|c cands IH]; simpl.
  - split; auto.
  - rewrite andb_true_iff, bool_decide_eq_true, IH. split.
    + intros [H1 H2]. constructor; auto.
    + intros H. inversion H; subst. auto.
Qed.

Lemma agree_on_exclusive (i : nat) (c : list bool) (cands : list (list bool)) :
  agree_on i true (c :: cands) = true -> agree_on i false (c :: cands) = true -> False.
Proof.
  unfold agree_on. simpl. rewrite !andb_true_iff, !bool_decide_eq_true.
  intros [H1 _] [H2 _]. congruence.
Qed.

Lemma getDomainIntersects_forced_at (st : solver) (domain : list (list bool))
    (index n : nat) :
  domain <> [] ->
  Forall (fun c => length c = n) domain ->
  getDomainIntersects st domain index
  = Ok (flat_map (forced_at st domain index) (seq 0 n)).
Proof.
  intros Hne Hall. destruct domain as [|first rest]; [congruence|].
  unfold getDomainIntersects.
  change (getitem (first :: rest) 0) with (Ok first). cbn [bind].
  assert (Hfirst : length first = n) by (inversion Hall; auto). rewrite Hfirst.
  rewrite (for_each_append _ _ (forced_at st (first :: rest) index));
    [reflexivity|].
  intros i d Hi. apply in_seq in Hi. unfold forced_at.
  destruct (bool_decide _); [|now rewrite app_nil_r].
  rewrite scan_spec.
  - cbn [bind fst snd andb].
    destruct (agree_on i true (first :: rest)), (agree_on i false (first :: rest));
      cbn [app]; rewrite <- ?app_assoc, ?app_nil_r; reflexivity.
  - eapply Forall_impl; [exact Hall|]. simpl. intros c Hc. lia.
Qed.

Lemma forced_at_In (st : solver) (domain : list (list bool)) (index i p : nat) (v : bool) :
  In (p, v) (forced_at st domain index i) <->
  (i = p /\ ((is_searching_rows st, index, p) ∉ known_intersects st)
   /\ Forall (fun c => c !! p = Some v) domain).
Proof.
  unfold forced_at. rewrite <- agree_on_Forall. split.
  - intros Hin.
    destruct (bool_decide_reflect
                ((is_searching_rows st, index, i) ∉ known_intersects st))
      as [Hk|Hk]; [|destruct Hin].
    apply in_app_or in Hin. destruct Hin as [Hin|Hin].
    + destruct (agree_on i true domain) eqn:Et; [|destruct Hin].
      destruct Hin as [Hin|[]]. injection Hin as <- <-. auto.
    + destruct (agree_on i false domain) eqn:Ef; [|destruct Hin].
      destruct Hin as [Hin|[]]. injection Hin as <- <-. auto.
  - intros (<- & Hk & Hv). rewrite (bool_decide_eq_true_2 _ Hk).
    apply in_or_app. destruct v; [left|right]; rewrite Hv; now left.
Qed.

Lemma forced_at_positions (st : solver) (domain : list (list bool)) (index i : nat) :
  domain <> [] ->
  map fst (forced_at st domain index i) = []
  \/ map fst (forced_at st domain index i) = [i].
Proof.
  intros Hne. destruct domain as [|c cands]; [congruence|].
  unfold forced_at. destruct (bool_decide _); [|now left].
  destruct (agree_on i true (c :: cands)) eqn:Et,
           (agree_on i false (c :: cands)) eqn:Ef; simpl; auto.
  destruct (agree_on_exclusive i c cands Et Ef).
Qed.

Lemma NoDup_positions {A : Type} (F : nat -> list (nat * A)) (xs : list nat) :
  (forall x, map fst (F x) = [] \/ map fst (F x) = [x]) ->
  List.NoDup xs -> List.NoDup (map fst (flat_map F xs)).
Proof.
  intros HF. induction 1 as [|x xs Hx Hnd IH]; simpl; [constructor|].
  rewrite map_app. destruct (HF x) as [->| ->]; simpl; [exact IH|].
  constructor; [|exact IH].
  intros Hin. apply Hx. clear - Hin HF.
  induction xs as [|y xs IH]; simpl in *; [contradiction|].
  rewrite map_app in Hin. apply in_app_or in Hin. destruct Hin as [Hin|Hin]; auto.
  destruct (HF y) as [E|E]; rewrite E in Hin; simpl in Hin;
    [contradiction|]. destruct Hin as [->|[]]. now left.
Qed.

(** C7. For a non-empty domain whose candidates all have [n] cells,
    [getDomainIntersects(domain, index)] returns a list that holds the pair
    [(p, v)] exactly when [p] is a cell position, the triple
    [(is_searching_rows, index, p)] is not in [known_intersects], and every
    candidate has the value [v] at [p]; no position occurs in two records.
    The call has no effect on the domain or the solver: the embedding reads
    them and returns the list only, as the source assigns nothing. *)
Theorem getDomainIntersects_forced (st : solver) (domain : list (list bool))
    (index n : nat) :
  domain <> [] ->
  Forall (fun c => length c = n) domain ->
  exists intersects,
    getDomainIntersects st domain index = Ok intersects
    /\ (forall p v,
          In (p, v) intersects <->
          ((p < n)%nat
           /\ ((is_searching_rows st, index, p) ∉ known_intersects st)
           /\ Forall (fun c => c !! p = Some v) domain))
    /\ List.NoDup (map fst intersects).
Proof.
  intros Hne Hall. eexists.
  split; [exact (getDomainIntersects_forced_at st domain index n Hne Hall)|].
  split.
  - intros p v. rewrite in_flat_map. split.
    + intros (i & Hi & Hin). apply in_seq in Hi. apply forced_at_In in Hin.
      destruct Hin as (-> & Hk & Hv). repeat split; auto. lia.
    + intros (Hp & Hk & Hv). exists p. split; [apply in_seq; lia|].
      apply forced_at_In. auto.
  - apply NoDup_positions; [|apply seq_NoDup].
    intros i. now apply forced_at_positions.
Qed.

Lemma getDomainIntersects_forced_witness :
  exists intersects,
    getDomainIntersects (Solver [] [] ∅ ∅ ∅ true)
      [[true; false; true]; [true; true; false]] 0 = Ok intersects
    /\ (forall p v,
          In (p, v) intersects <->
          ((p < 3)%nat
           /\ ((is_searching_rows (Solver [] [] ∅ ∅ ∅ true), 0%nat, p)
                 ∉ known_intersects (Solver [] [] ∅ ∅ ∅ true))
           /\ Forall (fun c => c !! p = Some v)
                [[true; false; true]; [true; true; false]]))
    /\ List.NoDup (map fst intersects).
Proof.
  apply (getDomainIntersects_forced (Solver [] [] ∅ ∅ ∅ true)
           [[true; false; true]; [true; true; false]] 0 3).
  - discriminate.
  - repeat constructor.
Defined.

(** ** reduceDomain is a filter *)

(** The backward loop of [reduceDomain] over a prefix [pre] of the domain:
    the candidates behind it, [suf], are the ones already kept. *)
Lemma reduceDomain_loop (index : nat) (value : bool) (pre : list (list bool)) :
  forall suf : list (list bool),
    Forall (fun c => (index < length c)%nat) pre ->
    for_each (rev (seq 0 (length pre)))
      (fun (domain : list (list bool)) (i : nat) =>
         let* c := getitem domain i in
         let* x := getitem c index in
         if negb (eqb x value) then Ok (delete i domain) else Ok domain)
      (pre ++ suf)
    = Ok (filter (fun c => c !! index = Some value) pre ++ suf).
Proof.
  induction pre as [|c pre IH] using rev_ind; intros suf Hall; [reflexivity|].
  apply Forall_app in Hall. destruct Hall as [Hpre Hc].
  inversion Hc as [|c' l' Hlen _]; subst c' l'.
  rewrite length_app, Nat.add_1_r, seq_S, rev_app_distr. cbn [rev app for_each].
  rewrite <- app_assoc. cbn [app]. rewrite Nat.add_0_l.
  unfold getitem at 1. rewrite list_lookup_middle by reflexivity. cbn [bind].
  destruct (lookup_lt_is_Some_2 c index Hlen) as [x Hx].
  unfold getitem at 1. rewrite Hx. cbn [bind].
  rewrite filter_app.
  destruct (Bool.eqb_spec x value) as [->|Hne]; cbn [negb bind].
  - rewrite IH by exact Hpre.
    rewrite (filter_cons_True _ c []) by exact Hx.
    now rewrite <- app_assoc.
  - rewrite delete_middle, IH by exact Hpre.
    rewrite (filter_cons_False _ c []) by congruence.
    now rewrite app_nil_r.
Qed.

Lemma reduceDomain_filter (domain : list (list bool)) (index : nat) (value : bool) :
  Forall (fun c => (index < length c)%nat) domain ->
  reduceDomain domain index value
  = Ok (if (length domain =? 1)%nat then domain
        else filter (fun c => c !! index = Some value) domain).
Proof.
  intros Hall. unfold reduceDomain.
  destruct (length domain =? 1)%nat; [reflexivity|].
  pose proof (reduceDomain_loop index value domain [] Hall) as H.
  now rewrite !app_nil_r in H.
Qed.

(** C6. For a domain whose candidates all have a cell at [index]:
    [reduceDomain(domain, index, value)] leaves a domain of exactly one
    candidate unchanged; otherwise it leaves the candidates whose value at
    [index] is [value], in their original order; and a second call with
    the same arguments changes nothing. *)
Theorem reduceDomain_keeps_matching (domain : list (list bool)) (index : nat)
    (value : bool) :
  Forall (fun c => (index < length c)%nat) domain ->
  exists domain',
    reduceDomain domain index value = Ok domain'
    /\ (length domain = 1%nat -> domain' = domain)
    /\ (length domain <> 1%nat ->
        domain' = filter (fun c => c !! index = Some value) domain)
    /\ reduceDomain domain' index value = Ok domain'.
Proof.
  intros Hall. rewrite reduceDomain_filter by exact Hall.
  destruct (Nat.eqb_spec (length domain) 1) as [E|E].
  - exists domain. repeat split; try congruence.
    rewrite reduceDomain_filter by exact Hall.
    now rewrite (proj2 (Nat.eqb_eq _ _) E).
  - eexists. repeat split; try congruence.
    rewrite reduceDomain_filter.
    + destruct (_ =? 1)%nat; [reflexivity|].
      f_equal. rewrite list_filter_filter. apply list_filter_iff. tauto.
    + apply Forall_forall. intros c Hc. apply list_elem_of_filter in Hc.
      destruct Hc as [_ Hc]. rewrite Forall_forall in Hall. auto.
Qed.

Lemma reduceDomain_keeps_matching_witness :
  exists domain',
    reduceDomain [[true; false]; [false; true]; [true; true]] 0 true = Ok domain'
    /\ (length [[true; false]; [false; true]; [true; true]] = 1%nat ->
        domain' = [[true; false]; [false; true]; [true; true]])
    /\ (length [[true; false]; [false; true]; [true; true]] <> 1%nat ->
        domain' = filter (fun c => c !! 0%nat = Some true)
                    [[true; false]; [false; true]; [true; true]])
    /\ reduceDomain domain' 0 true = Ok domain'.
Proof.
  apply (reduceDomain_keeps_matching
           [[true; false]; [false; true]; [true; true]] 0 true).
  repeat constructor.
Defined.

(** ** The loop of [solve] *)

Lemma solve_round_evolves (size : nat) (st st' : solver) :
  solve_round size st = Ok st' -> evolves st st'.
Proof.
  unfold solve_round. intros H. inv_bind H.
  apply reduceDomains_pass in E. destruct E as [E _].
  eapply evolves_trans; [exact E|].
  eapply evolves_trans; [apply evolves_flip|].
  destruct (negb _); [|inv_ok; apply evolves_refl].
  inv_bind H. inv_ok.
  apply reduceDomains_pass in E0. destruct E0 as [E0 _].
  eapply evolves_trans; [exact E0|apply evolves_flip].
Qed.

Lemma solve_loop_evolves (size fuel : nat) : forall st st',
  solve_loop size fuel st = Ok st' -> evolves st st'.
Proof.
  induction fuel as [|fuel IH]; intros st st' H; simpl in H; [discriminate|].
  destruct (searching size st); [|inv_ok; apply evolves_refl].
  inv_bind H. apply solve_round_evolves in E.
  eapply evolves_trans; [exact E|]. now apply IH.
Qed.

Lemma shrinks_only_removed (ds' ds : list (list (list bool))) :
  shrinks ds' ds -> only_removed ds' ds.
Proof.
  unfold shrinks, only_removed. intros H.
  eapply Forall2_impl; [exact H|].
  intros d' d [Hs _]. split; [exact Hs|now apply sublist_length].
Qed.

Lemma evolves_only_removed (st st' : solver) :
  evolves st st' ->
  only_removed (row_domains st') (row_domains st)
  /\ only_removed (col_domains st') (col_domains st).
Proof. intros (R & C & _). split; now apply shrinks_only_removed. Qed.

(** C8. Every operation of the propagation phase only removes candidates:
    after [reduceDomain] the domain is a sublist of what it was; after
    [reduceNeighborDomains], [reduceDomains], an iteration of the loop of
    [solve] and the whole loop, the domain lists have the same lines as
    before and every domain is a sublist of what it was, so that no
    [len(domain[i])] grows. *)
Theorem domains_only_shrink :
  (forall domain index value domain',
      reduceDomain domain index value = Ok domain' ->
      sublist domain' domain /\ (length domain' <= length domain)%nat)
  /\ (forall st known_domain unknown_domains index unknown_domains',
         reduceNeighborDomains st known_domain unknown_domains index
         = Ok unknown_domains' ->
         only_removed unknown_domains' unknown_domains)
  /\ (forall a ka b st st',
         reduceDomains a ka b st = Ok st' ->
         only_removed (row_domains st') (row_domains st)
         /\ only_removed (col_domains st') (col_domains st))
  /\ (forall size st st',
         solve_round size st = Ok st' ->
         only_removed (row_domains st') (row_domains st)
         /\ only_removed (col_domains st') (col_domains st))
  /\ (forall size fuel st st',
         solve_loop size fuel st = Ok st' ->
         only_removed (row_domains st') (row_domains st)
         /\ only_removed (col_domains st') (col_domains st)).
Proof.
  repeat split.
  - apply reduceDomain_reduced in H. apply H.
  - apply reduceDomain_reduced in H. now apply reduced_length.
  - intros. apply shrinks_only_removed.
    eapply reduceNeighborDomains_shrinks; eassumption.
  - apply reduceDomains_pass in H. now apply evolves_only_removed.
  - apply reduceDomains_pass in H. now apply evolves_only_removed.
  - apply solve_round_evolves in H. now apply evolves_only_removed.
  - apply solve_round_evolves in H. now apply evolves_only_removed.
  - apply solve_loop_evolves in H. now apply evolves_only_removed.
  - apply solve_loop_evolves in H. now apply evolves_only_removed.
Qed.

(** C10. A pass [reduceDomains(domains_a, known_domains_a, domains_b)] over
    two distinct domain lists leaves [domains_a] as it was; in [domains_b]
    candidates are only removed; [known_domains_a] and [known_intersects]
    only gain elements; the other known-set and the orientation flag are
    unchanged. Over the whole loop of [solve] no known-set entry and no
    recorded triple is ever removed. *)
Theorem reduceDomains_frame (a ka b : side) (st st' : solver) :
  a <> b ->
  reduceDomains a ka b st = Ok st' ->
  domains_of a st' = domains_of a st
  /\ only_removed (domains_of b st') (domains_of b st)
  /\ known_of ka st ⊆ known_of ka st'
  /\ (forall s, s <> ka -> known_of s st' = known_of s st)
  /\ known_intersects st ⊆ known_intersects st'
  /\ is_searching_rows st' = is_searching_rows st
  /\ (forall size fuel st0 st1,
         solve_loop size fuel st0 = Ok st1 ->
         known_rows st0 ⊆ known_rows st1
         /\ known_cols st0 ⊆ known_cols st1
         /\ known_intersects st0 ⊆ known_intersects st1).
Proof.
  intros Hab H. apply reduceDomains_pass in H.
  destruct H as [(R & C & KR & KC & KI) (F & D & K)].
  repeat split; auto.
  - destruct b; now apply shrinks_only_removed.
  - destruct ka; assumption.
  - apply solve_loop_evolves in H. apply H.
  - apply solve_loop_evolves in H. apply H.
  - apply solve_loop_evolves in H. apply H.
Qed.

Lemma searching_spec (size : nat) (st : solver) :
  searching size st = true <->
  set_len (known_rows st) <> size /\ set_len (known_cols st) <> size.
Proof.
  unfold searching.
  rewrite andb_true_iff, !negb_true_iff, !Nat.eqb_neq. reflexivity.
Qed.

Lemma solve_loop_stopped (size fuel : nat) : forall st st',
  solve_loop size fuel st = Ok st' ->
  set_len (known_rows st') = size \/ set_len (known_cols st') = size.
Proof.
  induction fuel as [|fuel IH]; intros st st' H; simpl in H; [discriminate|].
  destruct (searching size st) eqn:E.
  - inv_bind H. eauto.
  - inv_ok. destruct (Nat.eq_dec (set_len (known_rows st')) size) as [|N1];
      [now left|right].
    destruct (Nat.eq_dec (set_len (known_cols st')) size) as [|N2];
      [assumption|].
    assert (searching size st' = true) by (apply searching_spec; auto).
    congruence.
Qed.

(** C4. The loop of [solve] runs another iteration exactly while neither
    [known_rows] nor [known_cols] has [size] elements, and returns the
    solver as it is as soon as one of them has; whenever the loop returns,
    one of the two known-sets has [size] elements. Inside an iteration the
    pass from columns to rows is skipped when the pass from rows to columns
    leaves [size] known rows, and runs otherwise. The other orientation
    need not be known when [solve] returns: on the puzzle of one filled
    cell it returns with one known row and no known column. *)
Theorem solve_loop_stop (size : nat) :
  (forall st,
      searching size st = true <->
      set_len (known_rows st) <> size /\ set_len (known_cols st) <> size)
  /\ (forall fuel st,
         searching size st = false -> solve_loop size (S fuel) st = Ok st)
  /\ (forall fuel st,
         searching size st = true ->
         solve_loop size (S fuel) st
         = let* st' := solve_round size st in solve_loop size fuel st')
  /\ (forall fuel st st',
         solve_loop size fuel st = Ok st' ->
         set_len (known_rows st') = size \/ set_len (known_cols st') = size)
  /\ (forall st st1,
         reduceDomains Rows Rows Cols st = Ok st1 ->
         set_len (known_rows st1) = size ->
         solve_round size st = Ok (flip st1))
  /\ (forall st st1,
         reduceDomains Rows Rows Cols st = Ok st1 ->
         set_len (known_rows st1) <> size ->
         solve_round size st
         = let* st2 := reduceDomains Cols Cols Rows (flip st1) in Ok (flip st2))
  /\ (solve 1 2 [[1%nat]] [[1%nat]] = Ok single_cell
      /\ set_len (known_rows single_cell) = 1%nat
      /\ set_len (known_cols single_cell) = 0%nat).
Proof.
  split; [apply searching_spec|].
  split; [|split; [|split; [|split; [|split]]]].
  - intros fuel st H. simpl. now rewrite H.
  - intros fuel st H. simpl. now rewrite H.
  - apply solve_loop_stopped.
  - intros st st1 H Hk. unfold solve_round. rewrite H. cbn [bind].
    change (known_rows (flip st1)) with (known_rows st1).
    now rewrite (proj2 (Nat.eqb_eq _ _) Hk).
  - intros st st1 H Hk. unfold solve_round. rewrite H. cbn [bind].
    change (known_rows (flip st1)) with (known_rows st1).
    now rewrite (proj2 (Nat.eqb_neq _ _) Hk).
  - repeat split; vm_compute; reflexivity.
Qed.

Lemma solve_loop_stop_witness :
  solve_loop 1 1 single_cell = Ok single_cell.
Proof.
  apply (proj1 (proj2 (solve_loop_stop 1)) 0%nat single_cell).
  vm_compute. reflexivity.
Defined.

(** ** A round without news *)

Lemma sandwich `{Countable A} (X Y Z : gset A) :
  X ⊆ Y -> Y ⊆ Z -> Z = X -> Y = X.
Proof. set_solver. Qed.

Lemma evolves_known_of (ka : side) (st st' : solver) :
  evolves st st' -> known_of ka st ⊆ known_of ka st'.
Proof. intros (_ & _ & KR & KC & _). destruct ka; assumption. Qed.

Lemma evolves_known_intersects (st st' : solver) :
  evolves st st' -> known_intersects st ⊆ known_intersects st'.
Proof. intros (_ & _ & _ & _ & KI). exact KI. Qed.

(** The records returned by [getDomainIntersects] are not yet in
    [known_intersects]. *)
Lemma getDomainIntersects_fresh (st : solver) (domain : list (list bool))
    (index : nat) (intersects : list (nat * bool)) :
  getDomainIntersects st domain index = Ok intersects ->
  forall it, In it intersects ->
             (is_searching_rows st, index, fst it) ∉ known_intersects st.
Proof.
  unfold getDomainIntersects. intros H. inv_bind H. revert H.
  apply (for_each_inv
           (fun l => forall it, In it l ->
                       (is_searching_rows st, index, fst it) ∉ known_intersects st));
    [|intros it []].
  intros l i l' _ Hl Hb.
  destruct (bool_decide_reflect
              ((is_searching_rows st, index, i) ∉ known_intersects st)) as [Hk|Hk];
    [|inv_ok; exact Hl].
  inv_bind Hb. inv_ok. intros it Hin.
  destruct (fst x0), (snd x0); repeat (apply in_app_or in Hin; destruct Hin as [Hin|Hin]);
    auto; destruct Hin as [<-|[]]; exact Hk.
Qed.

Lemma reduce_line_no_news (a ka b : side) (st st' : solver) (i : nat) :
  reduce_line a ka b st i = Ok st' ->
  known_of ka st' = known_of ka st ->
  known_intersects st' = known_intersects st ->
  st' = st.
Proof.
  unfold reduce_line. intros Hb HK HI.
  destruct (bool_decide_reflect (i ∈ known_of ka st)) as [Hin|Hin];
    [now inv_ok|].
  inv_bind Hb. inv_bind Hb. inv_bind Hb. inv_bind Hb.
  pose proof (propagate_intersects_pass ka b _ _ _ _ Hb) as [He1 _].
  assert (x0 = st) as ->.
  { destruct (length x =? 1)%nat; [|now inv_ok].
    inv_bind E0. inv_bind E0. inv_ok.
    apply (evolves_known_of ka) in He1. rewrite HK in He1.
    exfalso. apply Hin. apply He1.
    destruct ka; simpl; apply elem_of_union; left; now apply elem_of_singleton. }
  destruct x2 as [|it rest]; [simpl in Hb; now inv_ok|].
  exfalso.
  apply (getDomainIntersects_fresh _ _ _ _ E2 it); [now left|].
  simpl in Hb. inv_bind Hb.
  pose proof (propagate_intersects_pass ka b _ _ _ _ Hb) as [He2 _].
  apply evolves_known_intersects in He2. rewrite HI in He2. apply He2.
  unfold propagate_intersect in E3. inv_bind E3. inv_bind E3. inv_ok.
  simpl. apply elem_of_union. left. now apply elem_of_singleton.
Qed.

Lemma reduceDomains_no_news (a ka b : side) (st st' : solver) :
  reduceDomains a ka b st = Ok st' ->
  known_of ka st' = known_of ka st ->
  known_intersects st' = known_intersects st ->
  st' = st.
Proof.
  unfold reduceDomains. intros H.
  assert (G : evolves st st'
              /\ (known_of ka st' = known_of ka st ->
                  known_intersects st' = known_intersects st -> st' = st));
    [|tauto].
  revert H.
  apply (for_each_inv
           (fun s => evolves st s
                     /\ (known_of ka s = known_of ka st ->
                         known_intersects s = known_intersects st -> s = st)));
    [|split; [apply evolves_refl|auto]].
  intros s i s' _ [He Hs] Hb.
  pose proof (reduce_line_pass _ _ _ _ _ _ Hb) as [He1 _].
  split; [eapply evolves_trans; eassumption|]. intros HK HI.
  pose proof (evolves_known_of ka _ _ He) as K1.
  pose proof (evolves_known_of ka _ _ He1) as K2.
  pose proof (evolves_known_intersects _ _ He) as I1.
  pose proof (evolves_known_intersects _ _ He1) as I2.
  assert (s = st) as -> by (apply Hs; eapply sandwich; eassumption).
  eapply reduce_line_no_news; eassumption.
Qed.

Lemma flip_flip (st : solver) : flip (flip st) = st.
Proof. destruct st. unfold flip. simpl. now rewrite negb_involutive. Qed.

Lemma solve_round_no_news (size : nat) (st st' : solver) :
  searching size st = true ->
  solve_round size st = Ok st' ->
  known_rows st' = known_rows st ->
  known_cols st' = known_cols st ->
  known_intersects st' = known_intersects st ->
  st' = st.
Proof.
  unfold searching, solve_round. intros Hs H HR HC HI.
  apply andb_true_iff in Hs. destruct Hs as [Hs _].
  inv_bind H.
  pose proof (reduceDomains_pass _ _ _ _ _ E) as [He (_ & _ & Hf)].
  specialize (Hf Cols ltac:(discriminate)). simpl in Hf.
  assert (He' : evolves (flip x) st').
  { destruct (negb (set_len (known_rows (flip x)) =? size)%nat);
      [|inv_ok; apply evolves_refl].
    inv_bind H. inv_ok. apply reduceDomains_pass in E0. destruct E0 as [E0 _].
    eapply evolves_trans; [exact E0|apply evolves_flip]. }
  pose proof (evolves_known_of Rows _ _ He) as K1.
  pose proof (evolves_known_of Rows _ _ He') as K2.
  pose proof (evolves_known_intersects _ _ He) as I1.
  pose proof (evolves_known_intersects _ _ He') as I2.
  simpl in K1, K2, I1, I2.
  assert (x = st) as ->.
  { eapply reduceDomains_no_news; [exact E| |]; simpl;
      eapply sandwich; eassumption. }
  change (known_rows (flip st)) with (known_rows st) in H. rewrite Hs in H.
  inv_bind H. inv_ok.
  assert (x = flip st) as ->.
  { eapply reduceDomains_no_news; [exact E0| |]; simpl; assumption. }
  apply flip_flip.
Qed.

(** C5, as the code has it. There is no check for lack of progress in
    [solve]: when an iteration of the loop adds no known row, no known
    column and no triple to [known_intersects] while neither known-set has
    [size] elements, it leaves the solver exactly as it was, and the loop
    neither returns nor raises, however many iterations it is given. *)
Theorem solve_loop_stalls (size : nat) (st st' : solver) :
  searching size st = true ->
  solve_round size st = Ok st' ->
  known_rows st' = known_rows st ->
  known_cols st' = known_cols st ->
  known_intersects st' = known_intersects st ->
  st' = st /\ forall fuel, solve_loop size fuel st = OutOfFuel.
Proof.
  intros Hs H HR HC HI.
  assert (st' = st) as -> by (eapply solve_round_no_news; eassumption).
  split; [reflexivity|].
  induction fuel as [|fuel IH]; simpl; [reflexivity|].
  now rewrite Hs, H.
Qed.

Lemma solve_loop_stalls_witness :
  ambiguous = ambiguous /\ forall fuel, solve_loop 2 fuel ambiguous = OutOfFuel.
Proof.
  apply (solve_loop_stalls 2 ambiguous ambiguous); vm_compute; reflexivity.
Defined.

(** C5, counterexample. On the puzzle with rows [[1], [1]] and columns
    [[1], [1]] neither orientation is known, an iteration of the loop
    changes nothing, yet [solve] does not fail: it is still running after
    any number of iterations. *)
Lemma solve_no_progress_check :
  searching 2 ambiguous = true
  /\ solve_round 2 ambiguous = Ok ambiguous
  /\ forall fuel, solve 2 fuel [[1]; [1]]%nat [[1]; [1]]%nat = OutOfFuel.
Proof.
  split; [vm_compute; reflexivity|]. split; [vm_compute; reflexivity|].
  intros fuel.
  change (solve 2 fuel [[1]; [1]]%nat [[1]; [1]]%nat)
    with (solve_loop 2 fuel ambiguous).
  induction fuel as [|fuel IH]; [reflexivity|].
  cbn [solve_loop].
  replace (searching 2 ambiguous) with true by (vm_compute; reflexivity).
  replace (solve_round 2 ambiguous) with (Ok ambiguous) by (vm_compute; reflexivity).
  exact IH.
Qed.

(** ** Known lines are collapsed lines *)

Lemma evolves_domains_of (s : side) (st st' : solver) :
  evolves st st' -> shrinks (domains_of s st') (domains_of s st).
Proof. intros (R & C & _). destruct s; assumption. Qed.

Lemma collapsed_evolves (s : side) (st st' : solver) :
  evolves st st' -> known_of s st' = known_of s st ->
  collapsed s st -> collapsed s st'.
Proof.
  intros He HK Hc i Hi. rewrite HK in Hi. destruct (Hc i Hi) as [c Hl].
  exists c. eapply shrinks_singleton; [|exact Hl].
  now apply evolves_domains_of.
Qed.

Lemma collapsed_flip (s : side) (st : solver) : collapsed s st -> collapsed s (flip st).
Proof. unfold collapsed. destruct s; simpl; auto. Qed.

Lemma length_1_singleton {A : Type} (l : list A) :
  length l = 1%nat -> exists x, l = [x].
Proof. destruct l as [|x [|y l]]; simpl; intros H; try discriminate. eauto. Qed.

Lemma reduce_line_known (a b : side) (st st' : solver) (i : nat) :
  a <> b ->
  reduce_line a a b st i = Ok st' ->
  forall j, j ∈ known_of a st' ->
            j ∈ known_of a st \/ exists c, domains_of a st !! j = Some [c].
Proof.
  unfold reduce_line. intros Hab Hb j Hj.
  destruct (bool_decide (i ∈ known_of a st)); [inv_ok; now left|].
  inv_bind Hb. inv_bind Hb. inv_bind Hb. inv_bind Hb.
  pose proof (propagate_intersects_pass b b _ _ _ _ Hb) as [_ (_ & _ & Hk)].
  rewrite (Hk a Hab) in Hj. clear Hk Hb.
  destruct (Nat.eqb_spec (length x) 1) as [Hlen|Hlen]; [|inv_ok; now left].
  inv_bind E0. inv_bind E0. inv_ok.
  assert (Hj' : j = i \/ j ∈ known_of a st).
  { destruct a, b; simpl in *; try congruence; set_solver. }
  destruct Hj' as [->|Hj']; [right|now left].
  destruct (length_1_singleton x Hlen) as [c ->]. eauto.
Qed.

Lemma reduce_line_collapsed (a b : side) (st st' : solver) (i : nat) :
  a <> b ->
  reduce_line a a b st i = Ok st' ->
  collapsed a st /\ collapsed b st ->
  collapsed a st' /\ collapsed b st'.
Proof.
  intros Hab Hb [Ha Hbb].
  pose proof (reduce_line_pass _ _ _ _ _ _ Hb) as [He (_ & Hd & Hk)].
  split.
  - intros j Hj. rewrite (Hd a Hab).
    destruct (reduce_line_known a b st st' i Hab Hb j Hj) as [H|H]; auto.
  - eapply collapsed_evolves; [exact He| |exact Hbb].
    apply Hk. congruence.
Qed.

Lemma reduceDomains_collapsed (a b : side) (st st' : solver) :
  a <> b ->
  reduceDomains a a b st = Ok st' ->
  collapsed a st /\ collapsed b st ->
  collapsed a st' /\ collapsed b st'.
Proof.
  unfold reduceDomains. intros Hab H Hc. revert H.
  apply (for_each_inv (fun s => collapsed a s /\ collapsed b s)); [|exact Hc].
  intros s i s' _ Hs Hb. eapply reduce_line_collapsed; eassumption.
Qed.

Lemma solve_round_collapsed (size : nat) (st st' : solver) :
  solve_round size st = Ok st' ->
  collapsed Rows st /\ collapsed Cols st ->
  collapsed Rows st' /\ collapsed Cols st'.
Proof.
  unfold solve_round. intros H Hc. inv_bind H.
  apply reduceDomains_collapsed in E; [|discriminate|exact Hc].
  destruct E as [C1 C2].
  destruct (negb (set_len (known_rows (flip x)) =? size)%nat).
  - inv_bind H. inv_ok.
    apply reduceDomains_collapsed in E;
      [|discriminate|split; now apply collapsed_flip].
    destruct E as [C3 C4]. split; now apply collapsed_flip.
  - inv_ok. split; now apply collapsed_flip.
Qed.

Lemma solve_loop_collapsed (size fuel : nat) : forall st st',
  solve_loop size fuel st = Ok st' ->
  collapsed Rows st /\ collapsed Cols st ->
  collapsed Rows st' /\ collapsed Cols st'.
Proof.
  induction fuel as [|fuel IH]; intros st st' H Hc; simpl in H; [discriminate|].
  destruct (searching size st); [|now inv_ok].
  inv_bind H. eapply IH; [exact H|].
  eapply solve_round_collapsed; eassumption.
Qed.

Lemma generate_all_length (size : nat) (specs : list (list nat)) :
  forall ds ds', generate_all size specs ds = Ok ds' ->
                 length ds' = (length ds + length specs)%nat.
Proof.
  unfold generate_all.
  induction specs as [|nums specs IH]; intros ds ds' H; simpl in H.
  - inv_ok. simpl. lia.
  - inv_bind H. inv_bind E. inv_ok. apply IH in H.
    rewrite H, length_app. simpl. lia.
Qed.

(** When [size] lines of an orientation are known, all its lines are. *)
Lemma all_known (a : side) (size : nat) (st : solver) :
  collapsed a st ->
  length (domains_of a st) = size ->
  set_len (known_of a st) = size ->
  forall i, (i < size)%nat -> i ∈ known_of a st.
Proof.
  intros Hc Hlen Hsize i Hi.
  assert (Hsub : known_of a st ⊆ set_seq 0 size).
  { intros j Hj. destruct (Hc j Hj) as [c Hl].
    apply lookup_lt_Some in Hl. apply elem_of_set_seq. lia. }
  assert (Heq : known_of a st = set_seq 0 size).
  { apply set_subseteq_size_eq; [exact Hsub|].
    rewrite size_set_seq. unfold set_len in Hsize. lia. }
  rewrite Heq. apply elem_of_set_seq. lia.
Qed.

Lemma known_lines_skipped (a b : side) (st : solver) (xs : list nat) :
  (forall i, In i xs -> i ∈ known_of a st) ->
  for_each xs (reduce_line a a b) st = Ok st.
Proof.
  induction xs as [|i xs IH]; intros H; simpl; [reflexivity|].
  unfold reduce_line at 1.
  rewrite bool_decide_eq_true_2 by (apply H; now left).
  cbn [bind]. apply IH. intros j Hj. apply H. now right.
Qed.

Lemma shrinks_singletons (ds' ds : list (list (list bool))) :
  shrinks ds' ds -> Forall (fun d => length d = 1%nat) ds -> ds' = ds.
Proof.
  unfold shrinks. induction 1 as [|d' d ds' ds [_ Hd] _ IH]; intros Hall;
    [reflexivity|].
  inversion Hall; subst. f_equal; auto.
Qed.

Lemma pass_after_stop (a b : side) (size : nat) (st : solver) :
  a <> b ->
  collapsed a st ->
  length (domains_of a st) = size ->
  set_len (known_of a st) = size ->
  reduceDomains a a b st = Ok st
  /\ (forall st',
         reduceDomains b b a st = Ok st' ->
         domains_of a st' = domains_of a st
         /\ domains_of b st' = domains_of b st
         /\ known_of a st' = known_of a st
         /\ is_searching_rows st' = is_searching_rows st).
Proof.
  intros Hab Hc Hlen Hsize.
  pose proof (all_known a size st Hc Hlen Hsize) as Hall.
  split.
  - unfold reduceDomains. apply known_lines_skipped.
    intros i Hi. apply in_seq in Hi. apply Hall. lia.
  - intros st' H.
    apply reduceDomains_pass in H. destruct H as [He (Hf & Hd & Hk)].
    repeat split; auto.
    apply shrinks_singletons; [now apply evolves_domains_of|].
    apply Forall_lookup. intros i d Hi.
    pose proof (lookup_lt_Some _ _ _ Hi) as Hlt.
    destruct (Hc i (Hall i ltac:(lia))) as [c Hl].
    rewrite Hl in Hi. now inv Hi.
Qed.

(** C9, as the code has it. When [solve] returns on a puzzle with [size]
    row specs and [size] column specs, one orientation has [size] known
    lines. A further pass from that orientation changes nothing at all. A
    further pass from the other orientation changes no row domain and no
    column domain, nor the known-set of the collapsed orientation or the
    flag; the known-set of the other orientation and [known_intersects]
    are outside this statement. *)
Theorem extra_pass_after_stop (size fuel : nat) (rows cols : list (list nat))
    (st : solver) :
  length rows = size -> length cols = size ->
  solve size fuel rows cols = Ok st ->
  (set_len (known_rows st) = size \/ set_len (known_cols st) = size)
  /\ (set_len (known_rows st) = size ->
      reduceDomains Rows Rows Cols st = Ok st
      /\ (forall st',
             reduceDomains Cols Cols Rows st = Ok st' ->
             row_domains st' = row_domains st
             /\ col_domains st' = col_domains st
             /\ known_rows st' = known_rows st
             /\ is_searching_rows st' = is_searching_rows st))
  /\ (set_len (known_cols st) = size ->
      reduceDomains Cols Cols Rows st = Ok st
      /\ (forall st',
             reduceDomains Rows Rows Cols st = Ok st' ->
             col_domains st' = col_domains st
             /\ row_domains st' = row_domains st
             /\ known_cols st' = known_cols st
             /\ is_searching_rows st' = is_searching_rows st)).
Proof.
  intros Hrows Hcols H. unfold solve in H. inv_bind H. inv_bind H.
  apply generate_all_length in E, E0. simpl in E, E0.
  pose proof (solve_loop_evolves _ _ _ _ H) as He.
  pose proof (solve_loop_collapsed _ _ _ _ H) as [CR CC].
  { split; intros i Hi; simpl in Hi; set_solver. }
  pose proof (Forall2_length _ _ _ (evolves_domains_of Rows _ _ He)) as LR.
  pose proof (Forall2_length _ _ _ (evolves_domains_of Cols _ _ He)) as LC.
  simpl in LR, LC.
  split; [|split].
  - eapply solve_loop_stopped; eassumption.
  - intros Hk. apply (pass_after_stop Rows Cols size st); auto;
      try discriminate; simpl; lia.
  - intros Hk. apply (pass_after_stop Cols Rows size st); auto;
      try discriminate; simpl; lia.
Qed.

Lemma extra_pass_after_stop_witness :
  (set_len (known_rows single_cell) = 1%nat \/ set_len (known_cols single_cell) = 1%nat)
  /\ (set_len (known_rows single_cell) = 1%nat ->
      reduceDomains Rows Rows Cols single_cell = Ok single_cell
      /\ (forall st',
             reduceDomains Cols Cols Rows single_cell = Ok st' ->
             row_domains st' = row_domains single_cell
             /\ col_domains st' = col_domains single_cell
             /\ known_rows st' = known_rows single_cell
             /\ is_searching_rows st' = is_searching_rows single_cell))
  /\ (set_len (known_cols single_cell) = 1%nat ->
      reduceDomains Cols Cols Rows single_cell = Ok single_cell
      /\ (forall st',
             reduceDomains Rows Rows Cols single_cell = Ok st' ->
             col_domains st' = col_domains single_cell
             /\ row_domains st' = row_domains single_cell
             /\ known_cols st' = known_cols single_cell
             /\ is_searching_rows st' = is_searching_rows single_cell)).
Proof.
  apply (extra_pass_after_stop 1 2 [[1%nat]] [[1%nat]] single_cell).
  - reflexivity.
  - reflexivity.
  - vm_compute. reflexivity.
Defined.

(** C9, counterexample. On the puzzle of one filled cell [solve] returns
    with the row known and no column known; the stop condition holds. One
    more pass from columns to rows then adds column 0 to [known_cols] and
    a triple to [known_intersects]. *)
Lemma extra_pass_adds_knowledge :
  solve 1 2 [[1%nat]] [[1%nat]] = Ok single_cell
  /\ searching 1 single_cell = false
  /\ reduceDomains Cols Cols Rows single_cell = Ok single_cell_again
  /\ known_cols single_cell_again <> known_cols single_cell
  /\ known_intersects single_cell_again <> known_intersects single_cell.
Proof.
  split; [vm_compute; reflexivity|].
  split; [vm_compute; reflexivity|].
  split; [vm_compute; reflexivity|].
  split; intros E; apply (f_equal size) in E; vm_compute in E; discriminate.
Qed.

Lemma domains_only_shrink_witness :
  sublist [[true; false]; [true; true]]
          [[true; false]; [false; true]; [true; true]]
  /\ (length [[true; false]; [true; true]]
      <= length [[true; false]; [false; true]; [true; true]])%nat.
Proof.
  apply (proj1 domains_only_shrink
           [[true; false]; [false; true]; [true; true]] 0%nat true).
  reflexivity.
Defined.

Lemma reduceDomains_frame_witness :
  domains_of Rows cross_after = domains_of Rows cross
  /\ only_removed (domains_of Cols cross_after) (domains_of Cols cross)
  /\ known_of Rows cross ⊆ known_of Rows cross_after
  /\ (forall s, s <> Rows -> known_of s cross_after = known_of s cross)
  /\ known_intersects cross ⊆ known_intersects cross_after
  /\ is_searching_rows cross_after = is_searching_rows cross
  /\ (forall size fuel st0 st1,
         solve_loop size fuel st0 = Ok st1 ->
         known_rows st0 ⊆ known_rows st1
         /\ known_cols st0 ⊆ known_cols st1
         /\ known_intersects st0 ⊆ known_intersects st1).
Proof.
  apply (reduceDomains_frame Rows Rows Cols cross cross_after).
  - discriminate.
  - vm_compute. reflexivity.
Defined.

(** * Further properties of the code *)

(** ** reduceDomain: when it raises *)

Lemma reduceDomain_loop_total (index : nat) (value : bool) (pre : list (list bool)) :
  forall suf : list (list bool),
    for_each (rev (seq 0 (length pre)))
      (fun (domain : list (list bool)) (i : nat) =>
         let* c := getitem domain i in
         let* x := getitem c index in
         if negb (eqb x value) then Ok (delete i domain) else Ok domain)
      (pre ++ suf)
    = if forallb (fun c => (index <? length c)%nat) pre
      then Ok (filter (fun c => c !! index = Some value) pre ++ suf)
      else IndexError.
Proof.
  induction pre as [|c pre IH] using rev_ind; intros suf; [reflexivity|].
  rewrite length_app, Nat.add_1_r, seq_S, rev_app_distr. cbn [rev app for_each].
  rewrite <- app_assoc. cbn [app]. rewrite Nat.add_0_l.
  unfold getitem at 1. rewrite list_lookup_middle by reflexivity. cbn [bind].
  rewrite forallb_app. cbn [forallb]. rewrite andb_true_r.
  destruct (Nat.ltb_spec index (length c)) as [Hlen|Hlen].
  - rewrite andb_true_r.
    destruct (lookup_lt_is_Some_2 c index Hlen) as [x Hx].
    unfold getitem at 1. rewrite Hx. cbn [bind]. rewrite filter_app.
    destruct (Bool.eqb_spec x value) as [->|Hne]; cbn [negb bind].
    + rewrite IH. destruct (forallb _ pre); [|reflexivity].
      rewrite (filter_cons_True _ c []) by exact Hx. now rewrite <- app_assoc.
    + rewrite delete_middle, IH. destruct (forallb _ pre); [|reflexivity].
      rewrite (filter_cons_False _ c []) by congruence. now rewrite app_nil_r.
  - rewrite andb_false_r. unfold getitem at 1.
    now rewrite (lookup_ge_None_2 c index Hlen).
Qed.

Lemma reduceDomain_cases (domain : list (list bool)) (index : nat) (value : bool) :
  reduceDomain domain index value
  = if (length domain =? 1)%nat then Ok domain
    else if forallb (fun c => (index <? length c)%nat) domain
         then Ok (filter (fun c => c !! index = Some value) domain)
         else IndexError.
Proof.
  unfold reduceDomain. destruct (length domain =? 1)%nat; [reflexivity|].
  pose proof (reduceDomain_loop_total index value domain []) as H.
  rewrite !app_nil_r in H. exact H.
Qed.

(** X1. [reduceDomain(domain, index, value)] returns a domain of exactly
    one candidate as it is, whatever [index]; on any other domain it raises
    [IndexError] when some candidate has no cell at [index], and otherwise
    returns the candidates whose cell at [index] is [value] - also when
    there is none, leaving an empty domain. *)
Theorem reduceDomain_total (domain : list (list bool)) (index : nat) (value : bool) :
  reduceDomain domain index value
  = if (length domain =? 1)%nat then Ok domain
    else if forallb (fun c => (index <? length c)%nat) domain
         then Ok (filter (fun c => c !! index = Some value) domain)
         else IndexError.
Proof.
  unfold reduceDomain. destruct (length domain =? 1)%nat; [reflexivity|].
  pose proof (reduceDomain_loop_total index value domain []) as H.
  rewrite !app_nil_r in H. exact H.
Qed.

(** ** reduceNeighborDomains: what it prunes *)

Lemma enumerate_snoc {A : Type} (l : list A) (x : A) :
  enumerate (l ++ [x]) = enumerate l ++ [(length l, x)].
Proof.
  unfold enumerate. rewrite length_app, Nat.add_1_r, seq_S.
  rewrite zip_with_app by (now rewrite length_seq). reflexivity.
Qed.

(** The backward loop of [reduceNeighborDomains] over one domain. *)
Lemma prune_loop_total (index : nat) (pre : list (list bool)) :
  forall suf : list (list bool),
    for_each (rev (enumerate pre))
      (fun (live : list (list bool)) (jc : nat * list bool) =>
         let* x := getitem (snd jc) index in
         if x then Ok (delete (fst jc) live) else Ok live)
      (pre ++ suf)
    = if forallb (fun c => (index <? length c)%nat) pre
      then Ok (filter (fun c => c !! index = Some false) pre ++ suf)
      else IndexError.
Proof.
  induction pre as [|c pre IH] using rev_ind; intros suf; [reflexivity|].
  rewrite enumerate_snoc, rev_app_distr. cbn [rev app for_each fst snd].
  rewrite forallb_app. cbn [forallb]. rewrite andb_true_r.
  destruct (Nat.ltb_spec index (length c)) as [Hlen|Hlen].
  - rewrite andb_true_r.
    destruct (lookup_lt_is_Some_2 c index Hlen) as [x Hx].
    unfold getitem at 1. rewrite Hx. cbn [bind]. rewrite filter_app.
    rewrite <- app_assoc. cbn [app].
    destruct x; cbn [bind].
    + rewrite delete_middle, IH. destruct (forallb _ pre); [|reflexivity].
      rewrite (filter_cons_False _ c []) by congruence. now rewrite app_nil_r.
    + rewrite IH. destruct (forallb _ pre); [|reflexivity].
      rewrite (filter_cons_True _ c []) by exact Hx. now rewrite <- app_assoc.
  - rewrite andb_false_r. unfold getitem at 1.
    now rewrite (lookup_ge_None_2 c index Hlen).
Qed.

Lemma prune_loop_Ok (index : nat) (d d' : list (list bool)) :
  for_each (rev (enumerate d))
    (fun (live : list (list bool)) (jc : nat * list bool) =>
       let* x := getitem (snd jc) index in
       if x then Ok (delete (fst jc) live) else Ok live)
    d = Ok d' ->
  d' = filter (fun c => c !! index = Some false) d.
Proof.
  pose proof (prune_loop_total index d []) as H. rewrite !app_nil_r in H.
  rewrite H. destruct (forallb _ d); intros E; now inv_ok.
Qed.

Lemma prunes_snoc_lt (st : solver) (kd : list bool) (v : bool) (index p : nat)
    (d : list (list bool)) :
  p <> length kd ->
  prunes st (kd ++ [v]) index p d = prunes st kd index p d.
Proof.
  intros Hp. unfold prunes. f_equal. f_equal.
  destruct (Nat.lt_ge_cases p (length kd)) as [Hlt|Hge].
  - now rewrite lookup_app_l.
  - rewrite !lookup_ge_None_2; [reflexivity|lia|].
    rewrite length_app. simpl. lia.
Qed.

Lemma reduceNeighborDomains_lookup (st : solver) (index : nat) (kd : list bool) :
  forall (uds uds' : list (list (list bool))),
    reduceNeighborDomains st kd uds index = Ok uds' ->
    length uds' = length uds
    /\ forall p d, uds !! p = Some d ->
         uds' !! p
         = Some (if prunes st kd index p d
                 then filter (fun c => c !! index = Some false) d else d).
Proof.
  unfold reduceNeighborDomains.
  induction kd as [|v kd IH] using rev_ind; intros uds uds' H.
  - simpl in H. inv_ok. split; [reflexivity|]. intros p d Hp.
    unfold prunes. now rewrite lookup_nil.
  - rewrite enumerate_snoc, for_each_app in H. inv_bind H.
    destruct (IH _ _ E) as [Hlen Hl]. clear IH E.
    cbn [for_each fst snd] in H. inv_bind H. inv_ok.
    destruct v.
    + inv_ok. split; [exact Hlen|]. intros p d Hp. rewrite (Hl p d Hp).
      destruct (Nat.eq_dec p (length kd)) as [->|Hne].
      * unfold prunes.
        rewrite list_lookup_middle by reflexivity.
        rewrite lookup_ge_None_2 by lia. reflexivity.
      * now rewrite prunes_snoc_lt.
    + rename E into Hbody. inv_bind Hbody. inv_ok. rename x0 into d0.
      assert (Hd0 : uds !! length kd = Some d0).
      { destruct (uds !! length kd) as [d1|] eqn:E1.
        - rewrite (Hl _ _ E1) in E. unfold prunes in E.
          rewrite lookup_ge_None_2 in E by lia. simpl in E. congruence.
        - apply lookup_ge_None_1 in E1. rewrite <- Hlen in E1.
          apply lookup_lt_Some in E. lia. }
      assert (Hd : uds' = <[length kd :=
                     if prunes st (kd ++ [false]) index (length kd) d0
                     then filter (fun c => c !! index = Some false) d0 else d0]> x).
      { unfold prunes. rewrite list_lookup_middle by reflexivity.
        rewrite bool_decide_eq_true_2 by reflexivity. cbn [andb].
        destruct ((1 <? length d0)%nat
                  && bool_decide ((is_searching_rows st, index, length kd)
                                    ∉ known_intersects st)).
        - inv_bind Hbody. inv_ok. apply prune_loop_Ok in E0. now subst.
        - inv_ok. now rewrite list_insert_id. }
      subst uds'. split; [now rewrite length_insert|].
      intros p d Hp. destruct (Nat.eq_dec p (length kd)) as [->|Hne].
      * rewrite list_lookup_insert_eq by (apply lookup_lt_Some in E; exact E).
        rewrite Hd0 in Hp. injection Hp as <-. reflexivity.
      * rewrite list_lookup_insert_ne by congruence.
        rewrite (Hl p d Hp). now rewrite prunes_snoc_lt.
Qed.

(** X2. When [reduceNeighborDomains(known_domain, unknown_domains, index)]
    returns, [unknown_domains] has the same number of domains, and the
    domain at position [p] has lost exactly its candidates that are [True]
    at [index] if [known_domain[p]] is [False], the domain had more than
    one candidate and the triple [(is_searching_rows, index, p)] is not in
    [known_intersects]; it is untouched otherwise - in particular wherever
    [known_domain] is [True]. *)
Theorem reduceNeighborDomains_prunes (st : solver) (known_domain : list bool)
    (unknown_domains unknown_domains' : list (list (list bool))) (index : nat) :
  reduceNeighborDomains st known_domain unknown_domains index = Ok unknown_domains' ->
  length unknown_domains' = length unknown_domains
  /\ (forall p d,
         unknown_domains !! p = Some d ->
         unknown_domains' !! p
         = Some (if prunes st known_domain index p d
                 then filter (fun c => c !! index = Some false) d else d))
  /\ (forall p d,
         unknown_domains !! p = Some d -> known_domain !! p = Some true ->
         unknown_domains' !! p = Some d).
Proof.
  intros H. destruct (reduceNeighborDomains_lookup _ _ _ _ _ H) as [Hlen Hl].
  split; [exact Hlen|]. split; [exact Hl|].
  intros p d Hp Ht. rewrite (Hl p d Hp). unfold prunes.
  rewrite bool_decide_eq_false_2 by congruence. reflexivity.
Qed.

Lemma reduceNeighborDomains_prunes_witness :
  length [[[false; true]]; [[true; false]; [false; true]]]
  = length [[[true; false]; [false; true]]; [[true; false]; [false; true]]]
  /\ (forall p d,
         [[[true; false]; [false; true]]; [[true; false]; [false; true]]] !! p
         = Some d ->
         [[[false; true]]; [[true; false]; [false; true]]] !! p
         = Some (if prunes ambiguous [false; true] 0 p d
                 then filter (fun c => c !! 0%nat = Some false) d else d))
  /\ (forall p d,
         [[[true; false]; [false; true]]; [[true; false]; [false; true]]] !! p
         = Some d ->
         [false; true] !! p = Some true ->
         [[[false; true]]; [[true; false]; [false; true]]] !! p = Some d).
Proof.
  apply (reduceNeighborDomains_prunes ambiguous [false; true]
           [[[true; false]; [false; true]]; [[true; false]; [false; true]]]
           [[[false; true]]; [[true; false]; [false; true]]] 0).
  reflexivity.
Defined.

(** ** Propagation never removes a solution *)

Lemma scan_agree (i : nat) (cands : list (list bool)) :
  forall all_true all_false t f,
    scan cands i all_true all_false = Ok (t, f) ->
    (t = true -> all_true = true /\ Forall (fun c => c !! i = Some true) cands)
    /\ (f = true -> all_false = true /\ Forall (fun c => c !! i = Some false) cands).
Proof.
  induction cands as [|j cands IH]; intros all_true all_false t f H; simpl in H.
  - injection H as <- <-. split; intros ->; auto.
  - destruct all_true, all_false; simpl in H;
      try (injection H as <- <-; split; discriminate).
    all: inv_bind H; inv_ok; destruct x; simpl in H;
      apply IH in H; destruct H as [Ht Hf]; split; intros Hx;
      try (destruct (Ht Hx) as [? ?]; discriminate);
      try (destruct (Hf Hx) as [? ?]; discriminate).
    all: try (destruct (Ht Hx) as [_ ?]; split; [reflexivity|now constructor]).
    all: try (destruct (Hf Hx) as [_ ?]; split; [reflexivity|now constructor]).
Qed.

(** Every record of [getDomainIntersects] is a cell on which all the
    candidates agree. *)
Lemma getDomainIntersects_agree (st : solver) (domain : list (list bool))
    (index : nat) (intersects : list (nat * bool)) :
  getDomainIntersects st domain index = Ok intersects ->
  forall it, In it intersects ->
             Forall (fun c => c !! fst it = Some (snd it)) domain.
Proof.
  unfold getDomainIntersects. intros H. inv_bind H. revert H.
  apply (for_each_inv
           (fun l => forall it, In it l ->
                       Forall (fun c => c !! fst it = Some (snd it)) domain));
    [|intros it []].
  intros l i l' _ Hl Hb.
  destruct (bool_decide _); [|inv_ok; exact Hl].
  inv_bind Hb. inv_ok. destruct x0 as [t f].
  apply scan_agree in E0. destruct E0 as [Ht Hf]. cbn [fst snd] in *.
  intros it Hin.
  destruct t, f; repeat (apply in_app_or in Hin; destruct Hin as [Hin|Hin]);
    auto; destruct Hin as [<-|[]]; cbn [fst snd];
    first [apply Ht; reflexivity|apply Hf; reflexivity].
Qed.

Lemma reduceDomain_keeps (d d' : list (list bool)) (i : nat) (v : bool)
    (c : list bool) :
  reduceDomain d i v = Ok d' -> c ∈ d -> c !! i = Some v -> c ∈ d'.
Proof.
  rewrite reduceDomain_cases. intros H Hc Hv.
  destruct (length d =? 1)%nat; [now inv_ok|].
  destruct (forallb _ d); [|discriminate]. inv_ok.
  apply list_elem_of_filter. auto.
Qed.

Lemma holds_insert (ds : list (list (list bool))) (L : list (list bool))
    (p : nat) (d' : list (list bool)) (l : list bool) :
  holds ds L -> L !! p = Some l -> l ∈ d' -> holds (<[p := d']> ds) L.
Proof.
  unfold holds. intros H Hl Hin. rewrite <- (list_insert_id L p l Hl).
  now apply Forall2_insert.
Qed.

Lemma domains_of_set_domains (b : side) (ds : list (list (list bool))) (st : solver) :
  domains_of b (set_domains b ds st) = ds.
Proof. destruct b; reflexivity. Qed.

Section Soundness.

(** The lines of a board in the orientation of [domains_a] and in the
    orientation of [domains_b]. *)
Variables (a b : side) (La Lb : list (list bool)).
Hypothesis Hab : a <> b.
Hypothesis Hcross :
  forall i p la lb, La !! i = Some la -> Lb !! p = Some lb -> la !! p = lb !! i.

Lemma propagate_intersect_sound (st st' : solver) (i : nat) (la : list bool)
    (intersect : nat * bool) :
  La !! i = Some la ->
  la !! fst intersect = Some (snd intersect) ->
  holds (domains_of b st) Lb ->
  propagate_intersect b i st intersect = Ok st' ->
  holds (domains_of b st') Lb.
Proof.
  unfold propagate_intersect. intros Hla Hv Hb H. inv_bind H. inv_bind H. inv_ok.
  destruct (Forall2_lookup_l _ _ _ _ _ Hb E) as (lb & Hlb & Hin).
  assert (domains_of b (add_intersect (is_searching_rows st, i, fst intersect)
            (set_domains b (<[fst intersect := x0]> (domains_of b st)) st))
          = <[fst intersect := x0]> (domains_of b st)) as -> by (destruct b; reflexivity).
  eapply holds_insert; [exact Hb|exact Hlb|].
  eapply reduceDomain_keeps; [exact E0|exact Hin|].
  rewrite <- (Hcross _ _ _ _ Hla Hlb). exact Hv.
Qed.

Lemma collapse_sound (st : solver) (i : nat) (kd : list bool)
    (ds : list (list (list bool))) :
  La !! i = Some kd ->
  holds (domains_of b st) Lb ->
  reduceNeighborDomains st kd (domains_of b st) i = Ok ds ->
  holds ds Lb.
Proof.
  intros Hla Hb H. apply reduceNeighborDomains_lookup in H.
  destruct H as [Hlen Hl]. unfold holds.
  apply Forall2_same_length_lookup. split.
  - rewrite Hlen. now apply Forall2_length in Hb.
  - intros p d' lb Hd' Hlb.
    destruct (Forall2_lookup_r _ _ _ _ _ Hb Hlb) as (d & Hd & Hin).
    rewrite (Hl p d Hd) in Hd'. injection Hd' as <-.
    destruct (prunes st kd i p d) eqn:Ep; [|exact Hin].
    apply list_elem_of_filter. split; [|exact Hin].
    rewrite <- (Hcross _ _ _ _ Hla Hlb).
    unfold prunes in Ep. apply andb_true_iff in Ep. destruct Ep as [Ep _].
    apply andb_true_iff in Ep. destruct Ep as [Ep _].
    now apply bool_decide_eq_true in Ep.
Qed.

Lemma reduce_line_sound (st st' : solver) (i : nat) :
  holds (domains_of a st) La /\ holds (domains_of b st) Lb ->
  reduce_line a a b st i = Ok st' ->
  holds (domains_of a st') La /\ holds (domains_of b st') Lb.
Proof.
  intros [Ha Hb] H.
  pose proof (reduce_line_pass _ _ _ _ _ _ H) as [_ (_ & Hd & _)].
  split; [now rewrite (Hd a Hab)|]. clear Hd.
  unfold reduce_line in H.
  destruct (bool_decide (i ∈ known_of a st)); [now inv_ok|].
  inv_bind H. inv_bind H. inv_bind H. inv_bind H. inv_ok.
  destruct (Forall2_lookup_l _ _ _ _ _ Ha E) as (la & Hla & Hin).
  assert (Hmid : holds (domains_of b x0) Lb /\ domains_of a x0 = domains_of a st).
  { destruct (Nat.eqb_spec (length x) 1) as [Hlen|Hlen]; [|now inv_ok].
    inv_bind E0. inv_bind E0. inv_ok.
    destruct (length_1_singleton x Hlen) as [c ->].
    apply list_elem_of_singleton in Hin. subst la.
    match goal with
    | Hc : [c] !! 0%nat = Some _ |- _ => simpl in Hc; injection Hc as <-
    end.
    split.
    - match goal with
      | |- holds (domains_of b (add_known a i (set_domains b ?ds st))) Lb =>
          assert (domains_of b (add_known a i (set_domains b ds st)) = ds) as ->
            by (destruct a, b; reflexivity)
      end.
      eapply collapse_sound; eassumption.
    - destruct a, b; try reflexivity; congruence. }
  destruct Hmid as [Hb0 Ha0]. rewrite Ha0, E in E1. injection E1 as <-.
  pose proof (getDomainIntersects_agree _ _ _ _ E2) as Hagree.
  revert H. apply (for_each_inv (fun s => holds (domains_of b s) Lb)); [|exact Hb0].
  intros s it s' Hit Hs Hstep.
  eapply propagate_intersect_sound; [exact Hla| |exact Hs|exact Hstep].
  specialize (Hagree it Hit). rewrite Forall_forall in Hagree. now apply Hagree.
Qed.

Lemma reduceDomains_sound (st st' : solver) :
  holds (domains_of a st) La /\ holds (domains_of b st) Lb ->
  reduceDomains a a b st = Ok st' ->
  holds (domains_of a st') La /\ holds (domains_of b st') Lb.
Proof.
  unfold reduceDomains. intros Hh.
  apply (for_each_inv (fun s => holds (domains_of a s) La /\ holds (domains_of b s) Lb));
    [|exact Hh].
  intros s i s' _ Hs Hb. eapply reduce_line_sound; eassumption.
Qed.

End Soundness.

Lemma crossing_sym (R C : list (list bool)) :
  crossing R C ->
  forall i p la lb, C !! i = Some la -> R !! p = Some lb -> la !! p = lb !! i.
Proof. intros H i p la lb Hla Hlb. symmetry. eapply H; eassumption. Qed.

Lemma solve_round_sound (size : nat) (R C : list (list bool)) (st st' : solver) :
  crossing R C ->
  holds (row_domains st) R /\ holds (col_domains st) C ->
  solve_round size st = Ok st' ->
  holds (row_domains st') R /\ holds (col_domains st') C.
Proof.
  unfold solve_round. intros Hx Hh H. inv_bind H.
  apply (reduceDomains_sound Rows Cols R C ltac:(discriminate) Hx) in E;
    [|exact Hh].
  destruct (negb (set_len (known_rows (flip x)) =? size)%nat); [|now inv_ok].
  inv_bind H. inv_ok.
  apply (reduceDomains_sound Cols Rows C R ltac:(discriminate) (crossing_sym R C Hx))
    in E0; [|simpl in *; tauto].
  simpl in *. tauto.
Qed.

Lemma solve_loop_sound (size fuel : nat) (R C : list (list bool)) :
  crossing R C ->
  forall st st',
    holds (row_domains st) R /\ holds (col_domains st) C ->
    solve_loop size fuel st = Ok st' ->
    holds (row_domains st') R /\ holds (col_domains st') C.
Proof.
  intros Hx. induction fuel as [|fuel IH]; intros st st' Hh H; simpl in H;
    [discriminate|].
  destruct (searching size st); [|now inv_ok].
  inv_bind H. eapply IH; [|exact H].
  eapply solve_round_sound; eassumption.
Qed.

(** X3. Propagation never removes a solution. If the rows [R] and the
    columns [C] of one board are candidates of their lines' domains, they
    still are after a pass [reduceDomains] in either direction, after an
    iteration of the loop of [solve], and when the loop returns. *)
Theorem propagation_keeps_solution (R C : list (list bool)) (st : solver) :
  crossing R C ->
  holds (row_domains st) R -> holds (col_domains st) C ->
  (forall st', reduceDomains Rows Rows Cols st = Ok st' ->
               holds (row_domains st') R /\ holds (col_domains st') C)
  /\ (forall st', reduceDomains Cols Cols Rows st = Ok st' ->
                  holds (row_domains st') R /\ holds (col_domains st') C)
  /\ (forall size st', solve_round size st = Ok st' ->
                       holds (row_domains st') R /\ holds (col_domains st') C)
  /\ (forall size fuel st', solve_loop size fuel st = Ok st' ->
                            holds (row_domains st') R /\ holds (col_domains st') C).
Proof.
  intros Hx HR HC. split; [|split; [|split]].
  - intros st' H.
    apply (reduceDomains_sound Rows Cols R C ltac:(discriminate) Hx) in H; auto.
  - intros st' H.
    apply (reduceDomains_sound Cols Rows C R ltac:(discriminate)
             (crossing_sym R C Hx)) in H; simpl in *; tauto.
  - intros size st' H. eapply solve_round_sound; eauto.
  - intros size fuel st' H. eapply solve_loop_sound; eauto.
Qed.

(** ** The board that [solve] finds *)

Lemma runs_from_positive (l : list bool) : forall c,
  Forall (fun k => (0 < k)%nat) (runs_from c l).
Proof.
  induction l as [|[] l IH]; intros c; simpl.
  - destruct c; [constructor|]. constructor; [lia|constructor].
  - apply IH.
  - destruct c; [apply IH|]. constructor; [lia|apply IH].
Qed.

Lemma runs_fits (l : list bool) : fits (length l) (runs l).
Proof. unfold fits, runs. pose proof (runs_from_bound l 0). lia. Qed.

(** A line is a candidate of the domain generated from its own runs. *)
Lemma generateDomain_member (size : nat) (l : list bool) (nums : list nat)
    (d : list (list bool)) :
  length l = size -> runs l = nums ->
  generateDomain size nums = Ok d -> l ∈ d.
Proof.
  intros Hlen <- H.
  rewrite generateDomain_fits in H.
  - inv_ok. apply list_elem_of_In. apply fills_complete; auto.
    + apply runs_from_positive.
    + lia.
  - apply runs_from_positive.
  - rewrite <- Hlen. apply runs_fits.
Qed.

Lemma generate_all_each (size : nat) (specs : list (list nat)) :
  forall ds0 ds,
    generate_all size specs ds0 = Ok ds ->
    exists new, ds = ds0 ++ new
                /\ Forall2 (fun d nums => generateDomain size nums = Ok d) new specs.
Proof.
  unfold generate_all.
  induction specs as [|nums specs IH]; intros ds0 ds H; simpl in H.
  - inv_ok. exists []. split; [now rewrite app_nil_r|constructor].
  - inv_bind H. inv_bind E. inv_ok.
    destruct (IH _ _ H) as (new & -> & Hnew).
    exists (x0 :: new). split; [now rewrite <- app_assoc|].
    constructor; assumption.
Qed.

Lemma generate_all_holds (size : nat) (L : list (list bool)) (specs : list (list nat))
    (ds : list (list (list bool))) :
  satisfies size L specs ->
  generate_all size specs [] = Ok ds ->
  holds ds L.
Proof.
  intros Hsat H. apply generate_all_each in H. destruct H as (new & -> & Hnew).
  simpl. unfold holds. apply Forall2_same_length_lookup. split.
  - apply Forall2_length in Hnew, Hsat. lia.
  - intros i d l Hd Hl.
    destruct (Forall2_lookup_l _ _ _ _ _ Hnew Hd) as (nums & Hn & Hgen).
    destruct (Forall2_lookup_lr _ _ _ _ _ _ Hsat Hl Hn) as [Hlen Hruns].
    eapply generateDomain_member; eassumption.
Qed.

Lemma holds_singletons (ds : list (list (list bool))) (L : list (list bool)) :
  holds ds L -> Forall (fun d => length d = 1%nat) ds ->
  ds = map (fun l => [l]) L.
Proof.
  unfold holds. induction 1 as [|d l ds L Hin _ IH]; intros Hall; [reflexivity|].
  inversion Hall as [|d' ds' Hlen Hrest]; subst. simpl. f_equal; [|auto].
  destruct (length_1_singleton d Hlen) as [c ->].
  apply list_elem_of_singleton in Hin. now subst.
Qed.

Lemma known_all_singletons (a : side) (size : nat) (st : solver) :
  collapsed a st ->
  length (domains_of a st) = size ->
  set_len (known_of a st) = size ->
  Forall (fun d => length d = 1%nat) (domains_of a st).
Proof.
  intros Hc Hlen Hsize.
  pose proof (all_known a size st Hc Hlen Hsize) as Hall.
  apply Forall_lookup. intros i d Hi.
  pose proof (lookup_lt_Some _ _ _ Hi) as Hlt.
  destruct (Hc i (Hall i ltac:(lia))) as [c Hl].
  rewrite Hl in Hi. now inv Hi.
Qed.

(** When [solve] returns on a puzzle that has the solution [(R, C)], the
    orientation with [size] known lines holds exactly that solution. *)
Lemma solve_collapsed_to (size fuel : nat) (rows cols : list (list nat))
    (R C : list (list bool)) (st : solver) :
  length rows = size -> length cols = size ->
  satisfies size R rows -> satisfies size C cols -> crossing R C ->
  solve size fuel rows cols = Ok st ->
  (set_len (known_rows st) = size \/ set_len (known_cols st) = size)
  /\ (set_len (known_rows st) = size -> row_domains st = map (fun l => [l]) R)
  /\ (set_len (known_cols st) = size -> col_domains st = map (fun l => [l]) C).
Proof.
  intros Hrows Hcols HR HC Hx H. unfold solve in H. inv_bind H. inv_bind H.
  pose proof (generate_all_holds _ _ _ _ HR E) as HhR.
  pose proof (generate_all_holds _ _ _ _ HC E0) as HhC.
  apply generate_all_length in E, E0. simpl in E, E0.
  pose proof (solve_loop_evolves _ _ _ _ H) as He.
  pose proof (solve_loop_collapsed _ _ _ _ H) as [CR CC].
  { split; intros i Hi; simpl in Hi; set_solver. }
  pose proof (Forall2_length _ _ _ (evolves_domains_of Rows _ _ He)) as LR.
  pose proof (Forall2_length _ _ _ (evolves_domains_of Cols _ _ He)) as LC.
  simpl in LR, LC.
  destruct (solve_loop_sound size fuel R C Hx _ st
              (conj (HhR : holds (row_domains (Solver x x0 _ _ _ _)) R)
                    (HhC : holds (col_domains (Solver x x0 _ _ _ _)) C)) H)
    as [SR SC].
  split; [eapply solve_loop_stopped; eassumption|]. split; intros Hk.
  - apply holds_singletons; [exact SR|].
    apply (known_all_singletons Rows size st); auto. simpl. lia.
  - apply holds_singletons; [exact SC|].
    apply (known_all_singletons Cols size st); auto. simpl. lia.
Qed.

(** X4. When [solve] returns on a puzzle with [size] row specs and [size]
    column specs, the board it found is the solution: for every board
    whose rows [R] and columns [C] have the runs of the specs, the row
    domains are the single candidates [R] if all rows are known, and the
    column domains are the single candidates [C] if all columns are known
    (one of the two is the case). So the puzzle has no second solution. *)
Theorem solve_finds_the_solution (size fuel : nat) (rows cols : list (list nat))
    (R C : list (list bool)) (st : solver) :
  length rows = size -> length cols = size ->
  satisfies size R rows -> satisfies size C cols -> crossing R C ->
  solve size fuel rows cols = Ok st ->
  (set_len (known_rows st) = size \/ set_len (known_cols st) = size)
  /\ (set_len (known_rows st) = size -> row_domains st = map (fun l => [l]) R)
  /\ (set_len (known_cols st) = size -> col_domains st = map (fun l => [l]) C)
  /\ (forall R' C',
         satisfies size R' rows -> satisfies size C' cols -> crossing R' C' ->
         R' = R /\ C' = C).
Proof.
  intros Hrows Hcols HR HC Hx H.
  destruct (solve_collapsed_to size fuel rows cols R C st) as (Hk & H1 & H2); auto.
  split; [exact Hk|]. split; [exact H1|]. split; [exact H2|].
  intros R' C' HR' HC' Hx'.
  destruct (solve_collapsed_to size fuel rows cols R' C' st) as (_ & H1' & H2'); auto.
  assert (Hinj : forall A B : list (list bool),
             map (fun l => [l]) A = map (fun l => [l]) B -> A = B).
  { induction A as [|x A IH]; intros [|y B] E; simpl in E; try discriminate; auto.
    injection E as -> E. f_equal. auto. }
  assert (Hcols_of : forall A A' B B' : list (list bool),
             A' = A -> crossing A B -> crossing A' B' ->
             length A = size -> length B = size -> length B' = size ->
             Forall (fun l => length l = size) A ->
             Forall (fun l => length l = size) B ->
             Forall (fun l => length l = size) B' ->
             B' = B).
  { intros A A' B B' -> XB XB' LA LB LB' FA FB FB'.
    apply list_eq_same_length with size; auto.
    intros j c' c Hj Hc' Hc. apply list_eq_same_length with size.
    - rewrite Forall_lookup in FB. eauto.
    - rewrite Forall_lookup in FB'. eauto.
    - intros i y' y Hi Hy' Hy.
      destruct (lookup_lt_is_Some_2 A i ltac:(lia)) as [r Hr].
      rewrite <- (XB' _ _ _ _ Hr Hc') in Hy'.
      rewrite <- (XB _ _ _ _ Hr Hc) in Hy. congruence. }
  assert (LR : length R = size /\ Forall (fun l => length l = size) R).
  { split; [apply Forall2_length in HR; lia|].
    apply Forall_lookup. intros i l Hl.
    destruct (Forall2_lookup_l _ _ _ _ _ HR Hl) as (? & _ & ? & _). assumption. }
  assert (LC : length C = size /\ Forall (fun l => length l = size) C).
  { split; [apply Forall2_length in HC; lia|].
    apply Forall_lookup. intros i l Hl.
    destruct (Forall2_lookup_l _ _ _ _ _ HC Hl) as (? & _ & ? & _). assumption. }
  assert (LR' : length R' = size /\ Forall (fun l => length l = size) R').
  { split; [apply Forall2_length in HR'; lia|].
    apply Forall_lookup. intros i l Hl.
    destruct (Forall2_lookup_l _ _ _ _ _ HR' Hl) as (? & _ & ? & _). assumption. }
  assert (LC' : length C' = size /\ Forall (fun l => length l = size) C').
  { split; [apply Forall2_length in HC'; lia|].
    apply Forall_lookup. intros i l Hl.
    destruct (Forall2_lookup_l _ _ _ _ _ HC' Hl) as (? & _ & ? & _). assumption. }
  destruct LR, LC, LR', LC'.
  destruct Hk as [Hk|Hk].
  - assert (R' = R) by (apply Hinj; rewrite <- H1, <- H1'; auto).
    split; [assumption|]. eapply (Hcols_of R R' C C'); eauto.
  - assert (C' = C) by (apply Hinj; rewrite <- H2, <- H2'; auto).
    split; [|assumption].
    eapply (Hcols_of C C' R R'); eauto;
      intros i j r c Hr Hc; symmetry; [eapply Hx|eapply Hx']; eassumption.
Qed.

Lemma crossing_cross : crossing cross_rows cross_cols.
Proof.
  intros i j r c Hr Hc.
  destruct i as [|[|[|i]]]; destruct j as [|[|[|j]]]; simpl in Hr, Hc;
    try discriminate; injection Hr as <-; injection Hc as <-; reflexivity.
Qed.

Lemma holds_cross :
  holds (row_domains cross) cross_rows /\ holds (col_domains cross) cross_cols.
Proof. split; repeat constructor. Qed.

Lemma propagation_keeps_solution_witness :
  (forall st', reduceDomains Rows Rows Cols cross = Ok st' ->
               holds (row_domains st') cross_rows /\ holds (col_domains st') cross_cols)
  /\ (forall st', reduceDomains Cols Cols Rows cross = Ok st' ->
                  holds (row_domains st') cross_rows /\ holds (col_domains st') cross_cols)
  /\ (forall size st', solve_round size cross = Ok st' ->
                       holds (row_domains st') cross_rows
                       /\ holds (col_domains st') cross_cols)
  /\ (forall size fuel st', solve_loop size fuel cross = Ok st' ->
                            holds (row_domains st') cross_rows
                            /\ holds (col_domains st') cross_cols).
Proof.
  apply (propagation_keeps_solution cross_rows cross_cols cross).
  - exact crossing_cross.
  - exact (proj1 holds_cross).
  - exact (proj2 holds_cross).
Defined.

Lemma crossing_single : crossing [[true]] [[true]].
Proof.
  intros i j r c Hr Hc.
  destruct i as [|i]; destruct j as [|j]; simpl in Hr, Hc;
    try discriminate; injection Hr as <-; injection Hc as <-; reflexivity.
Qed.

Lemma solve_finds_the_solution_witness :
  (set_len (known_rows single_cell) = 1%nat \/ set_len (known_cols single_cell) = 1%nat)
  /\ (set_len (known_rows single_cell) = 1%nat ->
      row_domains single_cell = map (fun l => [l]) [[true]])
  /\ (set_len (known_cols single_cell) = 1%nat ->
      col_domains single_cell = map (fun l => [l]) [[true]])
  /\ (forall R' C',
         satisfies 1 R' [[1%nat]] -> satisfies 1 C' [[1%nat]] -> crossing R' C' ->
         R' = [[true]] /\ C' = [[true]]).
Proof.
  apply (solve_finds_the_solution 1 2 [[1%nat]] [[1%nat]] [[true]] [[true]] single_cell).
  - reflexivity.
  - reflexivity.
  - repeat constructor.
  - repeat constructor.
  - exact crossing_single.
  - vm_compute. reflexivity.
Defined.

(** ** print_board *)

(** A loop that appends one value per index of [l]. *)
Lemma for_each_collect {A B : Type} (f : nat -> outcome B) (h : A -> B) (l : list A) :
  (forall j x, l !! j = Some x -> f j = Ok (h x)) ->
  forall acc,
    for_each (seq 0 (length l))
      (fun (acc : list B) (j : nat) => let* g := f j in Ok (acc ++ [g])) acc
    = Ok (acc ++ map h l).
Proof.
  induction l as [|x l IH] using rev_ind; intros Hf acc.
  - simpl. now rewrite app_nil_r.
  - rewrite length_app, Nat.add_1_r, seq_S, for_each_app.
    rewrite IH by (intros j y Hj; apply Hf; rewrite lookup_app_l;
                   [exact Hj|now apply lookup_lt_Some in Hj]).
    cbn [bind for_each]. rewrite Nat.add_0_l.
    rewrite (Hf (length l) x) by (now apply list_lookup_middle).
    cbn [bind]. now rewrite map_app, app_assoc.
Qed.

Lemma print_lines_render (rows : bool) (solved_domains : list (list (list bool)))
    (R : list (list bool)) :
  length solved_domains = length R ->
  Forall (fun r => length r = length R) R ->
  (forall (i j : nat) (r : list bool) (y : bool),
      R !! i = Some r -> r !! j = Some y ->
      print_cell rows solved_domains i j = Ok (if y then Hollow else Solid)) ->
  print_lines rows solved_domains = Ok (render R).
Proof.
  intros Hlen Hall Hcell. unfold print_lines, render. rewrite Hlen.
  rewrite (for_each_collect _ (map (fun filled : bool => if filled then Hollow else Solid)) R);
    [reflexivity|].
  intros i r Hr.
  assert (Hr' : length r = length R).
  { rewrite Forall_lookup in Hall. eauto. }
  rewrite <- Hr'.
  rewrite (for_each_collect _ (fun filled : bool => if filled then Hollow else Solid) r);
    [reflexivity|].
  intros j y Hy. eapply Hcell; eassumption.
Qed.

Lemma satisfies_lengths (size : nat) (L : list (list bool)) (specs : list (list nat)) :
  satisfies size L specs -> length specs = size ->
  length L = size /\ Forall (fun l => length l = size) L.
Proof.
  intros HL Hs. split; [apply Forall2_length in HL; lia|].
  apply Forall_lookup. intros i l Hl.
  destruct (Forall2_lookup_l _ _ _ _ _ HL Hl) as (? & _ & ? & _). assumption.
Qed.

(** X5. [print_board] after [solve]: when [solve] returns on a puzzle with
    [size] row specs and [size] column specs that has a solution with rows
    [R], [print_board] raises nothing and writes the board [R], one line
    per row, the hollow rectangle for a filled cell and the solid one for
    an empty cell - also when only the columns were collapsed. *)
Theorem print_board_after_solve (size fuel : nat) (rows cols : list (list nat))
    (R C : list (list bool)) (st : solver) :
  length rows = size -> length cols = size ->
  satisfies size R rows -> satisfies size C cols -> crossing R C ->
  solve size fuel rows cols = Ok st ->
  print_board size st = Ok (Grid (render R)).
Proof.
  intros Hrows Hcols HR HC Hx H.
  destruct (solve_collapsed_to size fuel rows cols R C st) as (Hk & H1 & H2); auto.
  destruct (satisfies_lengths _ _ _ HR Hrows) as [LR FR].
  destruct (satisfies_lengths _ _ _ HC Hcols) as [LC FC].
  unfold print_board.
  destruct (Nat.eqb_spec (set_len (known_rows st)) size) as [Hr|Hr].
  - rewrite (print_lines_render true (row_domains st) R); [reflexivity| | |].
    + rewrite (H1 Hr), length_map. reflexivity.
    + now rewrite LR.
    + intros i j r y Hri Hy. unfold print_cell.
      rewrite (H1 Hr). unfold getitem.
      change (map (fun l => [l]) R) with ((fun l : list bool => [l]) <$> R).
      rewrite list_lookup_fmap, Hri. cbn [fmap option_fmap option_map bind].
      cbn [lookup list_lookup]. cbn [bind]. now rewrite Hy.
  - destruct Hk as [Hk|Hk]; [contradiction|].
    rewrite (proj2 (Nat.eqb_eq _ _) Hk).
    rewrite (print_lines_render false (col_domains st) R); [reflexivity| | |].
    + rewrite (H2 Hk), length_map. lia.
    + now rewrite LR.
    + intros i j r y Hri Hy. unfold print_cell.
      assert (Hj : (j < size)%nat).
      { apply lookup_lt_Some in Hy. rewrite Forall_lookup in FR.
        rewrite (FR _ _ Hri) in Hy. exact Hy. }
      destruct (lookup_lt_is_Some_2 C j ltac:(lia)) as [c Hc].
      rewrite (H2 Hk). unfold getitem.
      change (map (fun l => [l]) C) with ((fun l : list bool => [l]) <$> C).
      rewrite list_lookup_fmap, Hc. cbn [fmap option_fmap option_map bind].
      cbn [lookup list_lookup]. cbn [bind].
      rewrite <- (Hx _ _ _ _ Hri Hc), Hy. reflexivity.
Qed.

Lemma print_board_after_solve_witness :
  print_board 1 single_cell = Ok (Grid (render [[true]])).
Proof.
  apply (print_board_after_solve 1 2 [[1%nat]] [[1%nat]] [[true]] [[true]] single_cell).
  - reflexivity.
  - reflexivity.
  - repeat constructor.
  - repeat constructor.
  - exact crossing_single.
  - vm_compute. reflexivity.
Defined.

(** ** Candidates keep the length of the line *)

Lemma paint_length (i : Z) (n : nat) (row row' : list bool) :
  for_each (range0 n) (fun row_copy j => setitem row_copy (i + j) true) row = Ok row' ->
  length row' = length row.
Proof.
  apply (for_each_inv (fun r => length r = length row)); [|reflexivity].
  intros r j r' _ Hr Hs. unfold setitem in Hs.
  destruct (norm_index (length r) (i + j)); [|discriminate].
  inv_ok. now rewrite length_insert.
Qed.

Lemma generateDomainHelper_lengths (size fuel : nat) :
  forall (nums : list nat) (domain domain' : list (list bool)) (row : list bool)
         (ls ln : Z) (index : nat) (sum : Z),
    length row = size ->
    Forall (fun c => length c = size) domain ->
    generateDomainHelper size fuel nums domain row ls ln index sum = Ok domain' ->
    Forall (fun c => length c = size) domain'.
Proof.
  induction fuel as [|fuel IH];
    intros nums domain domain' row ls ln index sum Hrow Hdom H;
    [discriminate|].
  rewrite generateDomainHelper_eq in H.
  destruct (sum =? 0).
  - inv_ok. apply Forall_app. split; [exact Hdom|]. now repeat constructor.
  - destruct (nums !! index) as [n|]; [|discriminate]. cbv zeta in H.
    revert H.
    apply (for_each_inv (fun d => Forall (fun c => length c = size) d));
      [|exact Hdom].
    intros d i d' _ Hd Hb. inv_bind Hb.
    apply paint_length in E. eapply IH; [|exact Hd|exact Hb]. lia.
Qed.

Lemma generateDomain_sized (size : nat) (nums : list nat) (domain : list (list bool)) :
  generateDomain size nums = Ok domain ->
  Forall (fun c => length c = size) domain.
Proof.
  unfold generateDomain. apply generateDomainHelper_lengths.
  - apply length_replicate.
  - constructor.
Qed.

(** X6. Every candidate that [generateDomain(nums)] returns has exactly
    [size] cells, for every [nums] (also with blocks of length zero or
    blocks that do not fit). *)
Theorem generateDomain_lengths (size : nat) (nums : list nat) (domain : list (list bool)) :
  generateDomain size nums = Ok domain ->
  Forall (fun c => length c = size) domain.
Proof.
  unfold generateDomain. apply generateDomainHelper_lengths.
  - apply length_replicate.
  - constructor.
Qed.

Lemma generateDomain_lengths_witness :
  Forall (fun c => length c = 3%nat) [[true; false; false]; [false; true; false]].
Proof.
  apply (generateDomain_lengths 3 [1; 0]%nat). reflexivity.
Defined.

(** ** No candidate twice *)

Lemma NoDup_app_In {A : Type} (l k : list A) :
  List.NoDup l -> List.NoDup k -> (forall x, In x l -> In x k -> False) ->
  List.NoDup (l ++ k).
Proof.
  induction 1 as [|x l Hx Hl IH]; intros Hk Hd; simpl; [exact Hk|].
  constructor.
  - intros Hin. apply in_app_or in Hin. destruct Hin as [Hin|Hin]; [auto|].
    apply (Hd x); [now left|exact Hin].
  - apply IH; [exact Hk|]. intros y Hy. apply Hd. now right.
Qed.

Lemma NoDup_map_inj {A B : Type} (f : A -> B) (l : list A) :
  (forall x y, f x = f y -> x = y) -> List.NoDup l -> List.NoDup (map f l).
Proof.
  intros Hf. induction 1 as [|x l Hx Hl IH]; simpl; constructor; [|exact IH].
  intros Hin. apply in_map_iff in Hin. destruct Hin as (y & Hy & Hin).
  apply Hf in Hy. now subst.
Qed.

Lemma NoDup_flat_map {A B : Type} (F : A -> list B) (xs : list A) :
  List.NoDup xs ->
  (forall x, In x xs -> List.NoDup (F x)) ->
  (forall x1 x2 y, In x1 xs -> In x2 xs -> In y (F x1) -> In y (F x2) -> x1 = x2) ->
  List.NoDup (flat_map F xs).
Proof.
  induction 1 as [|x xs Hx Hxs IH]; intros HF Hd; simpl; [constructor|].
  apply NoDup_app_In.
  - apply HF. now left.
  - apply IH.
    + intros y Hy. apply HF. now right.
    + intros x1 x2 y H1 H2. apply Hd; now right.
  - intros y Hy Hy'. apply in_flat_map in Hy'. destruct Hy' as (x' & Hx' & Hy').
    assert (x = x') by (eapply Hd; eauto; [now left|now right]).
    now subst.
Qed.

Lemma first_block_start (g1 g2 : nat) (u1 u2 : list bool) :
  replicate g1 false ++ true :: u1 = replicate g2 false ++ true :: u2 -> g1 = g2.
Proof.
  revert g2. induction g1 as [|g1 IH]; intros [|g2] H; simpl in H;
    try discriminate; [reflexivity|].
  injection H as H. f_equal. now apply IH.
Qed.

Lemma fills_NoDup (rest : list nat) : forall gap n,
  Forall (fun k => (0 < k)%nat) rest -> List.NoDup (fills gap n rest).
Proof.
  induction rest as [|k rest IH]; intros gap n Hpos; simpl.
  - repeat constructor. intros [].
  - inversion Hpos as [|k' rest' Hk Hrest]; subst k' rest'.
    apply NoDup_flat_map.
    + apply seq_NoDup.
    + intros g _. apply NoDup_map_inj; [|now apply IH].
      intros t1 t2 E. apply app_inv_head in E. now apply app_inv_head in E.
    + intros g1 g2 y _ _ H1 H2.
      apply in_map_iff in H1, H2.
      destruct H1 as (t1 & <- & _). destruct H2 as (t2 & E & _).
      destruct k as [|k]; [lia|]. simpl in E.
      symmetry. eapply first_block_start. exact E.
Qed.

(** X7. For positive block lengths that fit, [generateDomain(nums)]
    returns no candidate twice. *)
Theorem generateDomain_NoDup (N : nat) (nums : list nat) :
  Forall (fun k => (0 < k)%nat) nums ->
  fits N nums ->
  exists domain, generateDomain N nums = Ok domain /\ List.NoDup domain.
Proof.
  intros Hpos Hfit. exists (fills 0 N nums).
  split; [now apply generateDomain_fits|now apply fills_NoDup].
Qed.

Lemma generateDomain_NoDup_witness :
  exists domain, generateDomain 5 [1; 2]%nat = Ok domain /\ List.NoDup domain.
Proof.
  apply (generateDomain_NoDup 5 [1; 2]%nat).
  - repeat constructor.
  - unfold fits. simpl. lia.
Defined.

(** ** What never runs out of fuel *)

Lemma bind_fuel {A B : Type} (m : outcome A) (f : A -> outcome B) :
  m <> OutOfFuel -> (forall a, f a <> OutOfFuel) ->
  (let* x := m in f x) <> OutOfFuel.
Proof. destruct m; simpl; auto; discriminate. Qed.

Lemma getitem_fuel {A : Type} (l : list A) (i : nat) : getitem l i <> OutOfFuel.
Proof. unfold getitem. destruct (l !! i); discriminate. Qed.

Lemma reduceDomain_fuel (d : list (list bool)) (i : nat) (v : bool) :
  reduceDomain d i v <> OutOfFuel.
Proof.
  rewrite reduceDomain_cases.
  destruct (length d =? 1)%nat; [discriminate|].
  destruct (forallb _ d); discriminate.
Qed.

Lemma scan_fuel (i : nat) (cands : list (list bool)) :
  forall t f, scan cands i t f <> OutOfFuel.
Proof.
  induction cands as [|j cands IH]; intros t f; simpl; [discriminate|].
  destruct (negb t && negb f); [discriminate|].
  apply bind_fuel; [apply getitem_fuel|]. intros x. destruct (negb x); apply IH.
Qed.

Lemma getDomainIntersects_fuel (st : solver) (d : list (list bool)) (i : nat) :
  getDomainIntersects st d i <> OutOfFuel.
Proof.
  unfold getDomainIntersects. apply bind_fuel; [apply getitem_fuel|].
  intros first. apply for_each_fuel. intros l p _.
  destruct (bool_decide _); [|discriminate].
  apply bind_fuel; [apply scan_fuel|]. discriminate.
Qed.

Lemma reduceNeighborDomains_fuel (st : solver) (kd : list bool)
    (uds : list (list (list bool))) (i : nat) :
  reduceNeighborDomains st kd uds i <> OutOfFuel.
Proof.
  unfold reduceNeighborDomains. apply for_each_fuel. intros s iv _.
  destruct (snd iv); [discriminate|].
  apply bind_fuel; [apply getitem_fuel|]. intros d.
  destruct (_ && _); [|discriminate].
  apply bind_fuel; [|discriminate].
  pose proof (prune_loop_total i d []) as H. rewrite !app_nil_r in H.
  rewrite H. destruct (forallb _ d); discriminate.
Qed.

Lemma reduce_line_fuel (a ka b : side) (st : solver) (i : nat) :
  reduce_line a ka b st i <> OutOfFuel.
Proof.
  unfold reduce_line. destruct (bool_decide _); [discriminate|].
  apply bind_fuel; [apply getitem_fuel|]. intros d.
  apply bind_fuel.
  - destruct (length d =? 1)%nat; [|discriminate].
    apply bind_fuel; [apply getitem_fuel|]. intros kd.
    apply bind_fuel; [apply reduceNeighborDomains_fuel|]. discriminate.
  - intros s. apply bind_fuel; [apply getitem_fuel|]. intros d'.
    apply bind_fuel; [apply getDomainIntersects_fuel|]. intros its.
    apply for_each_fuel. intros s' it _. unfold propagate_intersect.
    apply bind_fuel; [apply getitem_fuel|]. intros d2.
    apply bind_fuel; [apply reduceDomain_fuel|]. discriminate.
Qed.

(** ** An empty domain *)

Lemma reduce_line_empty (a ka b : side) (st : solver) (i : nat) :
  domains_of a st !! i = Some [] ->
  i ∉ known_of ka st ->
  reduce_line a ka b st i = IndexError.
Proof.
  intros Hd Hk. unfold reduce_line.
  rewrite bool_decide_eq_false_2 by exact Hk.
  unfold getitem at 1. rewrite Hd. cbn [bind length Nat.eqb].
  unfold getitem at 1. rewrite Hd. cbn [bind].
  reflexivity.
Qed.

Lemma reduceDomains_empty (a b : side) (st : solver) (i : nat) :
  a <> b ->
  domains_of a st !! i = Some [] ->
  i ∉ known_of a st ->
  reduceDomains a a b st = IndexError.
Proof.
  intros Hab Hd Hk. unfold reduceDomains.
  pose proof (lookup_lt_Some _ _ _ Hd) as Hlt.
  replace (length (domains_of a st)) with (i + S (length (domains_of a st) - S i))%nat
    by lia.
  rewrite seq_app, for_each_app. cbn [seq]. rewrite Nat.add_0_l.
  destruct (for_each (seq 0 i) (reduce_line a a b) st) as [s| |] eqn:E;
    cbn [bind]; [|reflexivity|].
  - assert (G : domains_of a s = domains_of a st /\ i ∉ known_of a s).
    { revert E.
      apply (for_each_inv
               (fun s => domains_of a s = domains_of a st /\ i ∉ known_of a s));
        [|auto].
      intros s1 j s2 _ [Hs Hn] Hstep.
      pose proof (reduce_line_pass _ _ _ _ _ _ Hstep) as [_ (_ & Hdom & _)].
      split; [now rewrite (Hdom a Hab)|].
      intros Hin.
      destruct (reduce_line_known a b s1 s2 j Hab Hstep i Hin) as [H|[c H]];
        [auto|]. rewrite Hs, Hd in H. discriminate. }
    destruct G as [Hs Hn]. cbn [for_each].
    rewrite reduce_line_empty; [reflexivity|now rewrite Hs|exact Hn].
  - exfalso. revert E. apply for_each_fuel. intros; apply reduce_line_fuel.
Qed.

Lemma generate_all_fuel (size : nat) (specs : list (list nat))
    (domains : list (list (list bool))) :
  generate_all size specs domains <> OutOfFuel.
Proof.
  unfold generate_all. apply for_each_fuel. intros ds nums _.
  apply bind_fuel; [apply generateDomain_total|]. discriminate.
Qed.

(** X8. A pass [reduceDomains(domains_a, known_domains_a, domains_b)] over
    two distinct domain lists raises [IndexError] as soon as some line of
    [domains_a] that is not known has an empty domain: the read of
    [domain[0]] in [getDomainIntersects] fails. [solve] then raises too:
    on a puzzle with [size > 0] whose block lengths are all within the
    64-bit range of the source's integers, and with a row spec of positive
    blocks that overshoots the line by two cells or more, [solve] raises
    [IndexError] - in the generation phase if the generation of some line
    raises, and in the first pass otherwise, on the empty domain of that
    row. *)
Theorem empty_domain_raises (size : nat) (rows cols : list (list nat)) :
  (forall a b st i,
      a <> b -> domains_of a st !! i = Some [] -> i ∉ known_of a st ->
      reduceDomains a a b st = IndexError)
  /\ (forall fuel i nums,
         (0 < size)%nat ->
         Forall (int64_safe size) rows ->
         Forall (int64_safe size) cols ->
         rows !! i = Some nums ->
         Forall (fun k => (0 < k)%nat) nums ->
         Z.of_nat (sum_nums nums) + Z.of_nat (length nums) - 1 > Z.of_nat size + 1 ->
         solve size (S fuel) rows cols = IndexError).
Proof.
  split; [intros a b st i Hab Hd Hk; now apply (reduceDomains_empty a b st i)|].
  intros fuel i nums Hsize Hrows Hcols Hi Hpos Hfar.
  assert (Hsafe : int64_safe size nums).
  { exact (Forall_lookup_1 _ _ _ _ Hrows Hi). }
  unfold solve. simpl row_domains. simpl col_domains.
  destruct (generate_all size rows []) as [rds| |] eqn:Hr;
    [|reflexivity|now apply generate_all_fuel in Hr].
  cbn [bind].
  destruct (generate_all size cols []) as [cds| |] eqn:Hc;
    [|reflexivity|now apply generate_all_fuel in Hc].
  cbn [bind].
  apply generate_all_each in Hr. destruct Hr as (new & -> & Hnew). simpl in Hnew |- *.
  destruct (Forall2_lookup_r _ _ _ _ _ Hnew Hi) as (d & Hd & Hgen).
  rewrite generateDomain_far in Hgen by assumption. inv_ok.
  assert (Hs : searching size (Solver new cds ∅ ∅ ∅ true) = true).
  { apply searching_spec.
    assert (H0 : set_len (∅ : gset nat) = 0%nat) by reflexivity.
    cbn [known_rows known_cols]. rewrite H0. lia. }
  rewrite Hs. unfold solve_round.
  rewrite (reduceDomains_empty Rows Cols _ i); [reflexivity|discriminate|exact Hd|].
  simpl. set_solver.
Qed.

Lemma empty_domain_raises_witness :
  solve 2 1 [[1]; [4]]%nat [[1]; [1]]%nat = IndexError.
Proof.
  apply (proj2 (empty_domain_raises 2 [[1]; [4]]%nat [[1]; [1]]%nat)
           0%nat 1%nat [4%nat]).
  - lia.
  - repeat constructor; vm_compute; reflexivity.
  - repeat constructor; vm_compute; reflexivity.
  - reflexivity.
  - repeat constructor.
  - simpl. lia.
Defined.

(** ** The shape of the solver during propagation *)

Lemma shrinks_well_sized (n : nat) (ds' ds : list (list (list bool))) :
  shrinks ds' ds -> well_sized n ds -> well_sized n ds'.
Proof.
  unfold shrinks, well_sized. induction 1 as [|d' d ds' ds [Hs _] _ IH];
    intros Hall; [constructor|].
  inversion Hall as [|d0 ds0 Hd Hds]; subst. constructor; [|auto].
  apply Forall_forall. intros c Hc. rewrite Forall_forall in Hd.
  apply Hd. eapply elem_of_sublist; eassumption.
Qed.

Lemma getDomainIntersects_positions (st : solver) (domain : list (list bool))
    (index : nat) (intersects : list (nat * bool)) (first : list bool) :
  getDomainIntersects st domain index = Ok intersects ->
  domain !! 0%nat = Some first ->
  forall it, In it intersects -> (fst it < length first)%nat.
Proof.
  unfold getDomainIntersects. intros H Hf. inv_bind H. inv_ok.
  rewrite Hf in E. injection E as <-. revert H.
  apply (for_each_inv (fun l => forall it, In it l -> (fst it < length first)%nat));
    [|intros it []].
  intros l i l' Hi Hl Hb. apply in_seq in Hi.
  destruct (bool_decide _); [|inv_ok; exact Hl].
  inv_bind Hb. inv_ok. intros it Hin.
  destruct (fst x), (snd x);
    repeat (apply in_app_or in Hin; destruct Hin as [Hin|Hin]);
    auto; destruct Hin as [<-|[]]; simpl; lia.
Qed.

Lemma known_intersects_collapse_step (ka b : side) (st st' : solver) (i : nat)
    (domain : list (list bool)) :
  (if (length domain =? 1)%nat then
     let* known_domain := getitem domain 0 in
     let* ds := reduceNeighborDomains st known_domain (domains_of b st) i in
     Ok (add_known ka i (set_domains b ds st))
   else Ok st) = Ok st' ->
  known_intersects st' = known_intersects st
  /\ is_searching_rows st' = is_searching_rows st.
Proof.
  destruct (length domain =? 1)%nat; intros H; [|now inv_ok].
  inv_bind H. inv_bind H. inv_ok. destruct ka, b; auto.
Qed.

Lemma reduce_line_triples (n : nat) (a b : side) (st st' : solver) (i : nat) :
  a <> b -> (i < n)%nat ->
  well_sized n (domains_of a st) ->
  (forall t, t ∈ known_intersects st -> (snd (fst t) < n)%nat /\ (snd t < n)%nat) ->
  reduce_line a a b st i = Ok st' ->
  forall t, t ∈ known_intersects st' -> (snd (fst t) < n)%nat /\ (snd t < n)%nat.
Proof.
  intros Hab Hi Hws Hki H. unfold reduce_line in H.
  destruct (bool_decide (i ∈ known_of a st)); [now inv_ok|].
  inv_bind H. inv_bind H. inv_bind H. inv_bind H. inv_ok.
  pose proof (collapse_step a b _ _ _ _ E0) as [_ (_ & Hdom & _)].
  apply known_intersects_collapse_step in E0. destruct E0 as [Hki0 _].
  rewrite (Hdom a Hab) in E1.
  assert (Hpos : forall it, In it x2 -> (fst it < n)%nat).
  { intros it Hit. destruct x1 as [|first rest].
    - unfold getDomainIntersects in E2. simpl in E2. discriminate.
    - pose proof (getDomainIntersects_positions _ _ _ _ first E2 eq_refl it Hit) as Hp.
      unfold well_sized in Hws. rewrite Forall_lookup in Hws.
      specialize (Hws _ _ E1). inversion Hws; subst. lia. }
  revert H.
  apply (for_each_inv
           (fun s => forall t, t ∈ known_intersects s ->
                               (snd (fst t) < n)%nat /\ (snd t < n)%nat)).
  - intros s it s' Hit Hs Hstep. unfold propagate_intersect in Hstep.
    inv_bind Hstep. inv_bind Hstep. inv_ok.
    intros t Ht. simpl in Ht.
    assert (Ht' : t ∈ ({[(is_searching_rows s, i, fst it)]} : gset (bool * nat * nat))
                  ∪ known_intersects s).
    { destruct b; exact Ht. }
    apply elem_of_union in Ht'. destruct Ht' as [Ht'|Ht']; [|auto].
    apply elem_of_singleton in Ht'. subst t. simpl. split; [lia|auto].
  - intros t Ht. rewrite Hki0 in Ht. auto.
Qed.

Lemma reduceDomains_wf (n : nat) (a b : side) (st st' : solver) :
  a <> b ->
  wf n st ->
  reduceDomains a a b st = Ok st' ->
  wf n st'.
Proof.
  intros Hab Hwf H.
  pose proof (reduceDomains_pass _ _ _ _ _ H) as [He _].
  destruct Hwf as (LR & LC & WR & WC & CR & CC & KI).
  pose proof (Forall2_length _ _ _ (evolves_domains_of Rows _ _ He)) as LR'.
  pose proof (Forall2_length _ _ _ (evolves_domains_of Cols _ _ He)) as LC'.
  pose proof (shrinks_well_sized n _ _ (evolves_domains_of Rows _ _ He) WR) as WR'.
  pose proof (shrinks_well_sized n _ _ (evolves_domains_of Cols _ _ He) WC) as WC'.
  simpl in LR', LC', WR', WC'.
  assert (Hc : collapsed a st' /\ collapsed b st').
  { eapply reduceDomains_collapsed; [exact Hab|exact H|].
    destruct a, b; try congruence; auto. }
  assert (Hk : forall t, t ∈ known_intersects st' ->
                         (snd (fst t) < n)%nat /\ (snd t < n)%nat).
  { revert H. unfold reduceDomains.
    assert (Hlen : length (domains_of a st) = n) by (destruct a; assumption).
    rewrite Hlen.
    apply (for_each_inv
             (fun s => evolves st s
                       /\ forall t, t ∈ known_intersects s ->
                                     (snd (fst t) < n)%nat /\ (snd t < n)%nat));
      [|split; [apply evolves_refl|exact KI]].
    intros s i s' Hi [Hes Hs] Hstep. apply in_seq in Hi.
    pose proof (reduce_line_pass _ _ _ _ _ _ Hstep) as [He1 _].
    split; [eapply evolves_trans; eassumption|].
    eapply (reduce_line_triples n a b s s' i); eauto; [lia|].
    eapply shrinks_well_sized; [apply evolves_domains_of; exact Hes|].
    destruct a; assumption. }
  unfold wf. repeat split; try lia; auto;
    try (destruct a, b; try congruence; tauto); apply Hk; assumption.
Qed.

Lemma wf_flip (n : nat) (st : solver) : wf n st -> wf n (flip st).
Proof. unfold wf, collapsed. simpl. auto. Qed.

Lemma solve_round_wf (n size : nat) (st st' : solver) :
  wf n st -> solve_round size st = Ok st' -> wf n st'.
Proof.
  unfold solve_round. intros Hwf H. inv_bind H.
  apply (reduceDomains_wf n) in E; [|discriminate|exact Hwf].
  destruct (negb (set_len (known_rows (flip x)) =? size)%nat).
  - inv_bind H. inv_ok. apply wf_flip.
    eapply reduceDomains_wf; [|apply wf_flip; exact E|exact E0]. discriminate.
  - inv_ok. now apply wf_flip.
Qed.

Lemma solve_loop_wf (n size fuel : nat) : forall st st',
  wf n st -> solve_loop size fuel st = Ok st' -> wf n st'.
Proof.
  induction fuel as [|fuel IH]; intros st st' Hwf H; simpl in H; [discriminate|].
  destruct (searching size st); [|now inv_ok].
  inv_bind H. eapply IH; [|exact H]. eapply solve_round_wf; eassumption.
Qed.

Lemma generate_all_wf (size : nat) (rows cols : list (list nat))
    (rds cds : list (list (list bool))) :
  length rows = size -> length cols = size ->
  generate_all size rows [] = Ok rds ->
  generate_all size cols [] = Ok cds ->
  wf size (Solver rds cds ∅ ∅ ∅ true).
Proof.
  intros Hr Hc Er Ec.
  pose proof (generate_all_length _ _ _ _ Er) as Lr.
  pose proof (generate_all_length _ _ _ _ Ec) as Lc.
  apply generate_all_each in Er, Ec.
  destruct Er as (r & -> & Hgr). destruct Ec as (c & -> & Hgc).
  simpl in *.
  assert (Hws : forall ds specs,
             Forall2 (fun d nums => generateDomain size nums = Ok d) ds specs ->
             well_sized size ds).
  { intros ds specs. induction 1; constructor; auto.
    eapply generateDomain_sized; eassumption. }
  unfold wf, collapsed. simpl.
  split; [lia|]. split; [lia|].
  split; [eapply Hws; exact Hgr|]. split; [eapply Hws; exact Hgc|].
  split; [intros i Hi; set_solver|]. split; [intros i Hi; set_solver|].
  intros t Ht. set_solver.
Qed.

(** ** print_board never fails after solve *)

Lemma for_each_total {B : Type} (f : nat -> outcome B) (n : nat) :
  (forall j, (j < n)%nat -> exists y, f j = Ok y) ->
  forall acc,
  exists l,
    for_each (seq 0 n)
      (fun (acc : list B) (j : nat) => let* g := f j in Ok (acc ++ [g])) acc
    = Ok (acc ++ l) /\ length l = n.
Proof.
  induction n as [|n IH]; intros Hf acc.
  - exists []. simpl. now rewrite app_nil_r.
  - destruct (IH (fun j Hj => Hf j (Nat.lt_lt_succ_r _ _ Hj)) acc) as (l & E & Hl).
    destruct (Hf n (Nat.lt_succ_diag_r n)) as [y Hy].
    exists (l ++ [y]). rewrite seq_S, for_each_app, E. cbn [bind for_each].
    rewrite Nat.add_0_l, Hy. cbn [bind].
    split; [now rewrite app_assoc|]. rewrite length_app. simpl. lia.
Qed.

Lemma print_lines_total (rows : bool) (n : nat) (sd : list (list (list bool))) :
  length sd = n ->
  well_sized n sd ->
  Forall (fun d => length d = 1%nat) sd ->
  exists lines,
    print_lines rows sd = Ok lines
    /\ length lines = n /\ Forall (fun line => length line = n) lines.
Proof.
  intros Hlen Hws Hone.
  assert (Hcell : forall i j, (i < n)%nat -> (j < n)%nat ->
                              exists g, print_cell rows sd i j = Ok g).
  { assert (G : forall i j, (i < n)%nat -> (j < n)%nat ->
                exists d c y, sd !! i = Some d /\ d !! 0%nat = Some c
                              /\ c !! j = Some y).
    { intros i j Hi Hj.
      destruct (lookup_lt_is_Some_2 sd i ltac:(lia)) as [d Hd].
      unfold well_sized in Hws. rewrite Forall_lookup in Hws, Hone.
      specialize (Hws _ _ Hd). specialize (Hone _ _ Hd).
      destruct (length_1_singleton d Hone) as [c ->].
      inversion Hws as [|c0 l0 Hc _]; subst.
      destruct (lookup_lt_is_Some_2 c j ltac:(lia)) as [y Hy].
      exists [c], c, y. auto. }
    intros i j Hi Hj. unfold print_cell, getitem. destruct rows.
    - destruct (G i j Hi Hj) as (d & c & y & Hd & Hc & Hy).
      rewrite Hd. cbn [bind]. rewrite Hc. cbn [bind]. rewrite Hy. cbn [bind].
      eauto.
    - destruct (G j i Hj Hi) as (d & c & y & Hd & Hc & Hy).
      rewrite Hd. cbn [bind]. rewrite Hc. cbn [bind]. rewrite Hy. cbn [bind].
      eauto. }
  unfold print_lines. rewrite Hlen.
  assert (Hline : forall i, (i < n)%nat ->
            exists line,
              for_each (seq 0 n)
                (fun (line : list glyph) (j : nat) =>
                   let* g := print_cell rows sd i j in Ok (line ++ [g])) []
              = Ok line /\ length line = n).
  { intros i Hi.
    destruct (for_each_total (print_cell rows sd i) n (fun j Hj => Hcell i j Hi Hj) [])
      as (l & E & Hl). exists l. auto. }
  clear Hcell.
  assert (G : forall m, (m <= n)%nat ->
            exists lines,
              for_each (seq 0 m)
                (fun (lines : list (list glyph)) (i : nat) =>
                   let* line :=
                     for_each (seq 0 n)
                       (fun (line : list glyph) (j : nat) =>
                          let* g := print_cell rows sd i j in Ok (line ++ [g])) [] in
                   Ok (lines ++ [line])) []
              = Ok lines
              /\ length lines = m /\ Forall (fun line => length line = n) lines).
  { induction m as [|m IH]; intros Hm.
    - exists []. simpl. auto.
    - destruct (IH ltac:(lia)) as (lines & E & Hl & Hall).
      destruct (Hline m ltac:(lia)) as (line & El & Hll).
      exists (lines ++ [line]). rewrite seq_S, for_each_app, E.
      cbn [bind for_each]. rewrite Nat.add_0_l, El. cbn [bind].
      split; [reflexivity|]. split.
      + rewrite length_app. simpl. lia.
      + apply Forall_app. split; [exact Hall|]. now repeat constructor. }
  apply G. lia.
Qed.

(** X9. [print_board] never fails after [solve]: when [solve] returns on a
    puzzle with [size] row specs and [size] column specs - solvable or not
    - [print_board] raises nothing, does not write the line
    [Solve the puzzle first!], and writes [size] lines of [size]
    characters. *)
Theorem print_board_total (size fuel : nat) (rows cols : list (list nat)) (st : solver) :
  length rows = size -> length cols = size ->
  solve size fuel rows cols = Ok st ->
  exists lines,
    print_board size st = Ok (Grid lines)
    /\ length lines = size /\ Forall (fun line => length line = size) lines.
Proof.
  intros Hrows Hcols H. unfold solve in H. inv_bind H. inv_bind H.
  pose proof (generate_all_wf size rows cols _ _ Hrows Hcols E E0) as Hwf.
  pose proof (solve_loop_wf size _ _ _ _ Hwf H) as (LR & LC & WR & WC & CR & CC & _).
  pose proof (solve_loop_stopped _ _ _ _ H) as Hk.
  unfold print_board.
  destruct (Nat.eqb_spec (set_len (known_rows st)) size) as [Hr|Hr].
  - destruct (print_lines_total true size (row_domains st) LR WR) as (l & -> & Hl).
    + now apply (known_all_singletons Rows size st).
    + exists l. auto.
  - destruct Hk as [Hk|Hk]; [contradiction|].
    rewrite (proj2 (Nat.eqb_eq _ _) Hk).
    destruct (print_lines_total false size (col_domains st) LC WC) as (l & -> & Hl).
    + now apply (known_all_singletons Cols size st).
    + exists l. auto.
Qed.

Lemma print_board_total_witness :
  exists lines,
    print_board 1 single_cell = Ok (Grid lines)
    /\ length lines = 1%nat /\ Forall (fun line => length line = 1%nat) lines.
Proof.
  apply (print_board_total 1 2 [[1%nat]] [[1%nat]] single_cell).
  - reflexivity.
  - reflexivity.
  - vm_compute. reflexivity.
Defined.

(** X10. What [solve] leaves behind. When [solve] returns on a puzzle with
    [size] row specs and [size] column specs, there are still [size] row
    domains and [size] column domains of candidates of [size] cells; every
    index in [known_rows] or [known_cols] is the index of a line whose
    domain has exactly one candidate; and every triple in
    [known_intersects] names a line and a cell of the board. *)
Theorem solve_result_shape (size fuel : nat) (rows cols : list (list nat)) (st : solver) :
  length rows = size -> length cols = size ->
  solve size fuel rows cols = Ok st ->
  length (row_domains st) = size
  /\ length (col_domains st) = size
  /\ well_sized size (row_domains st)
  /\ well_sized size (col_domains st)
  /\ (forall i, i ∈ known_rows st ->
                (i < size)%nat /\ exists c, row_domains st !! i = Some [c])
  /\ (forall j, j ∈ known_cols st ->
                (j < size)%nat /\ exists c, col_domains st !! j = Some [c])
  /\ (forall f i p, (f, i, p) ∈ known_intersects st -> (i < size)%nat /\ (p < size)%nat).
Proof.
  intros Hrows Hcols H. unfold solve in H. inv_bind H. inv_bind H.
  pose proof (generate_all_wf size rows cols _ _ Hrows Hcols E E0) as Hwf.
  pose proof (solve_loop_wf size _ _ _ _ Hwf H) as (LR & LC & WR & WC & CR & CC & KI).
  split; [exact LR|]. split; [exact LC|]. split; [exact WR|]. split; [exact WC|].
  split; [|split].
  - intros i Hi. destruct (CR i Hi) as [c Hc]. split; [|eauto].
    apply lookup_lt_Some in Hc. simpl in Hc. lia.
  - intros j Hj. destruct (CC j Hj) as [c Hc]. split; [|eauto].
    apply lookup_lt_Some in Hc. simpl in Hc. lia.
  - intros f i p Ht. apply (KI (f, i, p) Ht).
Qed.

Lemma solve_result_shape_witness :
  length (row_domains single_cell) = 1%nat
  /\ length (col_domains single_cell) = 1%nat
  /\ well_sized 1 (row_domains single_cell)
  /\ well_sized 1 (col_domains single_cell)
  /\ (forall i, i ∈ known_rows single_cell ->
                (i < 1)%nat /\ exists c, row_domains single_cell !! i = Some [c])
  /\ (forall j, j ∈ known_cols single_cell ->
                (j < 1)%nat /\ exists c, col_domains single_cell !! j = Some [c])
  /\ (forall f i p, (f, i, p) ∈ known_intersects single_cell ->
                    (i < 1)%nat /\ (p < 1)%nat).
Proof.
  apply (solve_result_shape 1 2 [[1%nat]] [[1%nat]] single_cell).
  - reflexivity.
  - reflexivity.
  - vm_compute. reflexivity.
Defined.

(** X11. A solved line is final. A domain of exactly one candidate is the
    same domain after any pass [reduceDomains], and still when the loop of
    [solve] returns: no operation reduces it further or empties it. *)
Theorem single_candidate_is_final (st : solver) :
  (forall a ka b st' s i c,
      reduceDomains a ka b st = Ok st' ->
      domains_of s st !! i = Some [c] -> domains_of s st' !! i = Some [c])
  /\ (forall size fuel st' s i c,
         solve_loop size fuel st = Ok st' ->
         domains_of s st !! i = Some [c] -> domains_of s st' !! i = Some [c]).
Proof.
  split.
  - intros a ka b st' s i c H Hl. apply reduceDomains_pass in H.
    destruct H as [He _]. eapply shrinks_singleton; [|exact Hl].
    now apply evolves_domains_of.
  - intros size fuel st' s i c H Hl. apply solve_loop_evolves in H.
    eapply shrinks_singleton; [|exact Hl]. now apply evolves_domains_of.
Qed.

Lemma single_candidate_is_final_witness :
  domains_of Rows cross_after !! 0%nat = Some [[true; true; true]].
Proof.
  apply (proj1 (single_candidate_is_final cross) Rows Rows Cols cross_after Rows 0%nat).
  - vm_compute. reflexivity.
  - reflexivity.
Defined.

(** ** How long the loop of solve can run *)

Lemma reduceDomains_fuel (a ka b : side) (st : solver) :
  reduceDomains a ka b st <> OutOfFuel.
Proof.
  unfold reduceDomains. apply for_each_fuel. intros; apply reduce_line_fuel.
Qed.

Lemma solve_round_fuel (size : nat) (st : solver) : solve_round size st <> OutOfFuel.
Proof.
  unfold solve_round. apply bind_fuel; [apply reduceDomains_fuel|]. intros s.
  destruct (negb _); [|discriminate].
  apply bind_fuel; [apply reduceDomains_fuel|]. discriminate.
Qed.

Lemma solve_loop_fixpoint (size : nat) (st : solver) :
  searching size st = true -> solve_round size st = Ok st ->
  forall fuel, solve_loop size fuel st = OutOfFuel.
Proof.
  intros Hs Hr. induction fuel as [|fuel IH]; simpl; [reflexivity|].
  now rewrite Hs, Hr.
Qed.

Lemma proper_subset_size `{Countable A} (X Y : gset A) :
  X ⊆ Y -> Y <> X -> (size X < size Y)%nat.
Proof.
  intros Hsub Hne. apply subset_size. split; [exact Hsub|].
  intros Hsup. apply Hne. set_solver.
Qed.

Lemma round_progress (size : nat) (st st' : solver) :
  searching size st = true ->
  solve_round size st = Ok st' ->
  st' = st \/ (recorded st < recorded st')%nat.
Proof.
  intros Hs H. pose proof (solve_round_evolves _ _ _ H) as (_ & _ & KR & KC & KI).
  pose proof (subseteq_size _ _ KR) as SR.
  pose proof (subseteq_size _ _ KC) as SC.
  pose proof (subseteq_size _ _ KI) as SI.
  unfold recorded, set_len.
  destruct (decide (known_rows st' = known_rows st)) as [ER|NR].
  - destruct (decide (known_cols st' = known_cols st)) as [EC|NC].
    + destruct (decide (known_intersects st' = known_intersects st)) as [EI|NI].
      * left. eapply solve_round_no_news; eassumption.
      * right. pose proof (proper_subset_size _ _ KI NI). lia.
    + right. pose proof (proper_subset_size _ _ KC NC). lia.
  - right. pose proof (proper_subset_size _ _ KR NR). lia.
Qed.

Lemma difference_sub `{Countable A} (X Y : gset A) : X ∖ Y ⊆ X.
Proof. intros x Hx. apply elem_of_difference in Hx. tauto. Qed.

Lemma size_list_to_set_le `{Countable A} (l : list A) :
  (size (list_to_set l : gset A) <= length l)%nat.
Proof.
  induction l as [|x l IH].
  - rewrite list_to_set_nil, size_empty. reflexivity.
  - rewrite list_to_set_cons, size_union_alt, size_singleton.
    pose proof (subseteq_size _ _ (difference_sub (list_to_set l) {[x]})).
    simpl. lia.
Qed.

Lemma sum_nums_const (n : nat) (l : list nat) :
  sum_nums (map (fun _ => n) l) = (length l * n)%nat.
Proof.
  induction l as [|x l IH]; simpl; [reflexivity|].
  fold (sum_nums (map (fun _ : nat => n) l)). rewrite IH. lia.
Qed.

Lemma all_triples_length (n : nat) : length (all_triples n) = (2 * n * n)%nat.
Proof.
  unfold all_triples. simpl. rewrite app_nil_r, length_app.
  assert (G : forall f : bool,
             length (flat_map (fun i => map (fun p => (f, i, p)) (seq 0 n)) (seq 0 n))
             = (n * n)%nat).
  { intros f. rewrite length_flat_map_sum.
    rewrite (sum_nums_map_ext _ (fun _ => n))
      by (intros; now rewrite length_map, length_seq).
    now rewrite sum_nums_const, length_seq. }
  rewrite !G. lia.
Qed.

Lemma all_triples_elem (n : nat) (f : bool) (i p : nat) :
  (i < n)%nat -> (p < n)%nat -> (f, i, p) ∈ all_triples n.
Proof.
  intros Hi Hp. apply list_elem_of_In. unfold all_triples.
  apply in_flat_map. exists f. split; [destruct f; simpl; auto|].
  apply in_flat_map. exists i. split; [apply in_seq; lia|].
  apply in_map_iff. exists p. split; [reflexivity|apply in_seq; lia].
Qed.

Lemma known_bound (a : side) (n : nat) (st : solver) :
  collapsed a st -> length (domains_of a st) = n ->
  (set_len (known_of a st) <= n)%nat.
Proof.
  intros Hc Hlen. unfold set_len.
  rewrite <- (size_set_seq (C:=gset nat) 0 n). apply subseteq_size.
  intros j Hj. destruct (Hc j Hj) as [c Hl].
  apply lookup_lt_Some in Hl. apply elem_of_set_seq. lia.
Qed.

Lemma recorded_bound (n : nat) (st : solver) :
  wf n st -> (recorded st <= 2 * n + 2 * n * n)%nat.
Proof.
  intros (LR & LC & _ & _ & CR & CC & KI). unfold recorded.
  pose proof (known_bound Rows n st CR LR) as BR.
  pose proof (known_bound Cols n st CC LC) as BC.
  simpl in BR, BC.
  assert (BI : (size (known_intersects st) <= 2 * n * n)%nat).
  { rewrite <- all_triples_length.
    etransitivity; [|apply (size_list_to_set_le (all_triples n))].
    apply subseteq_size. intros [[f i] p] Ht.
    apply elem_of_list_to_set. destruct (KI _ Ht) as [Hi Hp].
    now apply all_triples_elem. }
  lia.
Qed.

(** With enough iterations for every fact that can still be recorded, the
    loop has returned or raised, or it is caught in a state that an
    iteration maps to itself. *)
Lemma solve_loop_decided (n size : nat) : forall k st,
  wf n st ->
  (2 * n + 2 * n * n < k + recorded st)%nat ->
  solve_loop size k st <> OutOfFuel
  \/ forall fuel, solve_loop size fuel st = OutOfFuel.
Proof.
  induction k as [|k IH]; intros st Hwf Hk.
  - pose proof (recorded_bound n st Hwf). lia.
  - cbn [solve_loop]. destruct (searching size st) eqn:Hs; [|left; discriminate].
    destruct (solve_round size st) as [st'| |] eqn:Hr; cbn [bind].
    + destruct (round_progress size st st' Hs Hr) as [->|Hlt].
      * right. now apply solve_loop_fixpoint.
      * destruct (IH st') as [Hl|Hl].
        -- eapply solve_round_wf; eassumption.
        -- lia.
        -- now left.
        -- right. intros [|fuel]; [reflexivity|].
           cbn [solve_loop]. rewrite Hs, Hr. cbn [bind]. apply Hl.
    + left. discriminate.
    + now apply solve_round_fuel in Hr.
Qed.

Lemma solve_loop_more_fuel (size : nat) : forall k st,
  solve_loop size k st <> OutOfFuel ->
  forall m, solve_loop size (k + m) st = solve_loop size k st.
Proof.
  induction k as [|k IH]; intros st H m; [now destruct H|].
  cbn [solve_loop Nat.add] in *. destruct (searching size st); [|reflexivity].
  destruct (solve_round size st) as [st'| |]; cbn [bind] in *; auto.
Qed.

(** X12. The loop of [solve] is decided after
    [2 * size * size + 2 * size + 1] iterations. On a puzzle with [size]
    row specs and [size] column specs, whatever [solve] has done within
    that many iterations - returned, raised, or neither - is what it does
    with any larger number of iterations: if it has not returned or raised
    by then, it never will. *)
Theorem solve_rounds_bound (size : nat) (rows cols : list (list nat)) (fuel : nat) :
  length rows = size -> length cols = size ->
  (2 * size * size + 2 * size + 1 <= fuel)%nat ->
  solve size fuel rows cols
  = solve size (2 * size * size + 2 * size + 1) rows cols.
Proof.
  intros Hrows Hcols Hfuel. unfold solve.
  destruct (generate_all size rows (row_domains init)) as [rds| |] eqn:Er;
    cbn [bind]; try reflexivity.
  destruct (generate_all size cols (col_domains init)) as [cds| |] eqn:Ec;
    cbn [bind]; try reflexivity.
  pose proof (generate_all_wf size rows cols _ _ Hrows Hcols Er Ec) as Hwf.
  destruct (solve_loop_decided size size (2 * size * size + 2 * size + 1) _ Hwf)
    as [Hd|Hd].
  - lia.
  - replace fuel
      with ((2 * size * size + 2 * size + 1)
            + (fuel - (2 * size * size + 2 * size + 1)))%nat by lia.
    now apply solve_loop_more_fuel.
  - simpl known_rows in *. simpl known_cols in *. simpl known_intersects in *.
    simpl is_searching_rows in *. now rewrite !Hd.
Qed.

Lemma solve_rounds_bound_witness :
  solve 2 100 [[1]; [1]]%nat [[1]; [1]]%nat
  = solve 2 (2 * 2 * 2 + 2 * 2 + 1) [[1]; [1]]%nat [[1]; [1]]%nat.
Proof.
  apply (solve_rounds_bound 2 [[1]; [1]]%nat [[1]; [1]]%nat 100).
  - reflexivity.
  - reflexivity.
  - simpl. lia.
Defined.

(** ** Which lines a pass marks as known *)

Lemma reduce_line_marks (a b : side) (st st' : solver) (i : nat) (c : list bool) :
  domains_of a st !! i = Some [c] ->
  reduce_line a a b st i = Ok st' ->
  i ∈ known_of a st'.
Proof.
  intros Hd H. unfold reduce_line in H.
  destruct (bool_decide_reflect (i ∈ known_of a st)) as [Hk|Hk];
    [inv_ok; exact Hk|].
  inv_bind H. inv_bind H. inv_bind H. inv_bind H. inv_ok.
  rewrite Hd in E. injection E as <-. cbn [length Nat.eqb] in E0.
  inv_bind E0. inv_bind E0. inv_ok.
  pose proof (propagate_intersects_pass a b _ _ _ _ H) as [He _].
  apply (evolves_known_of a) in He. apply He.
  destruct a; simpl; apply elem_of_union; left; now apply elem_of_singleton.
Qed.

Lemma reduce_lines_known (a b : side) (xs : list nat) (st st' : solver) :
  a <> b ->
  for_each xs (reduce_line a a b) st = Ok st' ->
  domains_of a st' = domains_of a st
  /\ known_of a st ⊆ known_of a st'
  /\ (forall j, j ∈ known_of a st' ->
                j ∈ known_of a st \/ exists c, domains_of a st !! j = Some [c])
  /\ (forall j c, In j xs -> domains_of a st !! j = Some [c] -> j ∈ known_of a st').
Proof.
  intros Hab. revert st. induction xs as [|i xs IH]; intros st H.
  - simpl in H. inv_ok. repeat split; auto. intros j c [].
  - cbn [for_each] in H. inv_bind H.
    pose proof (reduce_line_pass _ _ _ _ _ _ E) as [He (_ & Hd & _)].
    specialize (Hd a Hab). apply (evolves_known_of a) in He.
    destruct (IH _ H) as (Hd' & Hsub & Hfrom & Hto). clear IH.
    rewrite Hd in Hd'. split; [exact Hd'|].
    split; [etransitivity; eassumption|]. split.
    + intros j Hj. destruct (Hfrom j Hj) as [Hx|(c & Hc)].
      * exact (reduce_line_known a b st x i Hab E j Hx).
      * right. rewrite Hd in Hc. eauto.
    + intros j c [->|Hin] Hc.
      * apply Hsub. eapply reduce_line_marks; eassumption.
      * apply (Hto j c Hin). rewrite Hd. exact Hc.
Qed.

(** X13. A pass [reduceDomains(domains_a, known_domains_a, domains_b)] over
    two distinct domain lists marks as known exactly the lines of
    [domains_a] that have one candidate: afterwards [known_domains_a] holds
    what it held before and the indices of the one-candidate domains of
    [domains_a], and nothing else. Lines that collapse in [domains_b]
    during the pass are not marked. *)
Theorem reduceDomains_marks_collapsed (a b : side) (st st' : solver) :
  a <> b ->
  reduceDomains a a b st = Ok st' ->
  (forall i, i ∈ known_of a st' <->
             i ∈ known_of a st \/ exists c, domains_of a st !! i = Some [c])
  /\ known_of b st' = known_of b st.
Proof.
  intros Hab H.
  pose proof (reduceDomains_pass _ _ _ _ _ H) as [_ (_ & _ & Hk)].
  split; [|apply Hk; congruence].
  unfold reduceDomains in H.
  destruct (reduce_lines_known a b _ _ _ Hab H) as (_ & Hsub & Hfrom & Hto).
  intros i. split; [apply Hfrom|].
  intros [Hi|[c Hc]]; [now apply Hsub|].
  eapply Hto; [|exact Hc]. apply in_seq.
  apply lookup_lt_Some in Hc. lia.
Qed.

Lemma reduceDomains_marks_collapsed_witness :
  (forall i, i ∈ known_of Rows cross_after <->
             i ∈ known_of Rows cross \/ exists c, domains_of Rows cross !! i = Some [c])
  /\ known_of Cols cross_after = known_of Cols cross.
Proof.
  apply (reduceDomains_marks_collapsed Rows Cols cross cross_after).
  - discriminate.
  - vm_compute. reflexivity.
Defined.

(** ** When a pass raises *)

Lemma for_each_ok {S X : Type} (P : S -> Prop) (xs : list X)
    (body : S -> X -> outcome S) :
  (forall s x, In x xs -> P s -> exists s', body s x = Ok s' /\ P s') ->
  forall s, P s -> exists s', for_each xs body s = Ok s' /\ P s'.
Proof.
  induction xs as [|x xs IH]; intros Hb s Hs; simpl; [eauto|].
  destruct (Hb s x (or_introl eq_refl) Hs) as (s1 & -> & Hs1). cbn [bind].
  apply IH; [|exact Hs1]. intros s2 y Hy. apply Hb. now right.
Qed.

Lemma enumerate_In {A : Type} (l : list A) (p : nat) (v : A) :
  In (p, v) (enumerate l) -> l !! p = Some v.
Proof.
  induction l as [|x l IH] using rev_ind; [intros []|].
  rewrite enumerate_snoc. intros Hin. apply in_app_or in Hin.
  destruct Hin as [Hin|[Hin|[]]].
  - specialize (IH Hin). rewrite lookup_app_l; [exact IH|].
    now apply lookup_lt_Some in IH.
  - injection Hin as <- <-. now apply list_lookup_middle.
Qed.

Lemma well_sized_valid (n i : nat) (ds : list (list (list bool))) (p : nat)
    (d : list (list bool)) :
  well_sized n ds -> ds !! p = Some d -> (i < n)%nat ->
  forallb (fun c => (i <? length c)%nat) d = true.
Proof.
  intros Hws Hd Hi. unfold well_sized in Hws. rewrite Forall_lookup in Hws.
  specialize (Hws _ _ Hd). apply forallb_forall. intros c Hc.
  apply list_elem_of_In in Hc. rewrite Forall_forall in Hws.
  rewrite (Hws c Hc). now apply Nat.ltb_lt.
Qed.

Lemma well_sized_insert_filter (n p : nat) (ds : list (list (list bool)))
    (d : list (list bool)) (P : list bool -> Prop) `{!forall c, Decision (P c)} :
  well_sized n ds -> ds !! p = Some d -> well_sized n (<[p := filter P d]> ds).
Proof.
  intros Hws Hd. unfold well_sized in *. apply Forall_insert; [exact Hws|].
  rewrite Forall_lookup in Hws. specialize (Hws _ _ Hd).
  apply Forall_forall. intros c Hc. apply list_elem_of_filter in Hc.
  rewrite Forall_forall in Hws. apply Hws. tauto.
Qed.

Lemma reduceNeighborDomains_ok (n : nat) (st : solver) (kd : list bool)
    (uds : list (list (list bool))) (i : nat) :
  length uds = n -> well_sized n uds -> (length kd <= n)%nat -> (i < n)%nat ->
  exists uds', reduceNeighborDomains st kd uds i = Ok uds'.
Proof.
  intros Hlen Hws Hkd Hi. unfold reduceNeighborDomains.
  destruct (for_each_ok (fun s => length s = n /\ well_sized n s) (enumerate kd)
              (fun (unknown_domains : list (list (list bool))) (iv : nat * bool) =>
                 if snd iv then Ok unknown_domains
                 else
                   let* d := getitem unknown_domains (fst iv) in
                   if (1 <? length d)%nat
                      && bool_decide ((is_searching_rows st, i, fst iv)
                                        ∉ known_intersects st)
                   then
                     let* d' :=
                       for_each (rev (enumerate d))
                         (fun (live : list (list bool)) (jc : nat * list bool) =>
                            let* x := getitem (snd jc) i in
                            if x then Ok (delete (fst jc) live) else Ok live)
                         d in
                     Ok (<[fst iv := d']> unknown_domains)
                   else Ok unknown_domains)) with uds as (uds' & E & _);
    [|auto|eauto].
  intros s [p v] Hin [Hl Hw]. apply enumerate_In in Hin.
  apply lookup_lt_Some in Hin. cbn [fst snd].
  destruct v; [eauto|].
  destruct (lookup_lt_is_Some_2 s p ltac:(lia)) as [d Hd].
  unfold getitem at 1. rewrite Hd. cbn [bind].
  destruct (_ && _); [|eauto].
  pose proof (prune_loop_total i d []) as Hp. rewrite !app_nil_r in Hp.
  rewrite Hp, (well_sized_valid n i s p d Hw Hd Hi). cbn [bind].
  eexists. split; [reflexivity|]. split.
  - now rewrite length_insert.
  - now apply well_sized_insert_filter.
Qed.

Lemma propagate_intersects_ok (n : nat) (b : side) (i : nat)
    (intersects : list (nat * bool)) (st : solver) :
  (i < n)%nat ->
  (forall it, In it intersects -> (fst it < n)%nat) ->
  length (domains_of b st) = n -> well_sized n (domains_of b st) ->
  exists st', for_each intersects (propagate_intersect b i) st = Ok st'.
Proof.
  intros Hi Hpos Hlen Hws.
  destruct (for_each_ok
              (fun s => length (domains_of b s) = n /\ well_sized n (domains_of b s))
              intersects (propagate_intersect b i)) with st as (st' & E & _);
    [|auto|eauto].
  intros s it Hit [Hl Hw]. unfold propagate_intersect.
  destruct (lookup_lt_is_Some_2 (domains_of b s) (fst it)
              ltac:(rewrite Hl; auto)) as [d Hd].
  unfold getitem at 1. rewrite Hd. cbn [bind].
  rewrite reduceDomain_cases, (well_sized_valid n i _ _ d Hw Hd Hi).
  assert (Hdom : forall t d', domains_of b (add_intersect t (set_domains b d' s)) = d')
    by (intros; destruct b; reflexivity).
  destruct (length d =? 1)%nat; cbn [bind]; eexists; (split; [reflexivity|]);
    rewrite Hdom; split; try (now rewrite length_insert).
  - rewrite list_insert_id by exact Hd. exact Hw.
  - now apply well_sized_insert_filter.
Qed.

(** The lines of [domains_a] that are not known have a candidate. *)
Lemma reduce_line_ok (n : nat) (a b : side) (st : solver) (i : nat) :
  a <> b -> (i < n)%nat ->
  length (domains_of a st) = n -> length (domains_of b st) = n ->
  well_sized n (domains_of a st) -> well_sized n (domains_of b st) ->
  (forall d, domains_of a st !! i = Some d -> i ∉ known_of a st -> d <> []) ->
  exists st', reduce_line a a b st i = Ok st'.
Proof.
  intros Hab Hi La Lb Wa Wb Hne. unfold reduce_line.
  destruct (bool_decide_reflect (i ∈ known_of a st)) as [Hk|Hk]; [eauto|].
  destruct (lookup_lt_is_Some_2 (domains_of a st) i ltac:(lia)) as [d Hd].
  specialize (Hne d Hd Hk).
  unfold getitem at 1. rewrite Hd. cbn [bind].
  assert (Hdn : Forall (fun c => length c = n) d).
  { unfold well_sized in Wa. rewrite Forall_lookup in Wa. eauto. }
  assert (Hmid : exists x0,
             (if (length d =? 1)%nat then
                let* known_domain := getitem d 0 in
                let* ds := reduceNeighborDomains st known_domain (domains_of b st) i in
                Ok (add_known a i (set_domains b ds st))
              else Ok st) = Ok x0).
  { destruct (length d =? 1)%nat; [|eauto].
    destruct d as [|c d]; [congruence|].
    change (getitem (c :: d) 0) with (Ok c). cbn [bind].
    assert (Hc : length c = n) by (inversion Hdn; assumption).
    destruct (reduceNeighborDomains_ok n st c (domains_of b st) i)
      as [ds Hds]; auto; [lia|].
    rewrite Hds. cbn [bind]. eauto. }
  destruct Hmid as [x0 Hx0]. rewrite Hx0. cbn [bind].
  pose proof (collapse_step a b _ _ _ _ Hx0) as [He (_ & Hdom & _)].
  pose proof (known_intersects_collapse_step a b _ _ _ _ Hx0) as _.
  rewrite (Hdom a Hab). unfold getitem at 1. rewrite Hd. cbn [bind].
  rewrite (getDomainIntersects_forced_at x0 d i n Hne Hdn). cbn [bind].
  apply (propagate_intersects_ok n b i); auto.
  - intros it Hit. apply in_flat_map in Hit. destruct Hit as (p & Hp & Hit).
    apply in_seq in Hp. destruct it as [q v]. apply forced_at_In in Hit.
    destruct Hit as (-> & _). simpl. lia.
  - rewrite <- Lb.
    apply (Forall2_length _ _ _ (evolves_domains_of b _ _ He)).
  - eapply shrinks_well_sized; [apply evolves_domains_of; exact He|exact Wb].
Qed.

Lemma reduceDomains_ok (n : nat) (a b : side) (st : solver) :
  a <> b ->
  wf n st ->
  (forall i d, domains_of a st !! i = Some d -> i ∉ known_of a st -> d <> []) ->
  exists st', reduceDomains a a b st = Ok st'.
Proof.
  intros Hab (LR & LC & WR & WC & _) Hne. unfold reduceDomains.
  assert (La : length (domains_of a st) = n) by (destruct a; assumption).
  assert (Lb : length (domains_of b st) = n) by (destruct b; assumption).
  assert (Wa : well_sized n (domains_of a st)) by (destruct a; assumption).
  assert (Wb : well_sized n (domains_of b st)) by (destruct b; assumption).
  rewrite La.
  destruct (for_each_ok
              (fun s => evolves st s /\ domains_of a s = domains_of a st)
              (seq 0 n) (reduce_line a a b)) with st as (st' & E & _);
    [|split; [apply evolves_refl|reflexivity]|eauto].
  intros s i Hi [He Hd]. apply in_seq in Hi.
  destruct (reduce_line_ok n a b s i) as [s' Hs']; auto; try lia.
  - now rewrite Hd.
  - rewrite <- Lb. apply (Forall2_length _ _ _ (evolves_domains_of b _ _ He)).
  - now rewrite Hd.
  - eapply shrinks_well_sized; [apply evolves_domains_of; exact He|exact Wb].
  - intros d Hl Hk. rewrite Hd in Hl. apply (Hne i d Hl).
    intros Hin. apply Hk. now apply (evolves_known_of a _ _ He).
  - exists s'. split; [exact Hs'|].
    pose proof (reduce_line_pass _ _ _ _ _ _ Hs') as [He1 (_ & Hd1 & _)].
    split; [eapply evolves_trans; eassumption|]. now rewrite (Hd1 a Hab).
Qed.

(** X14. On a solver of the shape that [solve] maintains, a pass
    [reduceDomains(domains_a, known_domains_a, domains_b)] over two
    distinct domain lists raises [IndexError] if some line of [domains_a]
    that is not known has an empty domain, and returns otherwise: an empty
    domain is the only thing that makes a pass fail. *)
Theorem reduceDomains_raises_iff_empty (n : nat) (a b : side) (st : solver) :
  a <> b ->
  wf n st ->
  ((exists i, domains_of a st !! i = Some [] /\ i ∉ known_of a st) ->
   reduceDomains a a b st = IndexError)
  /\ ((forall i d, domains_of a st !! i = Some d -> i ∉ known_of a st -> d <> []) ->
      exists st', reduceDomains a a b st = Ok st').
Proof.
  intros Hab Hwf. split.
  - intros (i & Hd & Hk). now apply (reduceDomains_empty a b st i).
  - intros Hne. now apply (reduceDomains_ok n a b st).
Qed.

Lemma reduceDomains_raises_iff_empty_witness :
  ((exists i, domains_of Rows cross !! i = Some [] /\ i ∉ known_of Rows cross) ->
   reduceDomains Rows Rows Cols cross = IndexError)
  /\ ((forall i d, domains_of Rows cross !! i = Some d -> i ∉ known_of Rows cross ->
                   d <> []) ->
      exists st', reduceDomains Rows Rows Cols cross = Ok st').
Proof.
  apply (reduceDomains_raises_iff_empty 3 Rows Cols cross).
  - discriminate.
  - apply (generate_all_wf 3 [[3]; [1]; [1]]%nat [[1]; [3]; [1]]%nat);
      reflexivity.
Defined.

(** ** A puzzle that has a solution *)

Lemma holds_nonempty (ds : list (list (list bool))) (L : list (list bool)) :
  holds ds L -> forall i d, ds !! i = Some d -> d <> [].
Proof.
  intros H i d Hd. destruct (Forall2_lookup_l _ _ _ _ _ H Hd) as (l & _ & Hin).
  intros ->. now apply not_elem_of_nil in Hin.
Qed.

Lemma solve_round_ok (n size : nat) (R C : list (list bool)) (st : solver) :
  wf n st -> crossing R C ->
  holds (row_domains st) R /\ holds (col_domains st) C ->
  exists st', solve_round size st = Ok st'.
Proof.
  intros Hwf Hx [HR HC]. unfold solve_round.
  destruct (reduceDomains_ok n Rows Cols st) as [x Hx1];
    [discriminate|exact Hwf| |].
  { intros i d Hd _. eapply holds_nonempty; [exact HR|exact Hd]. }
  rewrite Hx1. cbn [bind].
  destruct (negb _); [|eauto].
  pose proof (reduceDomains_wf n Rows Cols st x ltac:(discriminate) Hwf Hx1) as Hwf1.
  pose proof (reduceDomains_sound Rows Cols R C ltac:(discriminate) Hx st x
                (conj HR HC) Hx1) as [HR1 HC1].
  destruct (reduceDomains_ok n Cols Rows (flip x)) as [y Hy];
    [discriminate|now apply wf_flip| |].
  { intros i d Hd _. eapply holds_nonempty; [exact HC1|exact Hd]. }
  rewrite Hy. cbn [bind]. eauto.
Qed.

Lemma solve_loop_no_raise (n size : nat) (R C : list (list bool)) :
  crossing R C ->
  forall fuel st,
    wf n st ->
    holds (row_domains st) R /\ holds (col_domains st) C ->
    solve_loop size fuel st <> IndexError.
Proof.
  intros Hx. induction fuel as [|fuel IH]; intros st Hwf Hh; simpl;
    [discriminate|].
  destruct (searching size st); [|discriminate].
  destruct (solve_round_ok n size R C st Hwf Hx Hh) as [st' Hr].
  rewrite Hr. cbn [bind]. apply IH.
  - eapply solve_round_wf; eassumption.
  - eapply solve_round_sound; eassumption.
Qed.

Lemma generate_all_ok (size : nat) (L : list (list bool)) (specs : list (list nat)) :
  satisfies size L specs ->
  forall ds0, exists ds, generate_all size specs ds0 = Ok ds.
Proof.
  unfold satisfies, generate_all.
  induction 1 as [|l nums L specs [Hlen Hruns] _ IH]; intros ds0; simpl; [eauto|].
  rewrite generateDomain_fits.
  - cbn [bind]. apply IH.
  - rewrite <- Hruns. apply runs_from_positive.
  - rewrite <- Hruns, <- Hlen. apply runs_fits.
Qed.

(** X15. On a puzzle that has a solution, [solve] never raises: with rows
    [R] and columns [C] of one board that have the runs of the [size] row
    specs and [size] column specs, [solve] either is still running after
    the given number of iterations, or has returned with that board - the
    row domains holding exactly [R], or the column domains exactly [C]. *)
Theorem solve_on_solvable (size fuel : nat) (rows cols : list (list nat))
    (R C : list (list bool)) :
  length rows = size -> length cols = size ->
  satisfies size R rows -> satisfies size C cols -> crossing R C ->
  solve size fuel rows cols = OutOfFuel
  \/ exists st,
       solve size fuel rows cols = Ok st
       /\ ((set_len (known_rows st) = size /\ row_domains st = map (fun l => [l]) R)
           \/ (set_len (known_cols st) = size
               /\ col_domains st = map (fun l => [l]) C)).
Proof.
  intros Hrows Hcols HR HC Hx.
  destruct (solve size fuel rows cols) as [st| |] eqn:E.
  - right. exists st. split; [reflexivity|].
    destruct (solve_collapsed_to size fuel rows cols R C st) as ([Hk|Hk] & H1 & H2);
      auto.
  - exfalso. unfold solve in E.
    destruct (generate_all_ok size R rows HR (row_domains init)) as [rds Er].
    destruct (generate_all_ok size C cols HC (col_domains init)) as [cds Ec].
    rewrite Er, Ec in E. cbn [bind] in E. revert E.
    apply (solve_loop_no_raise size size R C Hx).
    + apply (generate_all_wf size rows cols); assumption.
    + split; [eapply generate_all_holds; eassumption|].
      eapply generate_all_holds; eassumption.
  - now left.
Qed.

Lemma solve_on_solvable_witness :
  solve 3 5 [[3]; [1]; [1]]%nat [[1]; [3]; [1]]%nat = OutOfFuel
  \/ exists st,
       solve 3 5 [[3]; [1]; [1]]%nat [[1]; [3]; [1]]%nat = Ok st
       /\ ((set_len (known_rows st) = 3%nat
            /\ row_domains st = map (fun l => [l]) cross_rows)
           \/ (set_len (known_cols st) = 3%nat
               /\ col_domains st = map (fun l => [l]) cross_cols)).
Proof.
  apply (solve_on_solvable 3 5 [[3]; [1]; [1]]%nat [[1]; [3]; [1]]%nat
           cross_rows cross_cols).
  - reflexivity.
  - reflexivity.
  - repeat constructor.
  - repeat constructor.
  - exact crossing_cross.
Defined.

(** ** Rows that leave no choice *)

Lemma all_lines_known (n : nat) (X : gset nat) :
  (forall i, i ∈ X <-> (i < n)%nat) -> set_len X = n.
Proof.
  intros H. unfold set_len.
  assert (X = set_seq 0 n) as ->.
  { apply set_eq. intros i. rewrite elem_of_set_seq, H. lia. }
  apply size_set_seq.
Qed.

(** X16. [solve] does not check the columns when the rows leave no
    choice: if the generation phase succeeds and every row domain has
    exactly one candidate, [solve] returns after its first pass with these
    rows and all rows known, no column known - whatever the column
    domains are, also when one of them is empty. *)
Theorem solve_trusts_forced_rows (size fuel : nat) (rows cols : list (list nat))
    (rds cds : list (list (list bool))) :
  length rows = size -> length cols = size ->
  generate_all size rows [] = Ok rds ->
  generate_all size cols [] = Ok cds ->
  Forall (fun d => length d = 1%nat) rds ->
  exists st,
    solve size (S (S fuel)) rows cols = Ok st
    /\ row_domains st = rds
    /\ set_len (known_rows st) = size
    /\ known_cols st = ∅.
Proof.
  intros Hrows Hcols Er Ec Hone.
  pose proof (generate_all_wf size rows cols _ _ Hrows Hcols Er Ec) as Hwf.
  unfold solve. simpl row_domains. simpl col_domains. rewrite Er, Ec. cbn [bind].
  simpl known_rows. simpl known_cols. simpl known_intersects.
  simpl is_searching_rows.
  set (st0 := Solver rds cds ∅ ∅ ∅ true) in *.
  destruct (searching size st0) eqn:Hs.
  - destruct (reduceDomains_ok size Rows Cols st0) as [x Hx];
      [discriminate|exact Hwf| |].
    { intros i d Hd _. simpl in Hd. rewrite Forall_lookup in Hone.
      specialize (Hone _ _ Hd). intros ->. discriminate. }
    pose proof (reduceDomains_pass _ _ _ _ _ Hx) as [_ (_ & Hd & Hk)].
    specialize (Hd Rows ltac:(discriminate)).
    specialize (Hk Cols ltac:(discriminate)). simpl in Hd, Hk.
    pose proof Hx as Hx'. unfold reduceDomains in Hx'.
    destruct (reduce_lines_known Rows Cols _ _ _ ltac:(discriminate) Hx')
      as (_ & _ & Hfrom & Hto). simpl in Hfrom, Hto.
    assert (Hall : set_len (known_rows x) = size).
    { apply all_lines_known. intros i. split.
      - intros Hi. destruct (Hfrom i Hi) as [H0|[c Hc]]; [set_solver|].
        apply lookup_lt_Some in Hc. destruct Hwf as (LR & _). simpl in LR. lia.
      - intros Hi. destruct Hwf as (LR & _). simpl in LR.
        destruct (lookup_lt_is_Some_2 rds i ltac:(lia)) as [d Hdi].
        rewrite Forall_lookup in Hone.
        destruct (length_1_singleton d (Hone _ _ Hdi)) as [c ->].
        eapply Hto; [|exact Hdi]. apply in_seq. lia. }
    exists (flip x).
    split; [|split; [exact Hd|split; [exact Hall|exact Hk]]].
    cbn [solve_loop]. rewrite Hs. unfold solve_round. rewrite Hx. cbn [bind].
    change (known_rows (flip x)) with (known_rows x).
    rewrite (proj2 (Nat.eqb_eq _ _) Hall). cbn [negb bind].
    assert (searching size (flip x) = false) as ->; [|reflexivity].
    unfold searching. change (known_rows (flip x)) with (known_rows x).
    now rewrite (proj2 (Nat.eqb_eq _ _) Hall).
  - exists st0. cbn [solve_loop]. rewrite Hs.
    split; [reflexivity|]. split; [reflexivity|]. split; [|reflexivity].
    unfold searching in Hs. simpl in Hs.
    assert (H0 : set_len (∅ : gset nat) = 0%nat) by reflexivity.
    rewrite H0 in *. destruct size; [reflexivity|discriminate].
Qed.

Lemma solve_trusts_forced_rows_witness :
  exists st,
    solve 2 2 [[2]; [2]]%nat [[2]; [5]]%nat = Ok st
    /\ row_domains st = [[[true; true]]; [[true; true]]]
    /\ set_len (known_rows st) = 2%nat
    /\ known_cols st = ∅.
Proof.
  apply (solve_trusts_forced_rows 2 0 [[2]; [2]]%nat [[2]; [5]]%nat
           [[[true; true]]; [[true; true]]] [[[true; true]]; []]).
  - reflexivity.
  - reflexivity.
  - vm_compute. reflexivity.
  - vm_compute. reflexivity.
  - repeat constructor.
Defined.
